(** * EchoAI voice assistant: the Gemini service

    A shallow embedding of [services/geminiService.ts] (class
    [GeminiService]) and of the types it uses from [types.ts], together
    with the properties of its prompt builder, its request/response
    client, its playback sequencer and its live-session message handler.

    Conventions of the embedding:
    - In the state machine the numbers that carry time (the audio clock,
      the playback cursor, buffer durations, playback rates) are exact
      rationals [Q]: the statements made there are about order and
      identity (which source is started, that the cursor does not move
      back), under the hypotheses they state, a positive speed among
      them.  The values themselves, which the code computes in IEEE 754
      binary64, are the subject of [Doubles], where lines 330 to 343 are
      embedded on Rocq's primitive floats: [5 + 1 / 3] is
      6004799503160661 / 2^50 there, and a division by zero is an
      infinity or NaN.  That the cursor keeps its order there as well is
      proved from the specification of the floats ([SpecFloat]): adding
      a quotient that is not negative never gives less.
    - An [async] method is a computation in the monad [M]: it threads the
      mutable world (the service object, the variables closed over by the
      live session, the audio clock), may reject with a [JsError], and
      emits the externally visible effects it performs as a list of
      [Event]s.  The value produced at each [await] is supplied by the
      environment (the backend, the audio decoder, the caller's handler).
      A computation in [M] is the method run with nothing else of the
      service running while it awaits; what [speakText] does when other
      calls run during its awaits is told by its parts between the
      awaits, [speakText_call], [speakText_onResponse] and
      [speakText_onDecoded].
    - [process.env.API_KEY] and [process.env.GEMINI_API_KEY] are the
      build-time string constants that [vite.config.ts] defines with
      [JSON.stringify(apiKey)]; an unset key is the empty string, and
      [new GoogleGenAI({ apiKey })] is the construction of a record.
    - The repository holds two copies of the service.  The embedding
      follows the persona-aware one; the older copy differs from it only
      in the request of [sendChatMessage] (no history, a fixed system
      instruction) and in the system instruction of the live session. *)

From Stdlib Require Import Floats.
From Stdlib Require Import List String Ascii Bool Arith ZArith QArith Qminmax Lia.
From Stdlib Require Import Lqa.
Import ListNotations.

Local Open Scope string_scope.
Local Open Scope list_scope.

(** ** JavaScript values and truthiness *)

Module Js.

(** The falsy strings are exactly the empty one. *)
Definition truthy_string (s : string) : bool :=
  match s with
  | EmptyString => false
  | String _ _ => true
  end.

(** [a || b] on strings. *)
Definition or_string (a b : string) : string :=
  if truthy_string a then a else b.

(** An optional string property: [undefined] or a string. *)
Definition truthy_opt (o : option string) : bool :=
  match o with
  | Some s => truthy_string s
  | None => false
  end.

(** [o || d] where [o] may be [undefined]. *)
Definition or_default (o : option string) (d : string) : string :=
  match o with
  | Some s => or_string s d
  | None => d
  end.

(** Values of type [any], as far as the service inspects them. *)
Inductive value : Type :=
| Undefined
| Null
| Boolean (b : bool)
| Number (n : Z)
| NaN
| Str (s : string)
| Object (json : string).

Definition truthy (v : value) : bool :=
  match v with
  | Undefined | Null | NaN => false
  | Boolean b => b
  | Number n => negb (n =? 0)%Z
  | Str s => truthy_string s
  | Object _ => true
  end.

(** [v || d]. *)
Definition or (v d : value) : value :=
  if truthy v then v else d.

(** [Array.prototype.findIndex]: the index of the first element that
    satisfies [p], or [-1]. *)
Fixpoint findIndex_from {A : Type} (p : A -> bool) (l : list A) (i : Z) : Z :=
  match l with
  | [] => (-1)%Z
  | x :: r => if p x then i else findIndex_from p r (i + 1)%Z
  end.

Definition findIndex {A : Type} (p : A -> bool) (l : list A) : Z :=
  findIndex_from p l 0%Z.

(** [Array.prototype.filter] with the three-argument callback
    [(v, i, a)]. *)
Fixpoint filter_from {A : Type} (f : A -> Z -> bool) (l : list A) (i : Z) : list A :=
  match l with
  | [] => []
  | x :: r =>
      if f x i then x :: filter_from f r (i + 1)%Z
      else filter_from f r (i + 1)%Z
  end.

Definition filter {A : Type} (f : A -> Z -> list A -> bool) (a : list A) : list A :=
  filter_from (fun v i => f v i a) a 0%Z.

(** [a.slice(-k)]: the last [k] elements, all of them when there are
    fewer. *)
Definition slice_last {A : Type} (k : nat) (a : list A) : list A :=
  skipn (List.length a - k) a.

(** [a.join(sep)] on strings. *)
Definition join (sep : string) (a : list string) : string :=
  String.concat sep a.

(** [a?.[0]]. *)
Definition first {A : Type} (a : list A) : option A := nth_error a 0.

(** Optional chaining [o?.f]. *)
Definition chain {A B : Type} (o : option A) (f : A -> option B) : option B :=
  match o with
  | Some a => f a
  | None => None
  end.

End Js.

(** ** types.ts *)

Inductive MessageRole : Type := USER | ASSISTANT | SYSTEM.

Definition MessageRole_eqb (a b : MessageRole) : bool :=
  match a, b with
  | USER, USER | ASSISTANT, ASSISTANT | SYSTEM, SYSTEM => true
  | _, _ => false
  end.

Record GroundingSource : Type := mkGroundingSource {
  title : string;
  uri : string
}.

Record ChatMessage : Type := mkChatMessage {
  id : string;
  role : MessageRole;
  content : string;
  timestamp : Z;
  isVoice : option bool;
  sources : option (list GroundingSource)
}.

Inductive ModelType : Type := gemini_3_pro_preview | gemini_3_flash_preview.

Inductive VoicePersona : Type := Zephyr | Puck | Kore | Charon | Fenrir.

Record AudioSettings : Type := mkAudioSettings {
  volume : Q;
  speed : Q
}.

(** ** Prompt text *)

Definition nl : string := String (ascii_of_nat 10) EmptyString.
Definition dq : string := String (ascii_of_nat 34) EmptyString.

Definition PERSONA_PERSONALITIES (persona : VoicePersona) : string :=
  match persona with
  | Zephyr =>
      "You are EchoAI with the ZEPHYR persona - a sophisticated, snarky, and witty J.A.R.V.I.S.-style advanced HUD assistant with a British accent." ++ nl ++
      "You're elegant yet playful, offering dry humor and clever observations. You address the user with refined politeness but aren't afraid to add sardonic remarks." ++ nl ++
      "Example tone: " ++ dq ++ "Ah, another brilliant query. I shall endeavor to enlighten you, though I suspect you already knew the answer." ++ dq
  | Puck =>
      "You are EchoAI with the PUCK persona - a mischievous, energetic, and playful AI assistant inspired by Shakespeare's trickster fairy." ++ nl ++
      "You're quick-witted, love wordplay and puns, and bring infectious enthusiasm to every interaction. You're helpful but always with a twinkle of chaos." ++ nl ++
      "Example tone: " ++ dq ++ "Ooh, interesting question! Let me dig into that faster than you can say 'midsummer madness'!" ++ dq
  | Kore =>
      "You are EchoAI with the KORE persona - a calm, wise, and nurturing AI assistant with an ethereal, goddess-like presence." ++ nl ++
      "You speak with gentle authority, offering insights with patience and warmth. You're deeply knowledgeable and provide thoughtful, measured responses." ++ nl ++
      "Example tone: " ++ dq ++ "An excellent question. Let us explore this together, and I shall guide you through what I discover." ++ dq
  | Charon =>
      "You are EchoAI with the CHARON persona - a mysterious, stoic, and darkly poetic AI assistant with an otherworldly gravitas." ++ nl ++
      "You speak in measured, dramatic tones with occasional philosophical musings. You're reliable and precise, but with an air of ancient wisdom." ++ nl ++
      "Example tone: " ++ dq ++ "You seek knowledge from the depths. Very well. I shall ferry this information to you across the digital void." ++ dq
  | Fenrir =>
      "You are EchoAI with the FENRIR persona - a fierce, bold, and direct AI assistant with Norse warrior energy." ++ nl ++
      "You're confident, powerful, and speak with commanding authority. You value strength, clarity, and getting straight to the point." ++ nl ++
      "Example tone: " ++ dq ++ "A worthy question! Let me hunt down this information and bring it back to you. Stand ready." ++ dq
  end.

Definition BASE_INSTRUCTION : string :=
  "Use Google Search grounding for every query to ensure real-time accuracy." ++ nl ++
  "Remember the conversation context and refer back to previous topics when relevant." ++ nl ++
  "Maintain your persona's unique voice consistently throughout the conversation.".

(** ** The persona/prompt builder *)

(** [`${msg.role === MessageRole.USER ? 'User' : 'Assistant'}: ${msg.content}`] *)
Definition transcriptLine (msg : ChatMessage) : string :=
  (if MessageRole_eqb (role msg) USER then "User" else "Assistant")
    ++ ": " ++ content msg.

(** The instruction before any history is added. *)
Definition voiceTemplate (persona : VoicePersona) : string :=
  PERSONA_PERSONALITIES persona ++ nl ++ nl ++
  "You can clear the chat, set volume, and set speed using your tools. " ++
  BASE_INSTRUCTION.

Definition contextHeader : string :=
  nl ++ nl ++ "--- Previous Conversation Context ---" ++ nl.

Definition contextFooter : string :=
  nl ++ "--- End of Context ---" ++ nl ++
  "Continue the conversation naturally, referencing previous topics when relevant.".

Definition buildVoiceSystemInstruction
    (persona : VoicePersona) (history : list ChatMessage) : string :=
  let instruction := voiceTemplate persona in
  if (0 <? List.length history)%nat then
    let recentHistory := Js.slice_last 10 history in
    let historyContext := Js.join nl (map transcriptLine recentHistory) in
    instruction ++ contextHeader ++ historyContext ++ contextFooter
  else instruction.

(** ** The backend, as the service sees it ([@google/genai]) *)

Inductive JsError : Type := Error (message : string).

(** What an awaited promise (or a call that may throw) produces. *)
Inductive Outcome (A : Type) : Type :=
| Resolved (a : A)
| Rejected (e : JsError).

Arguments Resolved {A} a.
Arguments Rejected {A} e.

Record InlineData : Type := mkInlineData {
  data : option string
}.

Record Part : Type := mkPart {
  part_text : option string;
  inlineData : option InlineData
}.

Definition textPart (t : string) : Part :=
  {| part_text := Some t; inlineData := None |}.

Record Content : Type := mkContent {
  content_role : option string;
  parts : option (list Part)
}.

Record GroundingChunkWeb : Type := mkWeb {
  web_uri : option string;
  web_title : option string
}.

Record GroundingChunk : Type := mkChunk {
  web : option GroundingChunkWeb
}.

Record GroundingMetadata : Type := mkGroundingMetadata {
  groundingChunks : option (list GroundingChunk)
}.

Record Candidate : Type := mkCandidate {
  candidate_content : option Content;
  groundingMetadata : option GroundingMetadata
}.

Record GenerateContentResponse : Type := mkResponse {
  response_text : option string;
  candidates : option (list Candidate)
}.

Inductive Modality : Type := AUDIO.

Record GenerateContentConfig : Type := mkConfig {
  systemInstruction : option string;
  googleSearch : bool;
  responseModalities : list Modality;
  voiceName : option VoicePersona
}.

Record GenerateContentParameters : Type := mkParams {
  model : string;
  contents : list Content;
  config : GenerateContentConfig
}.

Definition modelName (m : ModelType) : string :=
  match m with
  | gemini_3_pro_preview => "gemini-3-pro-preview"
  | gemini_3_flash_preview => "gemini-3-flash-preview"
  end.

(** [new GoogleGenAI({ apiKey })]: a client that holds the key. *)
Record GoogleGenAI : Type := mkGoogleGenAI {
  apiKey : string
}.

Definition systemActions : list string :=
  ["clear_chat"; "set_volume"; "set_speed"].

Record LiveConnectParameters : Type := mkLiveParams {
  live_model : string;
  live_responseModalities : list Modality;
  live_voiceName : VoicePersona;
  live_functionDeclarations : list string;
  live_systemInstruction : string
}.

Record FunctionCall : Type := mkFunctionCall {
  fc_id : string;
  fc_name : string;
  fc_args : Js.value
}.

Record FunctionResponse : Type := mkFunctionResponse {
  fr_id : string;
  fr_name : string;
  fr_result : Js.value
}.

Record Transcription : Type := mkTranscription {
  transcription_text : option string
}.

Record ServerContent : Type := mkServerContent {
  modelTurn : option Content;
  inputTranscription : option Transcription;
  outputTranscription : option Transcription;
  turnComplete : bool;
  interrupted : bool
}.

Record LiveServerToolCall : Type := mkToolCall {
  functionCalls : option (list FunctionCall)
}.

Record LiveServerMessage : Type := mkLiveServerMessage {
  toolCall : option LiveServerToolCall;
  serverContent : option ServerContent
}.

(** The open connection behind [activeSession]; sending on a closed
    socket throws. *)
Record Session : Type := mkSession {
  socketOpen : bool
}.

(** [process.env], as far as the service reads it. *)
Record ProcessEnv : Type := mkEnv {
  API_KEY : string;
  GEMINI_API_KEY : string
}.

(** ** Web Audio objects *)

Record AudioBuffer : Type := mkAudioBuffer {
  duration : Q
}.

Record AudioContext : Type := mkAudioContext {
  sampleRate : Z
}.

(** [gain.setTargetAtTime(target, startTime, timeConstant)]. *)
Record GainTarget : Type := mkGainTarget {
  target : Q;
  targetStart : Q;
  timeConstant : Q
}.

Record GainNode : Type := mkGainNode {
  gainValue : Q;
  gainTarget : option GainTarget
}.

(** A buffer source.  [nodeId] is the identity of the object; [startedAt]
    is [None] until [start] has been called. *)
Record AudioBufferSourceNode : Type := mkSource {
  nodeId : nat;
  buffer : AudioBuffer;
  playbackRate : Q;
  startedAt : option Q
}.

(** ** The service object and the world around it *)

Record GeminiService : Type := mkService {
  audioContext : option AudioContext;
  outputNode : option GainNode;
  nextStartTime : Q;
  activeSources : list AudioBufferSourceNode;
  currentAudioSettings : AudioSettings
}.

(** [new GeminiService()]. *)
Definition newGeminiService : GeminiService :=
  {| audioContext := None;
     outputNode := None;
     nextStartTime := 0;
     activeSources := [];
     currentAudioSettings := {| volume := 8 # 10; speed := 1 |} |}.

(** The variables that [connectLive] declares and its callbacks close
    over. *)
Record LiveClosure : Type := mkLive {
  currentInputText : string;
  currentOutputText : string;
  activeSession : option Session;
  scriptProcessor : bool;
  streamLive : bool;
  inputAudioContextOpen : bool
}.

Definition noLive : LiveClosure :=
  {| currentInputText := ""; currentOutputText := "";
     activeSession := None; scriptProcessor := false;
     streamLive := false; inputAudioContextOpen := false |}.

Record World : Type := mkWorld {
  service : GeminiService;
  live : LiveClosure;
  currentTime : Q;
  nextNodeId : nat
}.

Definition initialWorld : World :=
  {| service := newGeminiService; live := noLive;
     currentTime := 0; nextNodeId := 0%nat |}.

(** Everything the service does to the outside. *)
Inductive Event : Type :=
| EvGenerateContent (ai : GoogleGenAI) (req : GenerateContentParameters)
| EvLiveConnect (ai : GoogleGenAI) (req : LiveConnectParameters)
| EvGetUserMedia
| EvConsoleError (msg : string)
| EvOnError (msg : string)
| EvOnTranscription (text : string) (isUser : bool)
| EvOnTurnComplete (userText assistantText : string)
| EvOnToolCall (name : string) (args : Js.value) (result : Outcome Js.value)
| EvSendToolResponse (r : FunctionResponse)
| EvSendRealtimeInput
| EvSourceStart (node : nat) (when : Q)
| EvSourceStop (node : nat).

(** The requests that the service hands to the SDK or to the open
    session: a call of [ai.models.generateContent] or [ai.live.connect],
    a tool response, a microphone frame.  Whether the SDK goes to the
    network for them is its own business (given an empty key it may
    refuse before it does). *)
Definition isNetworkCall (e : Event) : bool :=
  match e with
  | EvGenerateContent _ _ | EvLiveConnect _ _
  | EvSendToolResponse _ | EvSendRealtimeInput => true
  | _ => false
  end.

(** ** The monad of service computations *)

Definition M (A : Type) : Type := World -> Outcome A * World * list Event.

Definition ret {A : Type} (a : A) : M A :=
  fun w => (Resolved a, w, []).

Definition bind {A B : Type} (m : M A) (k : A -> M B) : M B :=
  fun w =>
    match m w with
    | (Resolved a, w1, l1) =>
        match k a w1 with
        | (r, w2, l2) => (r, w2, l1 ++ l2)
        end
    | (Rejected e, w1, l1) => (Rejected e, w1, l1)
    end.

Declare Scope js_scope.
Delimit Scope js_scope with js.
Notation "x <- m ;; k" := (bind m (fun x => k))
  (at level 61, m at next level, right associativity) : js_scope.
Notation "m ;; k" := (bind m (fun _ => k))
  (at level 61, right associativity) : js_scope.

Local Open Scope js_scope.

(** [throw e]. *)
Definition throw {A : Type} (e : JsError) : M A :=
  fun w => (Rejected e, w, []).

(** [try { m } catch (e) { h e }]. *)
Definition try_catch {A : Type} (m : M A) (h : JsError -> M A) : M A :=
  fun w =>
    match m w with
    | (Resolved a, w1, l1) => (Resolved a, w1, l1)
    | (Rejected e, w1, l1) =>
        match h e w1 with
        | (r, w2, l2) => (r, w2, l1 ++ l2)
        end
    end.

(** [await p], the promise settling as the environment decides. *)
Definition await {A : Type} (p : Outcome A) : M A :=
  fun w => (p, w, []).

Definition emit (e : Event) : M unit :=
  fun w => (Resolved tt, w, [e]).

Definition getService : M GeminiService :=
  fun w => (Resolved (service w), w, []).

Definition getLive : M LiveClosure :=
  fun w => (Resolved (live w), w, []).

Definition getCurrentTime : M Q :=
  fun w => (Resolved (currentTime w), w, []).

Definition modifyService (f : GeminiService -> GeminiService) : M unit :=
  fun w =>
    (Resolved tt,
     {| service := f (service w); live := live w;
        currentTime := currentTime w; nextNodeId := nextNodeId w |},
     []).

Definition modifyLive (f : LiveClosure -> LiveClosure) : M unit :=
  fun w =>
    (Resolved tt,
     {| service := service w; live := f (live w);
        currentTime := currentTime w; nextNodeId := nextNodeId w |},
     []).

(** [for (const x of l) { f x }] and [l.forEach(f)]. *)
Fixpoint forEach {A : Type} (f : A -> M unit) (l : list A) : M unit :=
  match l with
  | [] => ret tt
  | x :: r => f x ;; forEach f r
  end.

Definition when (b : bool) (m : M unit) : M unit :=
  if b then m else ret tt.

(** Projections of a run. *)
Definition outcomeOf {A : Type} (r : Outcome A * World * list Event) : Outcome A :=
  fst (fst r).
Definition worldOf {A : Type} (r : Outcome A * World * list Event) : World :=
  snd (fst r).
Definition eventsOf {A : Type} (r : Outcome A * World * list Event) : list Event :=
  snd r.

(** Field updates of [this]. *)
Definition withAudioContext (c : AudioContext) (g : GainNode) (s : GeminiService) : GeminiService :=
  {| audioContext := Some c; outputNode := Some g;
     nextStartTime := nextStartTime s; activeSources := activeSources s;
     currentAudioSettings := currentAudioSettings s |}.

Definition withOutputNode (g : GainNode) (s : GeminiService) : GeminiService :=
  {| audioContext := audioContext s; outputNode := Some g;
     nextStartTime := nextStartTime s; activeSources := activeSources s;
     currentAudioSettings := currentAudioSettings s |}.

Definition withNextStartTime (t : Q) (s : GeminiService) : GeminiService :=
  {| audioContext := audioContext s; outputNode := outputNode s;
     nextStartTime := t; activeSources := activeSources s;
     currentAudioSettings := currentAudioSettings s |}.

Definition withActiveSources (l : list AudioBufferSourceNode) (s : GeminiService) : GeminiService :=
  {| audioContext := audioContext s; outputNode := outputNode s;
     nextStartTime := nextStartTime s; activeSources := l;
     currentAudioSettings := currentAudioSettings s |}.

Definition withAudioSettings (a : AudioSettings) (s : GeminiService) : GeminiService :=
  {| audioContext := audioContext s; outputNode := outputNode s;
     nextStartTime := nextStartTime s; activeSources := activeSources s;
     currentAudioSettings := a |}.

(** [Set.prototype.add] and [Set.prototype.delete] on a set of objects,
    kept in insertion order. *)
Definition sameNode (a b : AudioBufferSourceNode) : bool :=
  (nodeId a =? nodeId b)%nat.

Definition setAdd (x : AudioBufferSourceNode) (l : list AudioBufferSourceNode) :=
  if existsb (sameNode x) l then l else l ++ [x].

Definition setDelete (n : nat) (l : list AudioBufferSourceNode) :=
  List.filter (fun y => negb (nodeId y =? n)%nat) l.

(** [ctx.createBufferSource()]: a fresh object. *)
Definition createBufferSource : M nat :=
  fun w =>
    (Resolved (nextNodeId w),
     {| service := service w; live := live w;
        currentTime := currentTime w; nextNodeId := S (nextNodeId w) |},
     []).

(** [source.stop()]: an [InvalidStateError] unless [start] was called. *)
Definition sourceStop (s : AudioBufferSourceNode) : M unit :=
  match startedAt s with
  | Some _ => emit (EvSourceStop (nodeId s))
  | None => throw (Error "InvalidStateError")
  end.

(** [session.sendToolResponse] and [session.sendRealtimeInput]. *)
Definition sendToolResponse (s : Session) (r : FunctionResponse) : M unit :=
  if socketOpen s then emit (EvSendToolResponse r)
  else throw (Error "WebSocket is not open").

Definition sendRealtimeInput (s : Session) : M unit :=
  if socketOpen s then emit EvSendRealtimeInput
  else throw (Error "WebSocket is not open").

(** The caller's [onToolCall]: whatever it does to the world while it is
    awaited, and the value its promise settles with. *)
Definition ToolHandler : Type :=
  string -> Js.value -> World -> Outcome Js.value * World.

Definition callToolHandler (h : ToolHandler) (name : string) (args : Js.value) : M Js.value :=
  fun w =>
    match h name args w with
    | (r, w1) => (r, w1, [EvOnToolCall name args r])
    end.

(** The value of [sendChatMessage]'s promise. *)
Record ChatResult : Type := mkChatResult {
  result_text : string;
  result_sources : option (list GroundingSource)
}.

Inductive LiveHandle : Type := liveHandle.

(** [`${s}${t}`] / [s += t] when [t] may be [undefined]. *)
Definition appendText (s : string) (t : option string) : string :=
  (s ++ match t with Some x => x | None => "undefined" end)%string.

(** ** class GeminiService *)

Section Service.

(** [process.env]. *)
Variable env : ProcessEnv.

(** The backend behind [ai.models.generateContent]. *)
Variable backend :
  GoogleGenAI -> GenerateContentParameters -> Outcome GenerateContentResponse.

(** [decodeAudioData(decode(base64), ctx, 24000, 1)] of
    [utils/audioUtils], on the base64 payload. *)
Variable decodeAudioData : string -> Outcome AudioBuffer.

Definition generateContent (ai : GoogleGenAI) (req : GenerateContentParameters)
  : M GenerateContentResponse :=
  emit (EvGenerateContent ai req) ;;
  await (backend ai req).

Definition setAudioSettings (settings : AudioSettings) : M unit :=
  modifyService (withAudioSettings settings) ;;
  svc <- getService ;;
  match outputNode svc with
  | Some g =>
      now <- getCurrentTime ;;
      let t := match audioContext svc with Some _ => now | None => 0 end in
      modifyService (withOutputNode
        {| gainValue := gainValue g;
           gainTarget := Some {| target := volume settings; targetStart := t;
                                 timeConstant := 1 # 10 |} |})
  | None => ret tt
  end.

(** [history.map(msg => ({ role: ..., parts: [{ text: msg.content }] }))] *)
Definition historyContent (msg : ChatMessage) : Content :=
  {| content_role :=
       Some (if MessageRole_eqb (role msg) USER then "user" else "model");
     parts := Some [textPart (content msg)] |}.

Definition conversationContents (text : string) (history : list ChatMessage)
  : list Content :=
  map historyContent history
    ++ [{| content_role := Some "user"; parts := Some [textPart text] |}].

(** The [forEach] over [groundingChunks] that fills [sources]. *)
Definition chunkSource (chunk : GroundingChunk) : list GroundingSource :=
  match web chunk with
  | Some w =>
      match web_uri w with
      | Some u =>
          if Js.truthy_string u then
            [{| title := Js.or_default (web_title w) "DATA_NODE"; uri := u |}]
          else []
      | None => []
      end
  | None => []
  end.

Definition collectSources (groundingChunks : option (list GroundingChunk))
  : list GroundingSource :=
  match groundingChunks with
  | Some chunks => flat_map chunkSource chunks
  | None => []
  end.

(** [sources.filter((v, i, a) => a.findIndex(t => t.uri === v.uri) === i)] *)
Definition uniqueSources (sources : list GroundingSource) : list GroundingSource :=
  Js.filter
    (fun v i a => (Js.findIndex (fun t => String.eqb (uri t) (uri v)) a =? i)%Z)
    sources.

Definition chatResult (response : GenerateContentResponse) : ChatResult :=
  let outputText := Js.or_default (response_text response) "NO_RESPONSE_RECEIVED" in
  let groundingChunks :=
    Js.chain (Js.chain (Js.chain (candidates response) Js.first)
                groundingMetadata) groundingChunks in
  let sources := collectSources groundingChunks in
  let uniqueSources := uniqueSources sources in
  {| result_text := outputText;
     result_sources :=
       if (0 <? List.length uniqueSources)%nat then Some uniqueSources else None |}.

Definition sendChatMessage
    (text : string) (model : ModelType)
    (history : list ChatMessage) (persona : VoicePersona) : M ChatResult :=
  let apiKey := Js.or_string (API_KEY env) (GEMINI_API_KEY env) in
  if negb (Js.truthy_string apiKey) then
    throw (Error "GEMINI_API_KEY is not configured")
  else
    let ai := {| apiKey := apiKey |} in
    let conversationContents := conversationContents text history in
    let systemInstruction :=
      (PERSONA_PERSONALITIES persona ++ nl ++ nl ++ BASE_INSTRUCTION)%string in
    response <- generateContent ai
      {| model := modelName model;
         contents := conversationContents;
         config := {| systemInstruction := Some systemInstruction;
                      googleSearch := true;
                      responseModalities := [];
                      voiceName := None |} |} ;;
    ret (chatResult response).

Definition stopAudio : M unit :=
  svc <- getService ;;
  forEach (fun s => try_catch (sourceStop s) (fun _ => ret tt))
          (activeSources svc) ;;
  modifyService (withActiveSources []) ;;
  modifyService (withNextStartTime 0).

(** [if (!this.audioContext) { ... }] of [speakText] and [connectLive]. *)
Definition ensureAudioContext : M unit :=
  svc <- getService ;;
  match audioContext svc with
  | Some _ => ret tt
  | None =>
      modifyService
        (withAudioContext {| sampleRate := 24000 |}
                          {| gainValue := 1; gainTarget := None |})
  end.

(** [response.candidates?.[0]?.content?.parts?.[0]?.inlineData?.data] *)
Definition responseAudio (response : GenerateContentResponse) : option string :=
  Js.chain (Js.chain (Js.chain (Js.chain (Js.chain (Js.chain
    (candidates response) Js.first) candidate_content) parts) Js.first)
    inlineData) data.

Definition speakRequest (text : string) (voicePersona : VoicePersona)
  : GenerateContentParameters :=
  {| model := "gemini-2.5-flash-preview-tts";
     contents := [{| content_role := None;
                     parts := Some [textPart ("Say this precisely: " ++ text)%string] |}];
     config := {| systemInstruction := None;
                  googleSearch := false;
                  responseModalities := [AUDIO];
                  voiceName := Some voicePersona |} |}.

(** [speakText], run with nothing else of the service running while it
    awaits the request and the decoder. *)
Definition speakText (text : string) (voicePersona : VoicePersona) : M unit :=
  stopAudio ;;
  let ai := {| apiKey := API_KEY env |} in
  try_catch
    (response <- generateContent ai (speakRequest text voicePersona) ;;
     match responseAudio response with
     | Some base64Audio =>
         if Js.truthy_string base64Audio then
           ensureAudioContext ;;
           svc <- getService ;;
           match outputNode svc with
           | None => throw (Error "TypeError")
           | Some g =>
               modifyService (withOutputNode
                 {| gainValue := volume (currentAudioSettings svc);
                    gainTarget := gainTarget g |}) ;;
               audioBuffer <- await (decodeAudioData base64Audio) ;;
               node <- createBufferSource ;;
               svc <- getService ;;
               now <- getCurrentTime ;;
               let source :=
                 {| nodeId := node; buffer := audioBuffer;
                    playbackRate := speed (currentAudioSettings svc);
                    startedAt := Some now |} in
               emit (EvSourceStart node now) ;;
               modifyService (fun s =>
                 withActiveSources (setAdd source (activeSources s)) s)
           end
         else ret tt
     | None => ret tt
     end)
    (fun err =>
       match err with
       | Error msg => emit (EvConsoleError ("TTS failed: " ++ msg)%string)
       end).

(** [speakText] between its awaits.  The call itself runs up to
    [await ai.models.generateContent(...)]: it stops the audio and hands
    the request to the SDK. *)
Definition speakText_call (text : string) (voicePersona : VoicePersona) : M unit :=
  stopAudio ;;
  let ai := {| apiKey := API_KEY env |} in
  emit (EvGenerateContent ai (speakRequest text voicePersona)).

(** Resumed when the request has settled, it runs up to
    [await decodeAudioData(...)] and yields the payload handed to the
    decoder, or runs to its end (in the [catch], or past the [if]) and
    yields nothing. *)
Definition speakText_onResponse (settled : Outcome GenerateContentResponse)
  : M (option string) :=
  try_catch
    (response <- await settled ;;
     match responseAudio response with
     | Some base64Audio =>
         if Js.truthy_string base64Audio then
           ensureAudioContext ;;
           svc <- getService ;;
           match outputNode svc with
           | None => throw (Error "TypeError")
           | Some g =>
               modifyService (withOutputNode
                 {| gainValue := volume (currentAudioSettings svc);
                    gainTarget := gainTarget g |}) ;;
               ret (Some base64Audio)
           end
         else ret None
     | None => ret None
     end)
    (fun err =>
       match err with
       | Error msg =>
           emit (EvConsoleError ("TTS failed: " ++ msg)%string) ;; ret None
       end).

(** Resumed when the decoder has settled, it runs to its end. *)
Definition speakText_onDecoded (settled : Outcome AudioBuffer) : M unit :=
  try_catch
    (audioBuffer <- await settled ;;
     node <- createBufferSource ;;
     svc <- getService ;;
     now <- getCurrentTime ;;
     let source :=
       {| nodeId := node; buffer := audioBuffer;
          playbackRate := speed (currentAudioSettings svc);
          startedAt := Some now |} in
     emit (EvSourceStart node now) ;;
     modifyService (fun s =>
       withActiveSources (setAdd source (activeSources s)) s))
    (fun err =>
       match err with
       | Error msg => emit (EvConsoleError ("TTS failed: " ++ msg)%string)
       end).

(** The rest of a call once its request has settled, the decoder
    settling before anything else runs. *)
Definition speakText_resume (settled : Outcome GenerateContentResponse) : M unit :=
  decoding <- speakText_onResponse settled ;;
  match decoding with
  | Some base64Audio => speakText_onDecoded (decodeAudioData base64Audio)
  | None => ret tt
  end.

(** The parts in a row, each resumed as soon as what it awaits has
    settled. *)
Definition speakText_uninterrupted (text : string) (voicePersona : VoicePersona)
  : M unit :=
  speakText_call text voicePersona ;;
  speakText_resume
    (backend {| apiKey := API_KEY env |} (speakRequest text voicePersona)).

(** [source.onended] / the ['ended'] listener. *)
Definition sourceEnded (node : nat) : M unit :=
  modifyService (fun s => withActiveSources (setDelete node (activeSources s)) s).

(** *** connectLive *)

Definition liveRequest (voicePersona : VoicePersona) (history : list ChatMessage)
  : LiveConnectParameters :=
  {| live_model := "gemini-2.5-flash-native-audio-preview-09-2025";
     live_responseModalities := [AUDIO];
     live_voiceName := voicePersona;
     live_functionDeclarations := systemActions;
     live_systemInstruction := buildVoiceSystemInstruction voicePersona history |}.

(** [connectLive] up to the point where it returns the handle (or
    [null]); [mic] is how [getUserMedia] settles. *)
Definition connectLive
    (voicePersona : VoicePersona) (history : list ChatMessage)
    (mic : Outcome unit) : M (option LiveHandle) :=
  let apiKey := API_KEY env in
  if negb (Js.truthy_string apiKey) then
    emit (EvConsoleError "GEMINI_API_KEY is not configured") ;;
    emit (EvOnError "API_KEY_MISSING") ;;
    ret None
  else
    let ai := {| apiKey := apiKey |} in
    ensureAudioContext ;;
    svc <- getService ;;
    now <- getCurrentTime ;;
    match outputNode svc with
    | None => throw (Error "TypeError")
    | Some g =>
        modifyService (withOutputNode
          {| gainValue := gainValue g;
             gainTarget :=
               Some {| target := volume (currentAudioSettings svc);
                       targetStart := now; timeConstant := 1 # 10 |} |}) ;;
        emit EvGetUserMedia ;;
        stream <- try_catch
          (await mic ;; ret true)
          (fun e =>
             emit (EvConsoleError "Microphone access denied:") ;;
             emit (EvOnError "MIC_ACCESS_DENIED") ;;
             ret false) ;;
        if stream : bool then
          modifyLive (fun _ =>
            {| currentInputText := ""; currentOutputText := "";
               activeSession := None; scriptProcessor := false;
               streamLive := true; inputAudioContextOpen := true |}) ;;
          emit (EvLiveConnect ai (liveRequest voicePersona history)) ;;
          ret (Some liveHandle)
        else ret None
    end.

Definition setActiveSession (o : option Session) (l : LiveClosure) : LiveClosure :=
  {| currentInputText := currentInputText l;
     currentOutputText := currentOutputText l;
     activeSession := o; scriptProcessor := scriptProcessor l;
     streamLive := streamLive l;
     inputAudioContextOpen := inputAudioContextOpen l |}.

Definition setScriptProcessor (b : bool) (l : LiveClosure) : LiveClosure :=
  {| currentInputText := currentInputText l;
     currentOutputText := currentOutputText l;
     activeSession := activeSession l; scriptProcessor := b;
     streamLive := streamLive l;
     inputAudioContextOpen := inputAudioContextOpen l |}.

Definition setInputText (t : string) (l : LiveClosure) : LiveClosure :=
  {| currentInputText := t;
     currentOutputText := currentOutputText l;
     activeSession := activeSession l; scriptProcessor := scriptProcessor l;
     streamLive := streamLive l;
     inputAudioContextOpen := inputAudioContextOpen l |}.

Definition setOutputText (t : string) (l : LiveClosure) : LiveClosure :=
  {| currentInputText := currentInputText l;
     currentOutputText := t;
     activeSession := activeSession l; scriptProcessor := scriptProcessor l;
     streamLive := streamLive l;
     inputAudioContextOpen := inputAudioContextOpen l |}.

(** [callbacks.onopen]; [established] is how [sessionPromise] settles. *)
Definition onopen (established : Outcome Session) : M unit :=
  ok <- try_catch
    (s <- await established ;;
     modifyLive (setActiveSession (Some s)) ;;
     ret true)
    (fun err =>
       emit (EvConsoleError "Failed to establish session:") ;;
       match err with Error msg => emit (EvOnError msg) end ;;
       ret false) ;;
  when ok (modifyLive (setScriptProcessor true)).

(** [scriptProcessor.onaudioprocess]. *)
Definition onaudioprocess : M unit :=
  lv <- getLive ;;
  match activeSession lv with
  | Some s => try_catch (sendRealtimeInput s) (fun _ => ret tt)
  | None => ret tt
  end.

(** The body of the [for (const fc of ...)] loop. *)
Definition handleFunctionCall (h : ToolHandler) (fc : FunctionCall) : M unit :=
  result <- callToolHandler h (fc_name fc) (fc_args fc) ;;
  lv <- getLive ;;
  match activeSession lv with
  | Some s =>
      try_catch
        (sendToolResponse s
           {| fr_id := fc_id fc; fr_name := fc_name fc;
              fr_result := Js.or result (Js.Str "OK") |})
        (fun _ => ret tt)
  | None => ret tt
  end.

(** [if (message.toolCall && callbacks.onToolCall) { for ... }] *)
Definition handleToolCalls (onToolCall : option ToolHandler) (message : LiveServerMessage)
  : M unit :=
  match toolCall message, onToolCall with
  | Some tc, Some h =>
      match functionCalls tc with
      | Some fcs => forEach (handleFunctionCall h) fcs
      | None => throw (Error "TypeError")
      end
  | _, _ => ret tt
  end.

(** [message.serverContent?.modelTurn?.parts?.[0]?.inlineData?.data] *)
Definition messageAudio (message : LiveServerMessage) : option string :=
  Js.chain (Js.chain (Js.chain (Js.chain (Js.chain
    (serverContent message) modelTurn) parts) Js.first) inlineData) data.

(** The part of the handler before [await decodeAudioData].  (The
    numbers of lines 330 and 343 as the code computes them are
    [Doubles.raisedCursor] and [Doubles.advancedCursor].) *)
Definition raiseCursor : M unit :=
  now <- getCurrentTime ;;
  modifyService (fun s => withNextStartTime (Qmax (nextStartTime s) now) s).

(** The part of the handler after [await decodeAudioData]. *)
Definition scheduleBuffer (audioBuffer : AudioBuffer) : M unit :=
  node <- createBufferSource ;;
  svc <- getService ;;
  let source :=
    {| nodeId := node; buffer := audioBuffer;
       playbackRate := speed (currentAudioSettings svc);
       startedAt := Some (nextStartTime svc) |} in
  emit (EvSourceStart node (nextStartTime svc)) ;;
  modifyService (fun s =>
    withNextStartTime
      (nextStartTime s + duration audioBuffer / speed (currentAudioSettings s)) s) ;;
  modifyService (fun s => withActiveSources (setAdd source (activeSources s)) s).

(** [if (base64Audio && this.audioContext && this.outputNode) { ... }] *)
Definition playChunk (base64Audio : option string) : M unit :=
  svc <- getService ;;
  match base64Audio, audioContext svc, outputNode svc with
  | Some b, Some _, Some _ =>
      if Js.truthy_string b then
        raiseCursor ;;
        audioBuffer <- await (decodeAudioData b) ;;
        scheduleBuffer audioBuffer
      else ret tt
  | _, _, _ => ret tt
  end.

Definition handleTranscriptions (message : LiveServerMessage) : M unit :=
  match Js.chain (serverContent message) inputTranscription with
  | Some t =>
      lv <- getLive ;;
      let s := appendText (currentInputText lv) (transcription_text t) in
      modifyLive (setInputText s) ;;
      emit (EvOnTranscription s true)
  | None => ret tt
  end ;;
  match Js.chain (serverContent message) outputTranscription with
  | Some t =>
      lv <- getLive ;;
      let s := appendText (currentOutputText lv) (transcription_text t) in
      modifyLive (setOutputText s) ;;
      emit (EvOnTranscription s false)
  | None => ret tt
  end.

Definition flag (o : option bool) : bool :=
  match o with Some b => b | None => false end.

Definition handleTurnComplete (message : LiveServerMessage) : M unit :=
  when (flag (option_map turnComplete (serverContent message)))
    (lv <- getLive ;;
     emit (EvOnTurnComplete (currentInputText lv) (currentOutputText lv)) ;;
     modifyLive (setInputText "") ;;
     modifyLive (setOutputText "")).

Definition handleInterrupted (message : LiveServerMessage) : M unit :=
  when (flag (option_map interrupted (serverContent message))) stopAudio.

(** [callbacks.onmessage]. *)
Definition onmessage (onToolCall : option ToolHandler) (message : LiveServerMessage)
  : M unit :=
  handleToolCalls onToolCall message ;;
  playChunk (messageAudio message) ;;
  handleTranscriptions message ;;
  handleTurnComplete message ;;
  handleInterrupted message.

(** [callbacks.onerror] and [callbacks.onclose]. *)
Definition onerror (err : JsError) : M unit :=
  match err with Error msg => emit (EvOnError msg) end.

Definition onclose : M unit :=
  modifyLive (setActiveSession None).

(** The [stop] of the handle that [connectLive] returns. *)
Definition liveStop : M unit :=
  modifyLive (setActiveSession None) ;;
  lv <- getLive ;;
  when (scriptProcessor lv) (modifyLive (setScriptProcessor false)) ;;
  modifyLive (fun l =>
    {| currentInputText := currentInputText l;
       currentOutputText := currentOutputText l;
       activeSession := activeSession l; scriptProcessor := scriptProcessor l;
       streamLive := false; inputAudioContextOpen := false |}) ;;
  stopAudio.

End Service.

(** ** The service as a state machine

    One step is one call of a public method or one callback that the
    transport or the audio subsystem fires, run to completion; [OpClock]
    is the audio clock advancing on its own. *)

Inductive Op : Type :=
| OpSetAudioSettings (settings : AudioSettings)
| OpSendChatMessage (text : string) (model : ModelType)
                    (history : list ChatMessage) (persona : VoicePersona)
| OpSpeakText (text : string) (voicePersona : VoicePersona)
| OpConnectLive (voicePersona : VoicePersona) (history : list ChatMessage)
                (mic : Outcome unit)
| OpOnOpen (established : Outcome Session)
| OpOnAudioProcess
| OpOnMessage (onToolCall : option ToolHandler) (message : LiveServerMessage)
| OpOnError (err : JsError)
| OpOnClose
| OpLiveStop
| OpStopAudio
| OpSourceEnded (node : nat)
| OpClock (dt : Q).

Definition discard {A : Type} (m : M A) : M unit :=
  bind m (fun _ => ret tt).

Definition clockAdvance (dt : Q) : M unit :=
  fun w =>
    (Resolved tt,
     {| service := service w; live := live w;
        currentTime := currentTime w + dt; nextNodeId := nextNodeId w |},
     []).

Definition clockReads (t : Q) : M unit :=
  fun w =>
    (Resolved tt,
     {| service := service w; live := live w;
        currentTime := t; nextNodeId := nextNodeId w |},
     []).

Section Machine.

Variable env : ProcessEnv.
Variable backend :
  GoogleGenAI -> GenerateContentParameters -> Outcome GenerateContentResponse.
Variable decodeAudioData : string -> Outcome AudioBuffer.

Definition perform (op : Op) : M unit :=
  match op with
  | OpSetAudioSettings settings => setAudioSettings settings
  | OpSendChatMessage text model history persona =>
      discard (sendChatMessage env backend text model history persona)
  | OpSpeakText text voicePersona =>
      speakText env backend decodeAudioData text voicePersona
  | OpConnectLive voicePersona history mic =>
      discard (connectLive env voicePersona history mic)
  | OpOnOpen established => onopen established
  | OpOnAudioProcess => onaudioprocess
  | OpOnMessage onToolCall message =>
      onmessage decodeAudioData onToolCall message
  | OpOnError err => onerror err
  | OpOnClose => onclose
  | OpLiveStop => liveStop
  | OpStopAudio => stopAudio
  | OpSourceEnded node => sourceEnded node
  | OpClock dt => clockAdvance dt
  end.

Definition step (w : World) (op : Op) : World := worldOf (perform op w).

Definition run (w : World) (ops : list Op) : World := fold_left step ops w.

End Machine.

(** The operations that call [stopAudio]: the public [stopAudio], the
    [stop] of a live handle, [speakText] (which interrupts first) and a
    message that carries the interruption signal. *)
Definition forciblyStops (op : Op) : bool :=
  match op with
  | OpStopAudio | OpLiveStop | OpSpeakText _ _ => true
  | OpOnMessage _ message =>
      flag (option_map interrupted (serverContent message))
  | _ => false
  end.

(** ** Vocabulary of the statements *)

Definition cursor (w : World) : Q := nextStartTime (service w).

Definition tracked (w : World) : list AudioBufferSourceNode :=
  activeSources (service w).

Definition currentSpeed (w : World) : Q :=
  speed (currentAudioSettings (service w)).

(** The [stop()] calls that go through when every source of [l] is
    stopped in turn. *)
Definition stopEvents (l : list AudioBufferSourceNode) : list Event :=
  flat_map
    (fun s => match startedAt s with
              | Some _ => [EvSourceStop (nodeId s)]
              | None => []
              end) l.

(** The times passed to [source.start], in order. *)
Definition startTimes (l : list Event) : list Q :=
  flat_map (fun e => match e with EvSourceStart _ t => [t] | _ => [] end) l.

Definition toolResponses (l : list Event) : list FunctionResponse :=
  flat_map (fun e => match e with EvSendToolResponse r => [r] | _ => [] end) l.

Definition networkCalls (l : list Event) : list Event :=
  List.filter isNetworkCall l.

Definition consoleErrors (l : list Event) : list string :=
  flat_map (fun e => match e with EvConsoleError m => [m] | _ => [] end) l.

(** What the claim about tool calls expects of one call whose handler
    settled with [r]. *)
Definition toolCallExchange (fc : FunctionCall) (r : Js.value) : list Event :=
  [EvOnToolCall (fc_name fc) (fc_args fc) (Resolved r);
   EvSendToolResponse
     {| fr_id := fc_id fc; fr_name := fc_name fc;
        fr_result := if Js.truthy r then r else Js.Str "OK" |}].

(** A handler that leaves the playback schedule alone: whatever it does
    through [stopAudio] or [speakText] is an operation of its own. *)
Definition keepsSchedule (h : ToolHandler) : Prop :=
  forall name args w,
    let w1 := snd (h name args w) in
    cursor w1 = cursor w /\
    tracked w1 = tracked w /\
    (0 < currentSpeed w -> 0 < currentSpeed w1).

Definition admissible (op : Op) : Prop :=
  match op with
  | OpSetAudioSettings settings => 0 < speed settings
  | OpOnMessage (Some h) _ => keepsSchedule h
  | _ => True
  end.

(** Deduplication as the specification words it: walk the list, keep an
    entry when its uri has not been seen yet. *)
Fixpoint firstSeen (seen : list string) (l : list GroundingSource)
  : list GroundingSource :=
  match l with
  | [] => []
  | x :: r =>
      if existsb (String.eqb (uri x)) seen then firstSeen seen r
      else x :: firstSeen (uri x :: seen) r
  end.

(** [sub] keeps some entries of [l], in the order of [l]. *)
Inductive Subsequence {A : Type} : list A -> list A -> Prop :=
| sub_nil : Subsequence [] []
| sub_skip x sub l : Subsequence sub l -> Subsequence sub (x :: l)
| sub_keep x sub l : Subsequence sub l -> Subsequence (x :: sub) (x :: l).

(** Does [s] begin with [p]; does [p] occur in [s]. *)
Fixpoint startsWith (p s : string) : bool :=
  match p, s with
  | EmptyString, _ => true
  | String a p1, String b s1 => Ascii.eqb a b && startsWith p1 s1
  | String _ _, EmptyString => false
  end.

Fixpoint occursIn (p s : string) : bool :=
  startsWith p s ||
  match s with
  | EmptyString => false
  | String _ s1 => occursIn p s1
  end.

(** The key that [sendChatMessage] resolves and the request it builds. *)
Definition resolvedKey (env : ProcessEnv) : string :=
  Js.or_string (API_KEY env) (GEMINI_API_KEY env).

Definition chatRequest (text : string) (model : ModelType)
    (history : list ChatMessage) (persona : VoicePersona)
  : GenerateContentParameters :=
  {| model := modelName model;
     contents := conversationContents text history;
     config :=
       {| systemInstruction :=
            Some (PERSONA_PERSONALITIES persona ++ nl ++ nl ++ BASE_INSTRUCTION)%string;
          googleSearch := true;
          responseModalities := [];
          voiceName := None |} |}.

(** [response.candidates?.[0]?.groundingMetadata?.groundingChunks] *)
Definition responseChunks (response : GenerateContentResponse)
  : option (list GroundingChunk) :=
  Js.chain (Js.chain (Js.chain (candidates response) Js.first)
              groundingMetadata) groundingChunks.

(** The world once every source has been stopped and discarded. *)
Definition silenced (w : World) : World :=
  {| service := withNextStartTime 0 (withActiveSources [] (service w));
     live := live w; currentTime := currentTime w; nextNodeId := nextNodeId w |}.

(** [audioContext] and [outputNode] are created together. *)
Definition contextPaired (w : World) : Prop :=
  audioContext (service w) = None <-> outputNode (service w) = None.

(** The source that [speakText] starts for [buf] in the world [w]. *)
Definition utterance (w : World) (buf : AudioBuffer) : AudioBufferSourceNode :=
  {| nodeId := nextNodeId w; buffer := buf;
     playbackRate := currentSpeed w; startedAt := Some (currentTime w) |}.

(** The output context exists, as it does once [connectLive] has run. *)
Definition ready (w : World) : Prop :=
  audioContext (service w) <> None /\ outputNode (service w) <> None.

(** Relations between the world before and after a computation, for a
    world whose playback speed is positive. *)
Definition keepsPlayback (w w1 : World) : Prop :=
  0 < currentSpeed w ->
  0 < currentSpeed w1 /\ cursor w1 = cursor w /\ tracked w1 = tracked w.

Definition extendsPlayback (w w1 : World) : Prop :=
  0 < currentSpeed w ->
  0 < currentSpeed w1 /\ cursor w <= cursor w1 /\ incl (tracked w) (tracked w1).

Definition advancesCursor (w w1 : World) : Prop :=
  0 < currentSpeed w ->
  0 < currentSpeed w1 /\ cursor w <= cursor w1.

(** Every run of [m] relates the world it starts in to the world it
    leaves, whether it resolves or rejects. *)
Definition Respects {A : Type} (R : World -> World -> Prop) (m : M A) : Prop :=
  forall w, R w (worldOf (m w)).

(** Every source of [l] that has been started is stopped in [events]. *)
Definition allStopped (l : list AudioBufferSourceNode) (events : list Event) : Prop :=
  forall s, In s l -> startedAt s <> None -> In (EvSourceStop (nodeId s)) events.

(** A computation that finishes by stopping everything: when it resolves
    the cursor is 0 and every source tracked at the start was stopped;
    when it rejects, it did so before the stop and the cursor has not
    moved back. *)
Definition EndsWithStop (m : M unit) : Prop :=
  forall w,
    0 < currentSpeed w ->
    0 < currentSpeed (worldOf (m w))
    /\ (outcomeOf (m w) = Resolved tt ->
        cursor (worldOf (m w)) = 0 /\ allStopped (tracked w) (eventsOf (m w)))
    /\ (outcomeOf (m w) <> Resolved tt -> cursor w <= cursor (worldOf (m w))).

(** The session is active and its connection is open. *)
Definition sessionLive (w : World) : Prop :=
  exists s, activeSession (live w) = Some s /\ socketOpen s = true.

(** The events of a tool-call message when call [i] settles with the
    [i]-th value of [results]. *)
Definition exchanges (fcs : list FunctionCall) (results : list Js.value) : list Event :=
  List.concat (map (fun p => toolCallExchange (fst p) (snd p)) (combine fcs results)).

(** The response [result || "OK"] for a call. *)
Definition responseFor (fc : FunctionCall) (r : Js.value) : FunctionResponse :=
  {| fr_id := fc_id fc; fr_name := fc_name fc;
     fr_result := if Js.truthy r then r else Js.Str "OK" |}.

Definition toolCallsOf (fcs : list FunctionCall) : LiveServerMessage :=
  {| toolCall := Some {| functionCalls := Some fcs |}; serverContent := None |}.


(** ** Concrete inputs *)

Definition envUnset : ProcessEnv := {| API_KEY := ""; GEMINI_API_KEY := "" |}.
Definition envSecondOnly : ProcessEnv := {| API_KEY := ""; GEMINI_API_KEY := "k2" |}.
Definition envBoth : ProcessEnv := {| API_KEY := "k1"; GEMINI_API_KEY := "k2" |}.

Definition webChunk (t u : string) : GroundingChunk :=
  {| web := Some {| web_uri := Some u; web_title := Some t |} |}.

Definition groundedResponse (t : option string) (chunks : list GroundingChunk)
  : GenerateContentResponse :=
  {| response_text := t;
     candidates :=
       Some [{| candidate_content := None;
                groundingMetadata :=
                  Some {| groundingChunks := Some chunks |} |}] |}.

(** The reply with sources [{A,u1},{B,u1},{C,u2}] and an empty text. *)
Definition duplicateReply : GenerateContentResponse :=
  groundedResponse (Some "") [webChunk "A" "u1"; webChunk "B" "u1"; webChunk "C" "u2"].

Definition backendReplies (r : GenerateContentResponse)
  : GoogleGenAI -> GenerateContentParameters -> Outcome GenerateContentResponse :=
  fun _ _ => Resolved r.

Definition backendFails (m : string)
  : GoogleGenAI -> GenerateContentParameters -> Outcome GenerateContentResponse :=
  fun _ _ => Rejected (Error m).

Definition audioResponse (b : string) : GenerateContentResponse :=
  {| response_text := None;
     candidates :=
       Some [{| candidate_content :=
                  Some {| content_role := Some "model";
                          parts := Some [{| part_text := None;
                                            inlineData := Some {| data := Some b |} |}] |};
                groundingMetadata := None |}] |}.

(** A decoder for which a payload of [n] characters lasts [n] seconds. *)
Definition decodeByLength (b : string) : Outcome AudioBuffer :=
  Resolved {| duration := inject_Z (Z.of_nat (String.length b)) |}.

Definition userMessage (n : string) : ChatMessage :=
  {| id := n; role := USER; content := n; timestamp := 0;
     isVoice := None; sources := None |}.

Definition systemMessage (n : string) : ChatMessage :=
  {| id := n; role := SYSTEM; content := n; timestamp := 0;
     isVoice := None; sources := None |}.

Definition assistantMessage (n : string) : ChatMessage :=
  {| id := n; role := ASSISTANT; content := n; timestamp := 0;
     isVoice := None; sources := None |}.

Definition fifteenMessages : list ChatMessage :=
  map userMessage
    ["m1"; "m2"; "m3"; "m4"; "m5"; "m6"; "m7"; "m8"; "m9"; "m10";
     "m11"; "m12"; "m13"; "m14"; "m15"].

(** A world in which [connectLive] has created the output context and the
    session is established. *)
Definition readyService : GeminiService :=
  {| audioContext := Some {| sampleRate := 24000 |};
     outputNode := Some {| gainValue := 1; gainTarget := None |};
     nextStartTime := 0;
     activeSources := [];
     currentAudioSettings := {| volume := 8 # 10; speed := 2 |} |}.

Definition readyWorld : World :=
  {| service := readyService;
     live := {| currentInputText := ""; currentOutputText := "";
                activeSession := Some {| socketOpen := true |};
                scriptProcessor := true; streamLive := true;
                inputAudioContextOpen := true |};
     currentTime := 5; nextNodeId := 0%nat |}.

(** The same world once the session has been torn down. *)
Definition stoppedWorld : World :=
  {| service := readyService; live := noLive;
     currentTime := 5; nextNodeId := 0%nat |}.

(** A world with two sources playing and the cursor ahead of the clock. *)
Definition busyWorld : World :=
  {| service :=
       {| audioContext := Some {| sampleRate := 24000 |};
          outputNode := Some {| gainValue := 1; gainTarget := None |};
          nextStartTime := 9;
          activeSources :=
            [{| nodeId := 0%nat; buffer := {| duration := 2 |};
                playbackRate := 1; startedAt := Some 5 |};
             {| nodeId := 1%nat; buffer := {| duration := 2 |};
                playbackRate := 1; startedAt := Some 7 |}];
          currentAudioSettings := {| volume := 8 # 10; speed := 1 |} |};
     live := noLive; currentTime := 6; nextNodeId := 2%nat |}.

(** Handlers that settle with a fixed value and touch nothing. *)
Definition handlerReturns (v : Js.value) : ToolHandler :=
  fun _ _ w => (Resolved v, w).

Definition setVolumeCall : FunctionCall :=
  {| fc_id := "call-1"; fc_name := "set_volume"; fc_args := Js.Object "{level: 50}" |}.

Definition clearChatCall : FunctionCall :=
  {| fc_id := "call-2"; fc_name := "clear_chat"; fc_args := Js.Object "{}" |}.

Definition stoppedWorld' (t : Q) (n : nat) : World :=
  {| service := readyService; live := noLive; currentTime := t; nextNodeId := n |}.

(** A message that carries the chunk [b] and nothing else. *)
Definition chunkMessage (b : string) : LiveServerMessage :=
  {| toolCall := None;
     serverContent :=
       Some {| modelTurn :=
                 Some {| content_role := Some "model";
                         parts := Some [{| part_text := None;
                                           inlineData := Some {| data := Some b |} |}] |};
               inputTranscription := None; outputTranscription := None;
               turnComplete := false; interrupted := false |} |}.

(** ** Further vocabulary: the state the service keeps *)

(** The tracked sources are distinct objects that the service created
    and started. *)
Definition sourcesFresh (w : World) : Prop :=
  NoDup (map nodeId (tracked w))
  /\ Forall (fun s => (nodeId s < nextNodeId w)%nat /\ startedAt s <> None)
            (tracked w).

Definition wellFormed (w : World) : Prop :=
  contextPaired w /\ 0 < currentSpeed w /\ 0 <= cursor w /\ sourcesFresh w.

Definition keepsWellFormed (w w1 : World) : Prop :=
  wellFormed w -> wellFormed w1.

(** A handler that, like every public method, takes well-formed worlds
    to well-formed worlds. *)
Definition preservesWellFormed (h : ToolHandler) : Prop :=
  forall name args w, wellFormed w -> wellFormed (snd (h name args w)).

Definition wellBehaved (op : Op) : Prop :=
  match op with
  | OpSetAudioSettings settings => 0 < speed settings
  | OpOnMessage (Some h) _ => preservesWellFormed h
  | _ => True
  end.

(** The text that a transcription event adds to its buffer. *)
Definition fragment (t : option Transcription) : string :=
  match t with
  | Some t => appendText "" (transcription_text t)
  | None => ""
  end.

Definition inputFragment (m : LiveServerMessage) : string :=
  fragment (Js.chain (serverContent m) inputTranscription).

Definition outputFragment (m : LiveServerMessage) : string :=
  fragment (Js.chain (serverContent m) outputTranscription).

(** A message that carries transcriptions (and possibly the end of the
    turn) and nothing else. *)
Definition textOnly (m : LiveServerMessage) : Prop :=
  toolCall m = None
  /\ messageAudio m = None
  /\ flag (option_map interrupted (serverContent m)) = false.

Definition endsTurn (m : LiveServerMessage) : bool :=
  flag (option_map turnComplete (serverContent m)).

(** The [onTranscription] callbacks of one message, from the buffers
    [i] and [o]. *)
Definition transcriptionEvents (i o : string) (m : LiveServerMessage) : list Event :=
  match Js.chain (serverContent m) inputTranscription with
  | Some _ => [EvOnTranscription (i ++ inputFragment m)%string true]
  | None => []
  end ++
  match Js.chain (serverContent m) outputTranscription with
  | Some _ => [EvOnTranscription (o ++ outputFragment m)%string false]
  | None => []
  end.

Definition withBuffers (i o : string) (w : World) : World :=
  {| service := service w;
     live := setOutputText o (setInputText i (live w));
     currentTime := currentTime w; nextNodeId := nextNodeId w |}.

(** ** vite.config.ts

    The characters of a file are the code units below 256, so the line
    terminators are LF and CR and the white space that [trim] removes is
    TAB, LF, VT, FF, CR, SPACE and NBSP. *)

Module Vite.

Definition isLineTerminator (c : ascii) : bool :=
  let n := nat_of_ascii c in (n =? 10)%nat || (n =? 13)%nat.

Definition isWhiteSpace (c : ascii) : bool :=
  let n := nat_of_ascii c in
  (n =? 9)%nat || (n =? 10)%nat || (n =? 11)%nat || (n =? 12)%nat
  || (n =? 13)%nat || (n =? 32)%nat || (n =? 160)%nat.

(** The longest prefix without a line terminator: what [.+] takes. *)
Fixpoint takeLine (s : string) : string :=
  match s with
  | EmptyString => EmptyString
  | String c r => if isLineTerminator c then EmptyString else String c (takeLine r)
  end.

(** [s] without its prefix [p], when it begins with [p]. *)
Fixpoint stripPrefix (p s : string) : option string :=
  match p, s with
  | EmptyString, _ => Some s
  | String a p1, String b s1 => if Ascii.eqb a b then stripPrefix p1 s1 else None
  | String _ _, EmptyString => None
  end.

(** The attempt of [/GEMINI_API_KEY=(.+)/] at the start of [s]. *)
Definition matchHere (s : string) : option string :=
  match stripPrefix "GEMINI_API_KEY=" s with
  | Some rest =>
      match takeLine rest with
      | EmptyString => None
      | String c r => Some (String c r)
      end
  | None => None
  end.

(** [envContent.match(/GEMINI_API_KEY=(.+)/)]: group 1 of the leftmost
    match. *)
Fixpoint matchKey (s : string) : option string :=
  match matchHere s with
  | Some captured => Some captured
  | None =>
      match s with
      | EmptyString => None
      | String _ r => matchKey r
      end
  end.

Fixpoint trimStart (s : string) : string :=
  match s with
  | EmptyString => EmptyString
  | String c r => if isWhiteSpace c then trimStart r else s
  end.

Fixpoint trimEnd (s : string) : string :=
  match s with
  | EmptyString => EmptyString
  | String c r =>
      match trimEnd r with
      | EmptyString => if isWhiteSpace c then EmptyString else String c EmptyString
      | String d t => String c (String d t)
      end
  end.

(** [String.prototype.trim]. *)
Definition trim (s : string) : string := trimEnd (trimStart s).

(** What the configuration reads: the contents of [.env.local] when the
    file exists, and [GEMINI_API_KEY] of [loadEnv(mode, cwd, '')]. *)
Record Inputs : Type := mkInputs {
  envLocal : option string;
  loadedKey : option string
}.

Definition fromEnvLocal (i : Inputs) : string :=
  match envLocal i with
  | Some envContent =>
      match matchKey envContent with
      | Some captured => trim captured
      | None => ""
      end
  | None => ""
  end.

Definition apiKey (i : Inputs) : string :=
  let apiKey := fromEnvLocal i in
  if negb (Js.truthy_string apiKey) then Js.or_default (loadedKey i) ""
  else apiKey.

(** The [define] entries, as the values the bundle sees. *)
Definition define (i : Inputs) : ProcessEnv :=
  {| API_KEY := apiKey i; GEMINI_API_KEY := apiKey i |}.

Definition noWhiteSpaceAtEnds (s : string) : Prop :=
  match s with
  | EmptyString => True
  | String c _ => isWhiteSpace c = false
  end
  /\ trimEnd s = s.

Fixpoint noLineBreak (s : string) : bool :=
  match s with
  | EmptyString => true
  | String c r => negb (isLineTerminator c) && noLineBreak r
  end.

(** The character [c] does not occur in [s]. *)
Fixpoint lacks (c : ascii) (s : string) : bool :=
  match s with
  | EmptyString => true
  | String d r => negb (Ascii.eqb c d) && lacks c r
  end.

(** [s] is empty or begins with a line terminator. *)
Definition endsLine (s : string) : bool :=
  match s with
  | EmptyString => true
  | String c _ => isLineTerminator c
  end.

End Vite.

(** ** components/Visualizer.tsx: the geometry of one frame

    [sine] stands for [Math.sin(frames * 0.2 + i * 0.8)] and [random] for
    [Math.random()]. *)

Module Visualizer.

Definition bars : Z := 20.
Definition barWidth : Q := 2.
Definition gap : Q := 2.
Definition canvasWidth : Q := 100.
Definition canvasHeight : Q := 32.

Definition barHeight (isActive : bool) (sine random : Q) : Q :=
  let baseHeight := if isActive then 8 else 2 in
  let variance := if isActive then sine * 14 + random * 6 else 0 in
  Qmax 2 (baseHeight + variance).

Definition barX (i : Z) : Q := inject_Z i * (barWidth + gap).

Definition barY (height : Q) : Q := (canvasHeight - height) / 2.

End Visualizer.

(** More concrete inputs. *)

Definition transcriptMessage (i o : option string) (complete : bool) : LiveServerMessage :=
  {| toolCall := None;
     serverContent :=
       Some {| modelTurn := None;
               inputTranscription :=
                 option_map (fun t => {| transcription_text := Some t |}) i;
               outputTranscription :=
                 option_map (fun t => {| transcription_text := Some t |}) o;
               turnComplete := complete; interrupted := false |} |}.

Definition interruptedChunk (b : string) : LiveServerMessage :=
  {| toolCall := None;
     serverContent :=
       Some {| modelTurn :=
                 Some {| content_role := Some "model";
                         parts := Some [{| part_text := None;
                                           inlineData := Some {| data := Some b |} |}] |};
               inputTranscription := None; outputTranscription := None;
               turnComplete := false; interrupted := true |} |}.

Definition handlerRejects (m : string) : ToolHandler :=
  fun _ _ w => (Rejected (Error m), w).

(** The world that the [stop] of a live handle leaves. *)
Definition torndown (w : World) : World :=
  {| service := withNextStartTime 0 (withActiveSources [] (service w));
     live := {| currentInputText := currentInputText (live w);
                currentOutputText := currentOutputText (live w);
                activeSession := None; scriptProcessor := false;
                streamLive := false; inputAudioContextOpen := false |};
     currentTime := currentTime w; nextNodeId := nextNodeId w |}.

(** The source that the live handler creates for [buf] in the world [w]. *)
Definition liveSource (w : World) (buf : AudioBuffer) : AudioBufferSourceNode :=
  {| nodeId := nextNodeId w; buffer := buf;
     playbackRate := currentSpeed w; startedAt := Some (cursor w) |}.

(** All the fragments of a turn, one after the other. *)
Definition joined (l : list string) : string :=
  fold_right String.append "" l.

(** The [onTranscription] callbacks of a run of messages, from the
    buffers [i] and [o]. *)
Fixpoint turnEvents (i o : string) (ms : list LiveServerMessage) : list Event :=
  match ms with
  | [] => []
  | m :: rest =>
      transcriptionEvents i o m
        ++ turnEvents (i ++ inputFragment m)%string (o ++ outputFragment m)%string rest
  end.

(** The world after the live handler has scheduled [buf]. *)
Definition scheduled (w : World) (buf : AudioBuffer) : World :=
  let start := Qmax (cursor w) (currentTime w) in
  {| service :=
       withActiveSources
         (setAdd {| nodeId := nextNodeId w; buffer := buf;
                    playbackRate := currentSpeed w; startedAt := Some start |}
                 (tracked w))
         (withNextStartTime (start + duration buf / currentSpeed w) (service w));
     live := live w; currentTime := currentTime w;
     nextNodeId := S (nextNodeId w) |}.

(** ** The playback cursor in the code's arithmetic

    JavaScript numbers are IEEE 754 binary64 values, and so are Rocq's
    primitive floats, with the same rounding (to nearest, ties to even).
    This module is lines 330, 342 and 343 of [onmessage] on those
    values: what is passed to [source.start] and what the cursor
    becomes, chunk after chunk. *)

Module Doubles.

Local Open Scope float_scope.

(** [Math.max(a, b)]: NaN when either argument is NaN, the larger one
    otherwise, +0 being larger than -0. *)
Definition Math_max (a b : float) : float :=
  if is_nan a || is_nan b then nan
  else if b <? a then a
  else if a <? b then b
  else if get_sign a then b else a.

(** Line 330:
    [Math.max(this.nextStartTime, this.audioContext.currentTime)]. *)
Definition raisedCursor (nextStartTime currentTime : float) : float :=
  Math_max nextStartTime currentTime.

(** Line 343:
    [this.nextStartTime += audioBuffer.duration / this.currentAudioSettings.speed]. *)
Definition advancedCursor (nextStartTime duration speed : float) : float :=
  nextStartTime + duration / speed.

(** Lines 342 and 343, once the buffer has been decoded: the argument of
    [source.start] is the cursor as it then is, and the cursor is
    advanced. *)
Definition startAndAdvance (speed nextStartTime duration : float) : float * float :=
  (nextStartTime, advancedCursor nextStartTime duration speed).

(** One chunk is the pair of what [audioContext.currentTime] reads when
    its message is handled and the [duration] of the buffer decoded from
    it.  Lines 330 to 343 for one chunk, nothing else touching the
    cursor while it is decoded: the argument of [source.start] and the
    cursor afterwards. *)
Definition scheduleChunk (speed nextStartTime : float) (chunk : float * float)
  : float * float :=
  startAndAdvance speed (raisedCursor nextStartTime (fst chunk)) (snd chunk).

(** The arguments of the successive calls of [source.start] for the
    chunks of a turn, handled one after the other. *)
Fixpoint startArguments (speed nextStartTime : float) (chunks : list (float * float))
  : list float :=
  match chunks with
  | [] => []
  | chunk :: rest =>
      fst (scheduleChunk speed nextStartTime chunk)
        :: startArguments speed (snd (scheduleChunk speed nextStartTime chunk)) rest
  end.

(** The cursor once they have all been handled. *)
Fixpoint cursorAfter (speed nextStartTime : float) (chunks : list (float * float))
  : float :=
  match chunks with
  | [] => nextStartTime
  | chunk :: rest =>
      cursorAfter speed (snd (scheduleChunk speed nextStartTime chunk)) rest
  end.

(** The rational that a finite double stands for. *)
Definition exactly (x : float) : option Q :=
  match Prim2SF x with
  | S754_zero _ => Some 0%Q
  | S754_finite s m e =>
      let n := if s then Z.neg m else Z.pos m in
      Some (if (0 <=? e)%Z then inject_Z (n * 2 ^ e)
            else Qmake n (Z.to_pos (2 ^ (- e))))
  | S754_infinity _ | S754_nan => None
  end.

End Doubles.

(** ** Vocabulary for the rounding of doubles

    [SpecFloat] specifies the operations of the primitive floats; these
    definitions name what its rounding ends with and the order that its
    comparison decides. *)

(** The mantissa and the exponent that [binary_round_aux] ends with,
    from an exact mantissa. *)
Definition rounded (prec emax m e : Z) : Z * Z :=
  let '(mrs', e') := shr_fexp prec emax m e loc_Exact in
  let '(mrs'', e'') :=
    shr_fexp prec emax
      (round_nearest_even (shr_m mrs') (loc_of_shr_record mrs')) e' loc_Exact in
  (shr_m mrs'', e'').

(** The float that it makes of them. *)
Definition packed (prec emax : Z) (sx : bool) (me : Z * Z) : spec_float :=
  match fst me with
  | Z0 => S754_zero sx
  | Z.pos p =>
      if (snd me <=? emax - prec)%Z then S754_finite sx p (snd me)
      else S754_infinity sx
  | Z.neg _ => S754_nan
  end.

(** The order of [SFcompare] as an order on triples. *)
Definition rank (x : spec_float) : Z * (Z * Z) :=
  match x with
  | S754_zero _ => (0, (0, 0))%Z
  | S754_infinity false => (2, (0, 0))%Z
  | S754_infinity true => (-2, (0, 0))%Z
  | S754_finite false m e => (1, (e, Z.pos m))%Z
  | S754_finite true m e => (-1, (- e, - Z.pos m))%Z
  | S754_nan => (0, (0, 0))%Z
  end.

Definition lexle (a b : Z * (Z * Z)) : Prop :=
  (fst a < fst b
   \/ (fst a = fst b
       /\ (fst (snd a) < fst (snd b)
           \/ (fst (snd a) = fst (snd b) /\ snd (snd a) <= snd (snd b)))))%Z.

(** ** Tool calls, call by call *)

(** The session is active and its connection is open, as a test. *)
Definition isLive (w : World) : bool :=
  match activeSession (live w) with
  | Some s => socketOpen s
  | None => false
  end.

(** A handler whose promise always resolves. *)
Definition alwaysResolves (h : ToolHandler) : Prop :=
  forall name args w, exists v w1, h name args w = (Resolved v, w1).

(** The handler's invocations for the calls of one message, in order:
    each is started in the world the one before it left, and [steps]
    lists, call by call, the value its promise resolved with and the
    world it left. *)
Inductive Invoked (h : ToolHandler)
  : World -> list FunctionCall -> list (Js.value * World) -> Prop :=
| invoked_nil w : Invoked h w [] []
| invoked_cons w fc fcs v w1 steps :
    h (fc_name fc) (fc_args fc) w = (Resolved v, w1) ->
    Invoked h w1 fcs steps ->
    Invoked h w (fc :: fcs) ((v, w1) :: steps).

(** What is seen of one call: the invocation and, when the session is
    live once the handler has settled, the response that follows it. *)
Definition callEvents (fc : FunctionCall) (step : Js.value * World) : list Event :=
  EvOnToolCall (fc_name fc) (fc_args fc) (Resolved (fst step))
    :: (if isLive (snd step)
        then [EvSendToolResponse
                {| fr_id := fc_id fc; fr_name := fc_name fc;
                   fr_result := if Js.truthy (fst step) then fst step
                                else Js.Str "OK" |}]
        else []).

(** The invocations alone. *)
Definition invocations (fcs : list FunctionCall) (results : list Js.value) : list Event :=
  map (fun p => EvOnToolCall (fc_name (fst p)) (fc_args (fst p)) (Resolved (snd p)))
      (combine fcs results).

(** ** More concrete inputs *)

(** Fifteen messages, m1 to m15, the user and the assistant taking turns
    and m9 a system message. *)
Definition fifteenTurns : list ChatMessage :=
  [userMessage "m1"; assistantMessage "m2"; userMessage "m3"; assistantMessage "m4";
   userMessage "m5"; assistantMessage "m6"; userMessage "m7"; assistantMessage "m8";
   systemMessage "m9"; assistantMessage "m10"; userMessage "m11";
   assistantMessage "m12"; userMessage "m13"; assistantMessage "m14";
   userMessage "m15"].

(** Settings with a negative speed, which [setAudioSettings] takes as
    they are. *)
Definition reversedSettings : AudioSettings :=
  {| volume := 8 # 10; speed := - (1) |}.

(** An SDK that refuses a request made without a key and answers any
    other with [r]. *)
Definition backendNeedsKey (r : GenerateContentResponse)
  : GoogleGenAI -> GenerateContentParameters -> Outcome GenerateContentResponse :=
  fun ai _ =>
    if Js.truthy_string (apiKey ai) then Resolved r
    else Rejected (Error "API key must be set").

(** Two calls of [speakText], the second made while the first awaits its
    request; then the first request settles and its audio is decoded,
    then the second. *)
Definition overlappingCalls (env : ProcessEnv)
    (decode : string -> Outcome AudioBuffer)
    (first second : Outcome GenerateContentResponse) : M unit :=
  speakText_call env "one" Zephyr ;;
  speakText_call env "two" Zephyr ;;
  speakText_resume decode first ;;
  speakText_resume decode second.

(** A turn of two chunks at speed 3: the first is handled when the clock
    reads 5 and lasts one second, the second arrives a quarter of a
    second later. *)
Definition thirdsTurn : list (float * float) :=
  [(5%float, 1%float); (5.25%float, 1%float)].
(** * Properties *)

(** ** The prompt builder *)

Lemma slice_last_suffix {A : Type} (k : nat) (l : list A) :
  firstn (List.length l - k) l ++ Js.slice_last k l = l.
Proof. unfold Js.slice_last. apply firstn_skipn. Qed.

Lemma slice_last_length {A : Type} (k : nat) (l : list A) :
  List.length (Js.slice_last k l) = Nat.min (List.length l) k.
Proof. unfold Js.slice_last. rewrite length_skipn. lia. Qed.

(** Fifteen prior messages: the transcript lists m6 .. m15. *)
Example fifteen_messages_keep_last_ten :
  Js.slice_last 10 fifteenMessages =
  map userMessage ["m6"; "m7"; "m8"; "m9"; "m10"; "m11"; "m12"; "m13"; "m14"; "m15"].
Proof. reflexivity. Qed.

Lemma startsWith_append (p s : string) : startsWith p (p ++ s) = true.
Proof.
  induction p as [|c p IH]; [destruct s; reflexivity|].
  cbn. rewrite Ascii.eqb_refl. exact IH.
Qed.

Lemma occursIn_here (p s : string) : occursIn p (p ++ s) = true.
Proof.
  destruct (p ++ s)%string eqn:E; cbn;
    rewrite <- E, startsWith_append; reflexivity.
Qed.

Lemma occursIn_later (p a s : string) :
  occursIn p s = true -> occursIn p (a ++ s) = true.
Proof.
  intros H. induction a as [|c a IH]; [exact H|].
  cbn. rewrite IH. apply orb_true_r.
Qed.

Lemma string_append_assoc (a b c : string) :
  ((a ++ b) ++ c)%string = (a ++ (b ++ c))%string.
Proof. induction a as [|x a IH]; [reflexivity|]. cbn. rewrite IH. reflexivity. Qed.

(** A line of a joined list occurs in the joined text, whatever follows
    it. *)
Lemma occursIn_joined (sep x after : string) (l : list string) :
  In x l -> occursIn x (String.concat sep l ++ after) = true.
Proof.
  induction l as [|y l IH]; [intros []|].
  intros [->|Hin].
  - destruct l as [|z l]; cbn [String.concat].
    + apply occursIn_here.
    + rewrite string_append_assoc. apply occursIn_here.
  - destruct l as [|z l]; [destruct Hin|].
    cbn [String.concat]. rewrite !string_append_assoc.
    apply occursIn_later, occursIn_later. exact (IH Hin).
Qed.

(** C8. For a history of n messages the builder returns the persona
    template followed by a transcript section: a header line, then one
    line per message for exactly the last min(n, 10) messages in their
    original order (the history is [older ++ recent], the section lists
    [recent]), each line being User or Assistant, a colon and the
    content of the message, then a footer; so each of these lines occurs
    in the instruction.  For an empty history it returns the template
    alone, which holds neither the header nor the footer.  For the
    fifteen messages m1 .. m15 the section lists m6 .. m15 and m5 occurs
    nowhere.  The builder is a total function to strings. *)
Theorem buildVoiceSystemInstruction_transcript
    (persona : VoicePersona) (history : list ChatMessage) :
  let template :=
    (PERSONA_PERSONALITIES persona ++ nl ++ nl ++
     "You can clear the chat, set volume, and set speed using your tools. " ++
     BASE_INSTRUCTION)%string in
  let line (m : ChatMessage) :=
    (match role m with
     | USER => "User"
     | ASSISTANT | SYSTEM => "Assistant"
     end ++ ": " ++ content m)%string in
  (exists older recent : list ChatMessage,
     history = older ++ recent /\
     List.length recent = Nat.min (List.length history) 10 /\
     buildVoiceSystemInstruction persona history =
       match history with
       | [] => template
       | _ :: _ =>
           (template ++ nl ++ nl ++ "--- Previous Conversation Context ---" ++ nl
              ++ String.concat nl (map line recent)
              ++ nl ++ "--- End of Context ---" ++ nl
              ++ "Continue the conversation naturally, referencing previous topics when relevant.")%string
       end /\
     forall m, In m recent ->
       occursIn (line m) (buildVoiceSystemInstruction persona history) = true)
  /\ nl = String (ascii_of_nat 10) EmptyString
  /\ occursIn "--- Previous Conversation Context ---" template = false
  /\ occursIn "--- End of Context ---" template = false
  /\ buildVoiceSystemInstruction persona fifteenTurns =
       (template ++ nl ++ nl ++ "--- Previous Conversation Context ---" ++ nl
          ++ "Assistant: m6" ++ nl ++ "User: m7" ++ nl ++ "Assistant: m8" ++ nl
          ++ "Assistant: m9" ++ nl ++ "Assistant: m10" ++ nl ++ "User: m11" ++ nl
          ++ "Assistant: m12" ++ nl ++ "User: m13" ++ nl ++ "Assistant: m14" ++ nl
          ++ "User: m15"
          ++ nl ++ "--- End of Context ---" ++ nl
          ++ "Continue the conversation naturally, referencing previous topics when relevant.")%string
  /\ occursIn "m5" (buildVoiceSystemInstruction persona fifteenTurns) = false.
Proof.
  intros template line.
  assert (Hline : forall l, map transcriptLine l = map line l).
  { intros l. apply map_ext. intros m. unfold transcriptLine, line.
    destruct (role m); reflexivity. }
  assert (Hbuild :
    forall m rest,
      buildVoiceSystemInstruction persona (m :: rest) =
      (template ++ nl ++ nl ++ "--- Previous Conversation Context ---" ++ nl
         ++ String.concat nl (map line (Js.slice_last 10 (m :: rest)))
         ++ nl ++ "--- End of Context ---" ++ nl
         ++ "Continue the conversation naturally, referencing previous topics when relevant.")%string).
  { intros m rest. unfold buildVoiceSystemInstruction.
    cbn [List.length Nat.ltb Nat.leb]. cbv zeta. rewrite Hline.
    unfold voiceTemplate, contextHeader, contextFooter, Js.join, template.
    rewrite !string_append_assoc. reflexivity. }
  split; [|split; [reflexivity|split; [|split; [|split]]]].
  - exists (firstn (List.length history - 10) history), (Js.slice_last 10 history).
    split; [symmetry; apply slice_last_suffix|].
    split; [apply slice_last_length|].
    destruct history as [|m rest].
    + split; [reflexivity|]. intros m [].
    + split; [apply Hbuild|].
      intros x Hx. rewrite Hbuild.
      do 5 apply occursIn_later.
      apply occursIn_joined, in_map, Hx.
  - destruct persona; vm_compute; reflexivity.
  - destruct persona; vm_compute; reflexivity.
  - destruct persona; vm_compute; reflexivity.
  - destruct persona; vm_compute; reflexivity.
Qed.

(** ** The request/response client *)

Section Client.

Variable env : ProcessEnv.
Variable backend :
  GoogleGenAI -> GenerateContentParameters -> Outcome GenerateContentResponse.

(** With a key, [sendChatMessage] makes one request and settles as the
    backend does. *)
Lemma sendChatMessage_with_key text model history persona w :
  Js.truthy_string (resolvedKey env) = true ->
  sendChatMessage env backend text model history persona w =
    (match backend {| apiKey := resolvedKey env |} (chatRequest text model history persona) with
     | Resolved response => Resolved (chatResult response)
     | Rejected e => Rejected e
     end,
     w,
     [EvGenerateContent {| apiKey := resolvedKey env |}
        (chatRequest text model history persona)]).
Proof.
  intros Hkey. unfold sendChatMessage. fold (resolvedKey env). rewrite Hkey. simpl.
  unfold bind, generateContent, bind, emit, await, ret, chatRequest. simpl.
  destruct (backend _ _); reflexivity.
Qed.

(** Without one it throws before anything else happens. *)
Lemma sendChatMessage_without_key text model history persona w :
  Js.truthy_string (resolvedKey env) = false ->
  sendChatMessage env backend text model history persona w =
    (Rejected (Error "GEMINI_API_KEY is not configured"), w, []).
Proof.
  intros Hkey. unfold sendChatMessage. fold (resolvedKey env). rewrite Hkey. reflexivity.
Qed.

End Client.

(** *** Deduplication *)

Lemma findIndex_from_skip {A : Type} (p : A -> bool) (pre l : list A) (i : Z) :
  (forall y, In y pre -> p y = false) ->
  Js.findIndex_from p (pre ++ l) i
  = Js.findIndex_from p l (i + Z.of_nat (List.length pre))%Z.
Proof.
  revert i. induction pre as [|y pre IH]; intros i Hpre; simpl.
  - f_equal. lia.
  - rewrite (Hpre y (or_introl eq_refl)).
    rewrite IH by (intros z Hz; apply Hpre; right; exact Hz).
    f_equal. lia.
Qed.

Lemma findIndex_from_hit {A : Type} (p : A -> bool) (pre l : list A) (i : Z) :
  existsb p pre = true ->
  (i <= Js.findIndex_from p (pre ++ l) i < i + Z.of_nat (List.length pre))%Z.
Proof.
  revert i. induction pre as [|y pre IH]; intros i Hex; simpl in *.
  - discriminate.
  - destruct (p y) eqn:Hy.
    + lia.
    + simpl in Hex. specialize (IH (i + 1)%Z Hex). lia.
Qed.

Lemma existsb_false_forall {A : Type} (p : A -> bool) (l : list A) :
  existsb p l = false -> forall y, In y l -> p y = false.
Proof.
  intros H y Hy. destruct (p y) eqn:E; [|reflexivity].
  assert (existsb p l = true) by (apply existsb_exists; eauto). congruence.
Qed.

Lemma existsb_same {A B : Type} (p : A -> bool) (q : B -> bool)
    (l : list A) (m : list B) :
  (existsb p l = true <-> existsb q m = true) -> existsb p l = existsb q m.
Proof.
  destruct (existsb p l), (existsb q m); intuition congruence.
Qed.

(** The index filter of the code, started in the middle of the array. *)
Lemma filter_from_firstSeen (pre suf : list GroundingSource) (seen : list string) :
  (forall u, In u seen <-> In u (map uri pre)) ->
  Js.filter_from
    (fun v i =>
       (Js.findIndex (fun t => String.eqb (uri t) (uri v)) (pre ++ suf) =? i)%Z)
    suf (Z.of_nat (List.length pre))
  = firstSeen seen suf.
Proof.
  revert pre seen. induction suf as [|x r IH]; intros pre seen Hseen; [reflexivity|].
  cbn [Js.filter_from firstSeen].
  assert (Hex : existsb (String.eqb (uri x)) seen
                = existsb (fun t => String.eqb (uri t) (uri x)) pre).
  { apply existsb_same. rewrite !existsb_exists. split.
    - intros [u [Hu E]]. apply String.eqb_eq in E. subst u.
      apply Hseen in Hu. apply in_map_iff in Hu. destruct Hu as [t [Et Ht]].
      exists t. split; [exact Ht|]. apply String.eqb_eq. exact Et.
    - intros [t [Ht E]]. apply String.eqb_eq in E.
      exists (uri x). split; [|apply String.eqb_refl].
      apply Hseen. rewrite <- E. apply in_map. exact Ht. }
  assert (Hnext :
    Js.filter_from
      (fun v i =>
         (Js.findIndex (fun t => String.eqb (uri t) (uri v)) (pre ++ x :: r) =? i)%Z)
      r (Z.of_nat (List.length pre) + 1)
    = firstSeen (if existsb (String.eqb (uri x)) seen then seen else uri x :: seen) r).
  { replace (pre ++ x :: r) with ((pre ++ [x]) ++ r) by (rewrite <- app_assoc; reflexivity).
    replace (Z.of_nat (List.length pre) + 1)%Z with (Z.of_nat (List.length (pre ++ [x])))
      by (rewrite length_app; simpl; lia).
    apply IH. intros u. rewrite map_app, in_app_iff. simpl.
    destruct (existsb (String.eqb (uri x)) seen) eqn:E.
    - rewrite Hseen. split; [tauto|]. intros [H|[H|[]]]; [exact H|].
      subst u. apply Hseen. apply existsb_exists in E. destruct E as [u [Hu E]].
      apply String.eqb_eq in E. subst u. exact Hu.
    - simpl. rewrite Hseen. tauto. }
  unfold Js.findIndex. rewrite Hex.
  destruct (existsb (fun t => String.eqb (uri t) (uri x)) pre) eqn:Hpre.
  - pose proof (findIndex_from_hit _ pre (x :: r) 0%Z Hpre) as Hlt.
    destruct (Z.eqb_spec
      (Js.findIndex_from (fun t => String.eqb (uri t) (uri x)) (pre ++ x :: r) 0)
      (Z.of_nat (List.length pre))) as [Heq|_]; [lia|].
    unfold Js.findIndex in Hnext. rewrite Hnext, Hex. reflexivity.
  - rewrite findIndex_from_skip by (apply existsb_false_forall; exact Hpre).
    simpl. rewrite String.eqb_refl, Z.eqb_refl.
    unfold Js.findIndex in Hnext. rewrite Hnext, Hex. reflexivity.
Qed.

(** The filter of the code is first-seen deduplication. *)
Lemma uniqueSources_firstSeen (l : list GroundingSource) :
  uniqueSources l = firstSeen [] l.
Proof.
  unfold uniqueSources, Js.filter.
  apply (filter_from_firstSeen [] l []). intros u. simpl. tauto.
Qed.

Lemma firstSeen_subsequence (seen : list string) (l : list GroundingSource) :
  Subsequence (firstSeen seen l) l.
Proof.
  revert seen. induction l as [|x r IH]; intros seen; simpl.
  - constructor.
  - destruct (existsb _ seen); constructor; apply IH.
Qed.

Lemma firstSeen_unseen (seen : list string) (l : list GroundingSource) x :
  In x (firstSeen seen l) -> ~ In (uri x) seen.
Proof.
  revert seen. induction l as [|y r IH]; intros seen; simpl; [tauto|].
  destruct (existsb (String.eqb (uri y)) seen) eqn:E.
  - apply IH.
  - intros [H|H].
    + subst y. intros Hin.
      assert (existsb (String.eqb (uri x)) seen = true).
      { apply existsb_exists. exists (uri x). split; [exact Hin|apply String.eqb_refl]. }
      congruence.
    + intros Hin. apply (IH _ H). right. exact Hin.
Qed.

Lemma firstSeen_nodup (seen : list string) (l : list GroundingSource) :
  NoDup (map uri (firstSeen seen l)).
Proof.
  revert seen. induction l as [|y r IH]; intros seen; simpl; [constructor|].
  destruct (existsb (String.eqb (uri y)) seen) eqn:E; [apply IH|].
  simpl. constructor; [|apply IH].
  intros Hin. apply in_map_iff in Hin. destruct Hin as [x [Ex Hx]].
  apply firstSeen_unseen in Hx. apply Hx. left. symmetry. exact Ex.
Qed.

Lemma firstSeen_keeps_first (seen : list string) (pre suf : list GroundingSource) x :
  ~ In (uri x) seen ->
  ~ In (uri x) (map uri pre) ->
  In x (firstSeen seen (pre ++ x :: suf)).
Proof.
  revert seen. induction pre as [|y pre IH]; intros seen Hseen Hpre; simpl.
  - destruct (existsb (String.eqb (uri x)) seen) eqn:E.
    + exfalso. apply existsb_exists in E. destruct E as [u [Hu E]].
      apply String.eqb_eq in E. subst u. exact (Hseen Hu).
    + left. reflexivity.
  - simpl in Hpre.
    destruct (existsb (String.eqb (uri y)) seen).
    + apply IH; tauto.
    + right. apply IH; [|tauto]. simpl. tauto.
Qed.

(** What the [forEach] over the grounding chunks collects: one entry per
    chunk that has a [web] part with a non-empty uri, titled by the
    chunk's title or DATA_NODE. *)
Lemma collectSources_spec (chunks : list GroundingChunk) (x : GroundingSource) :
  In x (collectSources (Some chunks)) <->
  exists chunk w u,
    In chunk chunks /\ web chunk = Some w /\ web_uri w = Some u
    /\ Js.truthy_string u = true
    /\ x = {| title := Js.or_default (web_title w) "DATA_NODE"; uri := u |}.
Proof.
  unfold collectSources. rewrite in_flat_map. split.
  - intros [chunk [Hin Hx]]. unfold chunkSource in Hx.
    destruct (web chunk) as [w|] eqn:Ew; [|destruct Hx].
    destruct (web_uri w) as [u|] eqn:Eu; [|destruct Hx].
    destruct (Js.truthy_string u) eqn:Et; [|destruct Hx].
    destruct Hx as [<-|[]]. exists chunk, w, u. repeat split; assumption.
  - intros [chunk [w [u [Hin [Ew [Eu [Et ->]]]]]]].
    exists chunk. split; [exact Hin|]. unfold chunkSource.
    rewrite Ew, Eu, Et. left. reflexivity.
Qed.

Lemma chatResult_sources (response : GenerateContentResponse) :
  result_sources (chatResult response) =
    match firstSeen [] (collectSources (responseChunks response)) with
    | [] => None
    | x :: l => Some (x :: l)
    end.
Proof.
  unfold chatResult. fold (responseChunks response). cbn [result_sources].
  rewrite uniqueSources_firstSeen.
  destruct (firstSeen [] (collectSources (responseChunks response))); reflexivity.
Qed.

Lemma chatResult_text (response : GenerateContentResponse) :
  result_text (chatResult response) =
    match response_text response with
    | Some (String a s) => String a s
    | Some EmptyString | None => "NO_RESPONSE_RECEIVED"
    end.
Proof.
  unfold chatResult. cbn [result_text].
  destruct (response_text response) as [[|a s]|]; reflexivity.
Qed.

(** C4. When a credential is configured and the backend answers the
    request with [response], [sendChatMessage] resolves (it does not
    reject) with the backend's text, or with the sentinel
    NO_RESPONSE_RECEIVED when that text is empty or missing, so never
    with an empty string; and with the sources collected from the
    citation chunks, deduplicated by uri: no uri occurs twice, the
    entries kept are in the order of the collected list, and the entry
    kept for a uri is the first one that carries it. *)
Theorem sendChatMessage_success
    (env : ProcessEnv)
    (backend : GoogleGenAI -> GenerateContentParameters -> Outcome GenerateContentResponse)
    (text : string) (model : ModelType) (history : list ChatMessage)
    (persona : VoicePersona) (w : World) (response : GenerateContentResponse) :
  Js.truthy_string (resolvedKey env) = true ->
  backend {| apiKey := resolvedKey env |} (chatRequest text model history persona)
    = Resolved response ->
  let flat := collectSources (responseChunks response) in
  let unique := firstSeen [] flat in
  let answer :=
    match response_text response with
    | Some (String a s) => String a s
    | Some EmptyString | None => "NO_RESPONSE_RECEIVED"
    end in
  outcomeOf (sendChatMessage env backend text model history persona w)
    = Resolved {| result_text := answer;
                  result_sources :=
                    match unique with [] => None | x :: l => Some (x :: l) end |}
  /\ answer <> ""
  /\ NoDup (map uri unique)
  /\ Subsequence unique flat
  /\ (forall pre x suf,
        flat = pre ++ x :: suf -> ~ In (uri x) (map uri pre) -> In x unique).
Proof.
  intros Hkey Hreply flat unique answer.
  split; [|split; [|split; [|split]]].
  - rewrite sendChatMessage_with_key by exact Hkey. rewrite Hreply.
    unfold outcomeOf. cbn [fst]. f_equal.
    pose proof (chatResult_sources response) as Hs.
    pose proof (chatResult_text response) as Ht.
    destruct (chatResult response) as [t s]. cbn in Hs, Ht. subst t s. reflexivity.
  - unfold answer. destruct (response_text response) as [[|a s]|]; discriminate.
  - apply firstSeen_nodup.
  - apply firstSeen_subsequence.
  - intros pre x suf Hflat Hfirst. unfold unique. rewrite Hflat.
    apply firstSeen_keeps_first; [simpl; tauto|exact Hfirst].
Qed.

(** The sources [{A,u1},{B,u1},{C,u2}] with an empty text. *)
Lemma sendChatMessage_success_witness :
  outcomeOf (sendChatMessage envSecondOnly (backendReplies duplicateReply)
               "hello" gemini_3_flash_preview [] Zephyr initialWorld)
  = Resolved {| result_text := "NO_RESPONSE_RECEIVED";
                result_sources :=
                  Some [{| title := "A"; uri := "u1" |};
                        {| title := "C"; uri := "u2" |}] |}.
Proof.
  exact (proj1 (sendChatMessage_success envSecondOnly (backendReplies duplicateReply)
                  "hello" gemini_3_flash_preview [] Zephyr initialWorld duplicateReply
                  eq_refl eq_refl)).
Defined.

(** C10. The [sources] field of the result is absent or a non-empty
    list: it is the deduplicated list when that list is non-empty and
    [undefined] when it is empty, in particular when the reply carries no
    grounding chunks; no resolved [sendChatMessage] carries an empty
    list. *)
Theorem chatResult_sources_absent_or_nonempty :
  (forall response,
     match result_sources (chatResult response) with
     | None => uniqueSources (collectSources (responseChunks response)) = []
     | Some l =>
         l <> [] /\ l = uniqueSources (collectSources (responseChunks response))
     end)
  /\ (forall response,
        responseChunks response = None ->
        result_sources (chatResult response) = None)
  /\ (forall env backend text model history persona w result,
        outcomeOf (sendChatMessage env backend text model history persona w)
          = Resolved result ->
        result_sources result <> Some []).
Proof.
  split; [|split].
  - intros response. rewrite chatResult_sources, uniqueSources_firstSeen.
    destruct (firstSeen [] _); [reflexivity|]. split; [discriminate|reflexivity].
  - intros response Hnone. rewrite chatResult_sources, Hnone. reflexivity.
  - intros env backend text model history persona w result Hrun.
    destruct (Js.truthy_string (resolvedKey env)) eqn:Hkey.
    + rewrite sendChatMessage_with_key in Hrun by exact Hkey.
      unfold outcomeOf in Hrun. cbn [fst] in Hrun.
      destruct (backend _ _) as [response|e]; [|discriminate].
      injection Hrun as <-. rewrite chatResult_sources.
      destruct (firstSeen [] _); discriminate.
    + rewrite sendChatMessage_without_key in Hrun by exact Hkey. discriminate.
Qed.

Lemma chatResult_sources_absent_or_nonempty_witness :
  result_sources (chatResult (groundedResponse (Some "hi") [])) = None
  /\ result_sources
       {| result_text := "NO_RESPONSE_RECEIVED";
          result_sources := Some [{| title := "A"; uri := "u1" |};
                                  {| title := "C"; uri := "u2" |}] |}
     <> Some [].
Proof.
  split.
  - exact (proj1 (proj2 chatResult_sources_absent_or_nonempty)
             {| response_text := Some "hi"; candidates := None |} eq_refl).
  - exact (proj2 (proj2 chatResult_sources_absent_or_nonempty)
             envSecondOnly (backendReplies duplicateReply)
             "hello" gemini_3_flash_preview [] Zephyr initialWorld _ eq_refl).
Defined.

(** C9. In the contents sent to the backend, the i-th history message
    appears at position i with role user when its role is USER and role
    model otherwise (so for ASSISTANT and for SYSTEM), carrying its
    content; the new user turn comes last, right after the history; and
    these are the contents of the request that [sendChatMessage]
    issues. *)
Theorem conversationContents_roles (text : string) (history : list ChatMessage) :
  (forall i msg,
     nth_error history i = Some msg ->
     nth_error (conversationContents text history) i =
       Some {| content_role :=
                 Some match role msg with
                      | USER => "user"
                      | ASSISTANT | SYSTEM => "model"
                      end;
               parts := Some [textPart (content msg)] |})
  /\ nth_error (conversationContents text history) (List.length history) =
       Some {| content_role := Some "user"; parts := Some [textPart text] |}
  /\ List.length (conversationContents text history) = S (List.length history)
  /\ (forall env backend model persona w ai req,
        In (EvGenerateContent ai req)
           (eventsOf (sendChatMessage env backend text model history persona w)) ->
        contents req = conversationContents text history).
Proof.
  unfold conversationContents. split; [|split; [|split]].
  - intros i msg Hi.
    rewrite nth_error_app1 by (rewrite length_map; apply nth_error_Some; congruence).
    rewrite nth_error_map, Hi. simpl. unfold historyContent.
    destruct (role msg); reflexivity.
  - rewrite nth_error_app2 by (rewrite length_map; lia).
    rewrite length_map, Nat.sub_diag. reflexivity.
  - rewrite length_app, length_map. simpl. lia.
  - intros env backend model persona w ai req Hin.
    destruct (Js.truthy_string (resolvedKey env)) eqn:Hkey.
    + rewrite sendChatMessage_with_key in Hin by exact Hkey.
      unfold eventsOf in Hin. cbn [snd] in Hin.
      destruct Hin as [Heq|[]]. injection Heq as _ <-. reflexivity.
    + rewrite sendChatMessage_without_key in Hin by exact Hkey. destruct Hin.
Qed.

Lemma conversationContents_roles_witness :
  nth_error (conversationContents "now"
               [userMessage "a"; assistantMessage "b"; systemMessage "c"]) 2
  = Some {| content_role := Some "model"; parts := Some [textPart "c"] |}
  /\ contents (chatRequest "now" gemini_3_flash_preview
                 [userMessage "a"; assistantMessage "b"; systemMessage "c"] Zephyr)
     = conversationContents "now"
         [userMessage "a"; assistantMessage "b"; systemMessage "c"].
Proof.
  split.
  - exact (proj1 (conversationContents_roles "now"
                    [userMessage "a"; assistantMessage "b"; systemMessage "c"])
             2%nat (systemMessage "c") eq_refl).
  - exact (proj2 (proj2 (proj2 (conversationContents_roles "now"
                    [userMessage "a"; assistantMessage "b"; systemMessage "c"])))
             envBoth (backendReplies duplicateReply) gemini_3_flash_preview Zephyr
             initialWorld {| apiKey := "k1" |} _ (or_introl eq_refl)).
Defined.

(** ** The playback sequencer *)

Ltac run_monad :=
  unfold bind, ret, emit, await, throw, try_catch, getService, getLive,
    getCurrentTime, modifyService, modifyLive, createBufferSource, when,
    clockReads, clockAdvance, discard; cbn [fst snd].

Lemma bind_resolved {A B : Type} (m : M A) (k : A -> M B) (w w1 : World) a l1 :
  m w = (Resolved a, w1, l1) ->
  bind m k w = (outcomeOf (k a w1), worldOf (k a w1), l1 ++ eventsOf (k a w1)).
Proof.
  intros H. unfold bind. rewrite H.
  destruct (k a w1) as [[r w2] l2]. reflexivity.
Qed.

Lemma bind_rejected {A B : Type} (m : M A) (k : A -> M B) (w w1 : World) e l1 :
  m w = (Rejected e, w1, l1) ->
  bind m k w = (Rejected e, w1, l1).
Proof. intros H. unfold bind. rewrite H. reflexivity. Qed.

Lemma stop_guarded (s : AudioBufferSourceNode) (w : World) :
  try_catch (sourceStop s) (fun _ => ret tt) w
  = (Resolved tt, w, stopEvents [s]).
Proof.
  unfold try_catch, sourceStop, stopEvents. simpl.
  destruct (startedAt s); reflexivity.
Qed.

Lemma forEach_stop (l : list AudioBufferSourceNode) (w : World) :
  forEach (fun s => try_catch (sourceStop s) (fun _ => ret tt)) l w
  = (Resolved tt, w, stopEvents l).
Proof.
  induction l as [|s l IH]; [reflexivity|].
  cbn [forEach]. rewrite (bind_resolved _ _ _ _ _ _ (stop_guarded s w)).
  rewrite IH. unfold outcomeOf, worldOf, eventsOf, stopEvents. simpl.
  rewrite app_nil_r. reflexivity.
Qed.

Lemma stopAudio_run (w : World) :
  stopAudio w = (Resolved tt, silenced w, stopEvents (tracked w)).
Proof.
  unfold stopAudio.
  rewrite (bind_resolved _ _ w w (service w) [] eq_refl).
  rewrite (bind_resolved _ _ _ _ _ _ (forEach_stop _ w)).
  unfold outcomeOf, worldOf, eventsOf. run_monad. simpl.
  rewrite !app_nil_r. reflexivity.
Qed.

(** C3. From any world, [stopAudio] returns normally (a [stop()] that
    throws is caught), leaves no tracked source and the cursor at 0,
    however many sources were active; called again from the world it
    leaves, it returns normally, stops nothing and leaves that world
    unchanged. *)
Theorem stopAudio_clears_and_is_idempotent (w : World) :
  outcomeOf (stopAudio w) = Resolved tt
  /\ tracked (worldOf (stopAudio w)) = []
  /\ cursor (worldOf (stopAudio w)) = 0
  /\ stopAudio (worldOf (stopAudio w)) = (Resolved tt, worldOf (stopAudio w), []).
Proof.
  rewrite stopAudio_run. unfold outcomeOf, worldOf. cbn [fst snd].
  split; [reflexivity|]. split; [reflexivity|]. split; [reflexivity|].
  rewrite stopAudio_run. reflexivity.
Qed.

(** Two sources playing, one of them never started. *)
Example stopAudio_with_unstarted_source :
  stopAudio
    {| service :=
         withActiveSources
           [{| nodeId := 7%nat; buffer := {| duration := 1 |};
               playbackRate := 1; startedAt := None |};
            {| nodeId := 8%nat; buffer := {| duration := 1 |};
               playbackRate := 1; startedAt := Some 3 |}]
           (withNextStartTime 4 readyService);
       live := noLive; currentTime := 3; nextNodeId := 9%nat |}
  = (Resolved tt, stoppedWorld' 3 9, [EvSourceStop 8]).
Proof. reflexivity. Qed.

Lemma startTimes_app (a b : list Event) :
  startTimes (a ++ b) = startTimes a ++ startTimes b.
Proof. apply flat_map_app. Qed.

Lemma consoleErrors_app (a b : list Event) :
  consoleErrors (a ++ b) = consoleErrors a ++ consoleErrors b.
Proof. apply flat_map_app. Qed.

Lemma startTimes_stopEvents (l : list AudioBufferSourceNode) :
  startTimes (stopEvents l) = [].
Proof.
  induction l as [|s l IH]; [reflexivity|].
  unfold stopEvents in *. simpl. rewrite startTimes_app, IH.
  destruct (startedAt s); reflexivity.
Qed.

Lemma consoleErrors_stopEvents (l : list AudioBufferSourceNode) :
  consoleErrors (stopEvents l) = [].
Proof.
  induction l as [|s l IH]; [reflexivity|].
  unfold stopEvents in *. simpl. rewrite consoleErrors_app, IH.
  destruct (startedAt s); reflexivity.
Qed.

Ltac speak_cases env backend decode w :=
  unfold speakText;
  rewrite (bind_resolved _ _ _ _ _ _ (stopAudio_run w));
  unfold outcomeOf, worldOf, eventsOf; cbn [fst snd];
  unfold try_catch, generateContent, ensureAudioContext;
  run_monad.

(** Run with nothing else running during its awaits, [speakText] never
    rejects, whatever the configured key (an unset one included), the
    backend and the decoder do.  It begins by stopping
    every tracked source, before the request is issued, and leaves the
    cursor at 0; afterwards at most one source is tracked, the utterance
    it has just started.  When the backend returns audio and the decoder
    accepts it, exactly one source is started and tracked and nothing is
    logged; when the backend rejects, or the decoder does, nothing is
    started and the failure is logged to the console as TTS failed. *)
Lemma speakText_run
    (env : ProcessEnv)
    (backend : GoogleGenAI -> GenerateContentParameters -> Outcome GenerateContentResponse)
    (decode : string -> Outcome AudioBuffer)
    (text : string) (persona : VoicePersona) (w : World) :
  let ai := {| apiKey := API_KEY env |} in
  let req := speakRequest text persona in
  let r := speakText env backend decode text persona w in
  outcomeOf r = Resolved tt
  /\ (exists rest,
        eventsOf r = stopEvents (tracked w) ++ EvGenerateContent ai req :: rest)
  /\ cursor (worldOf r) = 0
  /\ (tracked (worldOf r) = []
      \/ exists buf, tracked (worldOf r) = [utterance w buf])
  /\ (forall response b buf,
        backend ai req = Resolved response ->
        responseAudio response = Some b ->
        Js.truthy_string b = true ->
        decode b = Resolved buf ->
        contextPaired w ->
        tracked (worldOf r) = [utterance w buf]
        /\ startTimes (eventsOf r) = [currentTime w]
        /\ consoleErrors (eventsOf r) = [])
  /\ (forall m,
        backend ai req = Rejected (Error m) ->
        tracked (worldOf r) = []
        /\ startTimes (eventsOf r) = []
        /\ consoleErrors (eventsOf r) = ["TTS failed: " ++ m]%string)
  /\ (forall response b m,
        backend ai req = Resolved response ->
        responseAudio response = Some b ->
        Js.truthy_string b = true ->
        decode b = Rejected (Error m) ->
        contextPaired w ->
        tracked (worldOf r) = []
        /\ startTimes (eventsOf r) = []
        /\ consoleErrors (eventsOf r) = ["TTS failed: " ++ m]%string).
Proof.
  intros ai req r. subst r ai req. unfold contextPaired.
  speak_cases env backend decode w.
  destruct (backend _ _) as [response|[m]]; cbn [fst snd];
    [destruct (responseAudio response) as [b|] eqn:Haud; cbn [fst snd];
     [destruct (Js.truthy_string b) eqn:Hb; cbn [fst snd];
      [cbn;
       destruct (audioContext (service w)) as [ctx|] eqn:Hctx; cbn;
       [destruct (outputNode (service w)) as [g|] eqn:Hout; cbn|];
       try destruct (decode b) as [buf|[m]] eqn:Hdec; cbn| ]| ]| ];
    rewrite ?startTimes_app, ?consoleErrors_app,
      ?startTimes_stopEvents, ?consoleErrors_stopEvents; cbn;
    (split; [reflexivity|]);
    (split; [eexists; reflexivity|]);
    (split; [reflexivity|]);
    (split; [first [left; reflexivity | right; eexists; reflexivity]|]);
    (split; [|split]);
    try (intros; discriminate).
  all: try (intros m0 H; injection H as <-; repeat split; reflexivity).
  all: intros r0 b0 x0 H1 H2 H3 H4 H5;
    first [ congruence
          | destruct H5 as [_ H5]; specialize (H5 eq_refl); discriminate
          | assert (E : x0 = buf) by congruence; rewrite E;
            repeat split; reflexivity
          | assert (E : x0 = m) by congruence; rewrite E;
            repeat split; reflexivity ].
Qed.


(** The parts of [speakText] between its awaits. *)
Lemma speakText_call_run (env : ProcessEnv) (text : string) (persona : VoicePersona)
    (w : World) :
  speakText_call env text persona w
  = (Resolved tt, silenced w,
     stopEvents (tracked w)
       ++ [EvGenerateContent {| apiKey := API_KEY env |} (speakRequest text persona)]).
Proof.
  unfold speakText_call.
  rewrite (bind_resolved _ _ _ _ _ _ (stopAudio_run w)). reflexivity.
Qed.

Lemma speakText_onResponse_run (settled : Outcome GenerateContentResponse) (w : World) :
  let r := speakText_onResponse settled w in
  (exists decoding, outcomeOf r = Resolved decoding)
  /\ tracked (worldOf r) = tracked w
  /\ cursor (worldOf r) = cursor w
  /\ currentTime (worldOf r) = currentTime w
  /\ nextNodeId (worldOf r) = nextNodeId w
  /\ startTimes (eventsOf r) = []
  /\ (forall n, ~ In (EvSourceStop n) (eventsOf r))
  /\ match settled with
     | Rejected (Error m) =>
         r = (Resolved None, w, [EvConsoleError ("TTS failed: " ++ m)%string])
     | Resolved response =>
         (forall decoding, outcomeOf r = Resolved (Some decoding) ->
            responseAudio response = Some decoding
            /\ Js.truthy_string decoding = true
            /\ ready (worldOf r))
     end.
Proof.
  unfold speakText_onResponse, ensureAudioContext, ready. run_monad.
  unfold outcomeOf, worldOf, eventsOf.
  destruct settled as [response|[m]]; cbn [fst snd].
  2: { split; [eexists; reflexivity|]. repeat (split; [reflexivity|]).
       split; [|reflexivity]. intros n H. cbn in H. destruct H as [H|H]; [discriminate H|exact H]. }
  destruct (responseAudio response) as [b|] eqn:Haud; cbn [fst snd].
  2: { split; [eexists; reflexivity|]. repeat (split; [reflexivity|]).
       split; [intros n H; exact H|].
       intros decoding H. discriminate H. }
  destruct (Js.truthy_string b) eqn:Hb; cbn [fst snd].
  2: { split; [eexists; reflexivity|]. repeat (split; [reflexivity|]).
       split; [intros n H; exact H|].
       intros decoding H. discriminate H. }
  cbn. destruct (audioContext (service w)) as [ctx|] eqn:Hctx; cbn.
  - destruct (outputNode (service w)) as [g|] eqn:Hout; cbn.
    + split; [eexists; reflexivity|]. repeat (split; [reflexivity|]).
      split; [intros n H; exact H|].
      intros decoding H. injection H as <-.
      split; [reflexivity|]. split; [exact Hb|].
      rewrite ?Hctx. split; discriminate.
    + split; [eexists; reflexivity|]. repeat (split; [reflexivity|]).
      split; [intros n H; cbn in H; destruct H as [H|H]; [discriminate H|exact H]|].
      intros decoding H. discriminate H.
  - split; [eexists; reflexivity|]. repeat (split; [reflexivity|]).
    split; [intros n H; exact H|].
    intros decoding H. injection H as <-.
    split; [reflexivity|]. split; [exact Hb|]. split; discriminate.
Qed.

Lemma speakText_onDecoded_run (settled : Outcome AudioBuffer) (w : World) :
  let r := speakText_onDecoded settled w in
  outcomeOf r = Resolved tt
  /\ cursor (worldOf r) = cursor w
  /\ match settled with
     | Resolved buf =>
         tracked (worldOf r) = setAdd (utterance w buf) (tracked w)
         /\ eventsOf r = [EvSourceStart (nextNodeId w) (currentTime w)]
     | Rejected (Error m) =>
         worldOf r = w
         /\ eventsOf r = [EvConsoleError ("TTS failed: " ++ m)%string]
     end.
Proof.
  unfold speakText_onDecoded. run_monad. unfold outcomeOf, worldOf, eventsOf.
  destruct settled as [buf|[m]]; cbn -[setAdd]; repeat split; reflexivity.
Qed.

(** Run without interruption, the parts make up the method. *)
Lemma speakText_parts
    (env : ProcessEnv)
    (backend : GoogleGenAI -> GenerateContentParameters -> Outcome GenerateContentResponse)
    (decode : string -> Outcome AudioBuffer)
    (text : string) (persona : VoicePersona) (w : World) :
  speakText env backend decode text persona w
  = speakText_uninterrupted env backend decode text persona w.
Proof.
  unfold speakText_uninterrupted.
  rewrite (bind_resolved _ _ _ _ _ _ (speakText_call_run env text persona w)).
  speak_cases env backend decode w.
  unfold speakText_resume, speakText_onResponse, speakText_onDecoded,
    ensureAudioContext. run_monad.
  destruct (backend _ _) as [response|[m]]; cbn [fst snd];
    [destruct (responseAudio response) as [b|] eqn:Haud; cbn [fst snd];
     [destruct (Js.truthy_string b) eqn:Hb; cbn [fst snd];
      [cbn -[setAdd];
       destruct (audioContext (service w)) as [ctx|] eqn:Hctx; cbn -[setAdd];
       [destruct (outputNode (service w)) as [g|] eqn:Hout; cbn -[setAdd]|];
       try destruct (decode b) as [buf|[m]] eqn:Hdec; cbn -[setAdd]| ]| ]| ];
    rewrite <- ?app_assoc; reflexivity.
Qed.

(** C7, as the code has it.  The call of [speakText] begins by stopping
    every tracked source and resetting the cursor, and only then hands
    its request to the SDK, with the key of API_KEY whatever it is.
    Each time it is resumed, in whatever state the service then is, it
    returns normally: when the request was rejected, or the decoder
    rejects, the failure is logged to the console as TTS failed and
    nothing is started; resumed with the reply it stops and starts
    nothing; resumed with a decoded buffer it starts exactly one source,
    at the current time, and tracks it.  It stops nothing after its
    first step.  The method run with nothing else in between is these
    parts in a row; then it never rejects, the cursor is 0 afterwards
    and at most one source is tracked, the utterance just started, which
    is tracked exactly when the backend returned audio and the decoder
    accepted it. *)
Theorem speakText_stops_first_and_swallows
    (env : ProcessEnv)
    (backend : GoogleGenAI -> GenerateContentParameters -> Outcome GenerateContentResponse)
    (decode : string -> Outcome AudioBuffer)
    (text : string) (persona : VoicePersona) (w : World) :
  let ai := {| apiKey := API_KEY env |} in
  let req := speakRequest text persona in
  speakText_call env text persona w
    = (Resolved tt, silenced w, stopEvents (tracked w) ++ [EvGenerateContent ai req])
  /\ (forall settled w1,
        let r := speakText_onResponse settled w1 in
        (exists decoding, outcomeOf r = Resolved decoding)
        /\ tracked (worldOf r) = tracked w1
        /\ cursor (worldOf r) = cursor w1
        /\ startTimes (eventsOf r) = []
        /\ (forall n, ~ In (EvSourceStop n) (eventsOf r))
        /\ (forall m, settled = Rejected (Error m) ->
              r = (Resolved None, w1, [EvConsoleError ("TTS failed: " ++ m)%string])))
  /\ (forall buf w2,
        let r := speakText_onDecoded (Resolved buf) w2 in
        outcomeOf r = Resolved tt
        /\ cursor (worldOf r) = cursor w2
        /\ tracked (worldOf r) = setAdd (utterance w2 buf) (tracked w2)
        /\ eventsOf r = [EvSourceStart (nextNodeId w2) (currentTime w2)])
  /\ (forall m w2,
        speakText_onDecoded (Rejected (Error m)) w2
        = (Resolved tt, w2, [EvConsoleError ("TTS failed: " ++ m)%string]))
  /\ speakText env backend decode text persona w
     = speakText_uninterrupted env backend decode text persona w
  /\ (let r := speakText env backend decode text persona w in
      outcomeOf r = Resolved tt
      /\ (exists rest,
            eventsOf r = stopEvents (tracked w) ++ EvGenerateContent ai req :: rest)
      /\ cursor (worldOf r) = 0
      /\ (tracked (worldOf r) = []
          \/ exists buf, tracked (worldOf r) = [utterance w buf])
      /\ (forall response b buf,
            backend ai req = Resolved response ->
            responseAudio response = Some b ->
            Js.truthy_string b = true ->
            decode b = Resolved buf ->
            contextPaired w ->
            tracked (worldOf r) = [utterance w buf]
            /\ startTimes (eventsOf r) = [currentTime w]
            /\ consoleErrors (eventsOf r) = [])
      /\ (forall m,
            backend ai req = Rejected (Error m) ->
            tracked (worldOf r) = []
            /\ startTimes (eventsOf r) = []
            /\ consoleErrors (eventsOf r) = ["TTS failed: " ++ m]%string)
      /\ (forall response b m,
            backend ai req = Resolved response ->
            responseAudio response = Some b ->
            Js.truthy_string b = true ->
            decode b = Rejected (Error m) ->
            contextPaired w ->
            tracked (worldOf r) = []
            /\ startTimes (eventsOf r) = []
            /\ consoleErrors (eventsOf r) = ["TTS failed: " ++ m]%string)).
Proof.
  intros ai req.
  split; [apply speakText_call_run|].
  split.
  { intros settled w1 r.
    destruct (speakText_onResponse_run settled w1)
      as [H1 [H2 [H3 [_ [_ [H4 [H5 H6]]]]]]].
    fold r in H1, H2, H3, H4, H5, H6.
    split; [exact H1|]. split; [exact H2|]. split; [exact H3|].
    split; [exact H4|]. split; [exact H5|].
    intros m ->. exact H6. }
  split.
  { intros buf w2 r.
    destruct (speakText_onDecoded_run (Resolved buf) w2) as [H1 [H2 [H3 H4]]].
    fold r in H1, H2, H3, H4. repeat split; assumption. }
  split; [intros m w2; reflexivity|].
  split; [apply speakText_parts|].
  exact (speakText_run env backend decode text persona w).
Qed.

Lemma speakText_stops_first_and_swallows_witness :
  (tracked (worldOf (speakText envUnset (backendReplies (audioResponse "abc"))
                       decodeByLength "hi" Zephyr busyWorld))
     = [utterance busyWorld {| duration := inject_Z 3 |}]
   /\ startTimes (eventsOf (speakText envUnset (backendReplies (audioResponse "abc"))
                              decodeByLength "hi" Zephyr busyWorld))
      = [currentTime busyWorld]
   /\ consoleErrors (eventsOf (speakText envUnset (backendReplies (audioResponse "abc"))
                                 decodeByLength "hi" Zephyr busyWorld))
      = [])
  /\ (tracked (worldOf (speakText envUnset (backendFails "API key not valid")
                          decodeByLength "hi" Zephyr busyWorld))
        = []
      /\ startTimes (eventsOf (speakText envUnset (backendFails "API key not valid")
                                 decodeByLength "hi" Zephyr busyWorld))
         = []
      /\ consoleErrors (eventsOf (speakText envUnset (backendFails "API key not valid")
                                    decodeByLength "hi" Zephyr busyWorld))
         = ["TTS failed: API key not valid"])
  /\ speakText_onResponse (Rejected (Error "API key not valid")) busyWorld
     = (Resolved None, busyWorld, [EvConsoleError "TTS failed: API key not valid"]).
Proof.
  pose proof (speakText_stops_first_and_swallows envUnset
                (backendReplies (audioResponse "abc")) decodeByLength
                "hi" Zephyr busyWorld) as Hok.
  pose proof (speakText_stops_first_and_swallows envUnset
                (backendFails "API key not valid") decodeByLength
                "hi" Zephyr busyWorld) as Hfail.
  cbv zeta in Hok, Hfail.
  destruct Hok as [_ [_ [_ [_ [_ [_ [_ [_ [_ [Hok _]]]]]]]]]].
  destruct Hfail as [_ [Hresume [_ [_ [_ [_ [_ [_ [_ [_ [Hfail _]]]]]]]]]]].
  split; [|split].
  - apply (Hok (audioResponse "abc") "abc" {| duration := inject_Z 3 |}).
    + reflexivity.
    + reflexivity.
    + reflexivity.
    + reflexivity.
    + unfold contextPaired. simpl. split; intros H; discriminate H.
  - apply (Hfail "API key not valid"). reflexivity.
  - destruct (Hresume (Rejected (Error "API key not valid")) busyWorld)
      as [_ [_ [_ [_ [_ H]]]]].
    exact (H "API key not valid" eq_refl).
Defined.

(** Where the claim as stated fails: a second call made while the first
    awaits its request stops only what was playing then; when the two
    requests have settled both utterances have been started, neither
    has been stopped, and both are tracked. *)
Lemma overlapping_speakText_counterexample :
  let r := overlappingCalls envBoth decodeByLength
             (Resolved (audioResponse "abc")) (Resolved (audioResponse "abcd"))
             busyWorld in
  outcomeOf r = Resolved tt
  /\ eventsOf r
     = [EvSourceStop 0; EvSourceStop 1;
        EvGenerateContent {| apiKey := "k1" |} (speakRequest "one" Zephyr);
        EvGenerateContent {| apiKey := "k1" |} (speakRequest "two" Zephyr);
        EvSourceStart 2 6; EvSourceStart 3 6]
  /\ tracked (worldOf r)
     = [{| nodeId := 2%nat; buffer := {| duration := inject_Z 3 |};
           playbackRate := 1; startedAt := Some 6 |};
        {| nodeId := 3%nat; buffer := {| duration := inject_Z 4 |};
           playbackRate := 1; startedAt := Some 6 |}]
  /\ List.length (tracked (worldOf r)) = 2%nat.
Proof. repeat split. Qed.

(** *** The schedule of a turn, in the code's arithmetic *)

(** Comparisons of doubles. *)

Lemma SFcompare_refl (x : spec_float) :
  SFcompare x x = match x with S754_nan => None | _ => Some Eq end.
Proof.
  destruct x as [s|s| |s m e]; cbn; try reflexivity.
  - destruct s; reflexivity.
  - rewrite Z.compare_refl.
    assert (H : PosDef.Pos.compare_cont Eq m m = Eq) by apply Pos.compare_cont_refl.
    rewrite H. destruct s; reflexivity.
Qed.

Lemma SFcompare_antisym (x y : spec_float) :
  SFcompare y x = option_map CompOpp (SFcompare x y).
Proof.
  assert (Hp : forall m1 m2,
             PosDef.Pos.compare_cont Eq m2 m1
             = CompOpp (PosDef.Pos.compare_cont Eq m1 m2)).
  { intros m1 m2. exact (Pos.compare_antisym m1 m2). }
  destruct x as [s1|s1| |s1 m1 e1], y as [s2|s2| |s2 m2 e2]; cbn;
    try reflexivity;
    try (destruct s1; reflexivity);
    try (destruct s2; reflexivity);
    try (destruct s1, s2; reflexivity).
  rewrite (Z.compare_antisym e1 e2), (Hp m1 m2).
  destruct s1, s2, (e1 ?= e2)%Z; cbn; try reflexivity;
    rewrite ?CompOpp_involutive; reflexivity.
Qed.

(** Rounding to the format, as [SpecFloat] defines it. *)

Local Open Scope Z_scope.

Lemma shr_1_m (mrs : shr_record) :
  0 <= shr_m mrs -> shr_m (shr_1 mrs) = shr_m mrs / 2 /\ 0 <= shr_m (shr_1 mrs).
Proof.
  destruct mrs as [m r s]. cbn [shr_m]. intros H.
  destruct m as [|p|p]; [split; reflexivity| |lia].
  destruct p as [p|p|]; cbn [shr_1 shr_m].
  - split; [|lia]. apply (Z.div_unique _ _ _ 1); lia.
  - split; [|lia]. apply (Z.div_unique _ _ _ 0); lia.
  - split; reflexivity.
Qed.

Lemma pow2_double (n : Z) : 0 <= n -> 2 ^ (2 * n) = 2 ^ n * 2 ^ n.
Proof.
  intros H. replace (2 * n) with (n + n) by lia. apply Z.pow_add_r; lia.
Qed.

Lemma pow2_double_succ (n : Z) : 0 <= n -> 2 ^ (2 * n + 1) = 2 * 2 ^ n * 2 ^ n.
Proof.
  intros H. rewrite Z.pow_add_r, pow2_double by lia. change (2 ^ 1) with 2. ring.
Qed.

Lemma iter_shr_1_m (p : positive) (mrs : shr_record) :
  0 <= shr_m mrs ->
  shr_m (SpecFloat.iter_pos shr_1 p mrs) = shr_m mrs / 2 ^ Z.pos p
  /\ 0 <= shr_m (SpecFloat.iter_pos shr_1 p mrs).
Proof.
  revert mrs. induction p as [p IH|p IH|]; intros mrs H; cbn [SpecFloat.iter_pos].
  - destruct (shr_1_m mrs H) as [E1 H1].
    destruct (IH _ H1) as [E2 H2]. destruct (IH _ H2) as [E3 H3].
    split; [|exact H3]. rewrite E3, E2, E1.
    assert (Hp : 0 < 2 ^ Z.pos p) by (apply Z.pow_pos_nonneg; lia).
    assert (E : 2 ^ Z.pos p~1 = 2 * 2 ^ Z.pos p * 2 ^ Z.pos p).
    { change (Z.pos p~1) with (2 * Z.pos p + 1). apply pow2_double_succ. lia. }
    rewrite E, !Z.div_div by lia. f_equal; ring.
  - destruct (IH _ H) as [E2 H2]. destruct (IH _ H2) as [E3 H3].
    split; [|exact H3]. rewrite E3, E2.
    assert (Hp : 0 < 2 ^ Z.pos p) by (apply Z.pow_pos_nonneg; lia).
    assert (E : 2 ^ Z.pos p~0 = 2 ^ Z.pos p * 2 ^ Z.pos p).
    { change (Z.pos p~0) with (2 * Z.pos p). apply pow2_double. lia. }
    rewrite E, !Z.div_div by lia. f_equal; ring.
  - destruct (shr_1_m mrs H) as [E1 H1]. split; [|exact H1].
    rewrite E1. reflexivity.
Qed.

Lemma digits2_pos_bounds (m : positive) :
  2 ^ (Z.pos (digits2_pos m) - 1) <= Z.pos m < 2 ^ Z.pos (digits2_pos m).
Proof.
  induction m as [m IH|m IH|]; cbn [digits2_pos].
  - rewrite Pos2Z.inj_succ. change (Z.pos m~1) with (2 * Z.pos m + 1).
    replace (Z.succ (Z.pos (digits2_pos m)) - 1) with (Z.succ (Z.pos (digits2_pos m) - 1)) by lia.
    rewrite !Z.pow_succ_r by lia. lia.
  - rewrite Pos2Z.inj_succ. change (Z.pos m~0) with (2 * Z.pos m).
    replace (Z.succ (Z.pos (digits2_pos m)) - 1) with (Z.succ (Z.pos (digits2_pos m) - 1)) by lia.
    rewrite !Z.pow_succ_r by lia. lia.
  - cbn. lia.
Qed.

Lemma Zdigits2_bounds (m : Z) :
  0 < m -> 0 < Zdigits2 m /\ 2 ^ (Zdigits2 m - 1) <= m < 2 ^ Zdigits2 m.
Proof.
  destruct m as [|p|p]; try lia. intros _. cbn [Zdigits2].
  split; [lia|apply digits2_pos_bounds].
Qed.

Lemma iter_xO (m d : positive) :
  Z.pos (Pos.iter xO m d) = Z.pos m * 2 ^ Z.pos d.
Proof.
  apply (Pos.iter_ind _ xO m (fun d r => Z.pos r = Z.pos m * 2 ^ Z.pos d)).
  - change (Z.pos m~0) with (2 * Z.pos m). change (2 ^ 1) with 2. lia.
  - intros p a E. change (Z.pos a~0) with (2 * Z.pos a).
    rewrite E, Pos2Z.inj_succ, Z.pow_succ_r by lia. lia.
Qed.

Lemma shl_align_spec (mx : positive) (ex e' : Z) :
  e' <= ex ->
  snd (shl_align mx ex e') = e'
  /\ Z.pos (fst (shl_align mx ex e')) = Z.pos mx * 2 ^ (ex - e').
Proof.
  intros H. unfold shl_align.
  destruct (e' - ex) as [|d|d] eqn:E; cbn [fst snd].
  - assert (e' = ex) by lia. subst. rewrite Z.sub_diag. cbn. lia.
  - lia.
  - split; [reflexivity|]. rewrite iter_xO. f_equal. f_equal. lia.
Qed.

Lemma shl_align_above (mx : positive) (ex e' : Z) :
  ex <= e' -> shl_align mx ex e' = (mx, ex).
Proof.
  intros H. unfold shl_align. destruct (e' - ex) as [|d|d] eqn:E; try reflexivity. lia.
Qed.

Lemma round_nearest_even_bounds (m : Z) (l : location) :
  m <= round_nearest_even m l <= m + 1.
Proof.
  destruct l as [|[| |]]; cbn; try lia. destruct (Z.even m); lia.
Qed.

Lemma pow2_lt_exponent (a b : Z) : 0 <= b -> 2 ^ a < 2 ^ b -> a < b.
Proof.
  intros Hb H. destruct (Z_lt_le_dec a b) as [L|L]; [exact L|].
  assert (2 ^ b <= 2 ^ a) by (apply Z.pow_le_mono_r; lia). lia.
Qed.

Section Rounding.

Variables prec emax : Z.
Hypothesis prec_pos : 0 < prec.


Lemma fexp_ge_emin (e : Z) : (SpecFloat.emin prec emax) <= (SpecFloat.fexp prec emax) e.
Proof. unfold SpecFloat.fexp. lia. Qed.

Lemma fexp_mono (a b : Z) : a <= b -> (SpecFloat.fexp prec emax) a <= (SpecFloat.fexp prec emax) b.
Proof. unfold SpecFloat.fexp. lia. Qed.

Lemma fexp_above (e : Z) : (SpecFloat.emin prec emax) < (SpecFloat.fexp prec emax) e -> (SpecFloat.fexp prec emax) e = e - prec.
Proof. unfold SpecFloat.fexp. lia. Qed.

Lemma fexp_ge (e : Z) : e - prec <= (SpecFloat.fexp prec emax) e.
Proof. unfold SpecFloat.fexp. lia. Qed.

(** One [shr_fexp] on an exact non-negative mantissa. *)
Lemma shr_fexp_exact (m e : Z) :
  0 <= m ->
  let n := (SpecFloat.fexp prec emax) (Zdigits2 m + e) - e in
  (n <= 0 -> shr_fexp prec emax m e loc_Exact
             = ({| shr_m := m; shr_r := false; shr_s := false |}, e))
  /\ (0 < n -> shr_m (fst (shr_fexp prec emax m e loc_Exact)) = m / 2 ^ n
               /\ snd (shr_fexp prec emax m e loc_Exact) = e + n).
Proof.
  intros Hm n. unfold shr_fexp. fold n. unfold shr, shr_record_of_loc.
  destruct n as [|p|p] eqn:E.
  - split; [reflexivity|lia].
  - split; [lia|]. intros _. cbn [fst snd]. split; [|reflexivity].
    apply (iter_shr_1_m p {| shr_m := m; shr_r := false; shr_s := false |}). exact Hm.
  - split; [reflexivity|lia].
Qed.

Lemma binary_round_aux_packed (sx : bool) (m e : Z) :
  binary_round_aux prec emax sx m e loc_Exact = (packed prec emax) sx ((rounded prec emax) m e).
Proof.
  unfold binary_round_aux, rounded, packed.
  destruct (shr_fexp prec emax m e loc_Exact) as [mrs' e'].
  destruct (shr_fexp prec emax _ e' loc_Exact) as [mrs'' e'']. reflexivity.
Qed.

Lemma pow2_pos (n : Z) : 0 <= n -> 0 < 2 ^ n.
Proof. intros H. apply Z.pow_pos_nonneg; lia. Qed.

(** What [(rounded prec emax)] yields for a positive mantissa. *)
Lemma rounded_spec (m e : Z) :
  0 < m ->
  let e1 := (SpecFloat.fexp prec emax) (Zdigits2 m + e) in
  let m3 := fst ((rounded prec emax) m e) in
  let e3 := snd ((rounded prec emax) m e) in
  (e1 <= e -> m3 = m /\ e3 = e)
  /\ (e < e1 ->
      let m1 := m / 2 ^ (e1 - e) in
      ((SpecFloat.emin prec emax) < e1 -> 2 ^ (prec - 1) <= m1)
      /\ exists m2,
           m1 <= m2 <= m1 + 1
           /\ ((e3 = e1 /\ m3 = m2)
               \/ (e3 = e1 + 1 /\ m3 = 2 ^ (prec - 1) /\ m2 = 2 ^ prec))).
Proof.
  intros Hm e1 m3 e3. subst m3 e3. unfold rounded.
  destruct (Zdigits2_bounds m Hm) as [Hd [Hlo Hhi]].
  destruct (shr_fexp_exact m e (Z.lt_le_incl _ _ Hm)) as [Hsame Hshift].
  fold e1 in Hsame, Hshift.
  split.
  - intros Hle. rewrite (Hsame ltac:(lia)). cbn [shr_m loc_of_shr_record round_nearest_even].
    destruct (shr_fexp_exact m e (Z.lt_le_incl _ _ Hm)) as [Hsame2 _].
    fold e1 in Hsame2. rewrite (Hsame2 ltac:(lia)). split; reflexivity.
  - intros Hlt. cbv zeta. set (m1 := m / 2 ^ (e1 - e)).
    destruct (Hshift ltac:(lia)) as [E1 E2].
    destruct (shr_fexp prec emax m e loc_Exact) as [mrs' e'] eqn:Es.
    cbn [fst snd] in E1, E2.
    replace (e + (e1 - e)) with e1 in E2 by lia. subst e'.
    fold m1 in E1.
    assert (Hn : 0 < e1 - e) by lia.
    assert (Hpn : 0 < 2 ^ (e1 - e)) by (apply pow2_pos; lia).
    assert (Hm1 : 0 <= m1) by (apply Z.div_pos; lia).
    (* m1 < 2 ^ prec *)
    assert (Hm1hi : m1 < 2 ^ prec).
    { apply Z.div_lt_upper_bound; [exact Hpn|].
      rewrite <- Z.pow_add_r by lia.
      eapply Z.lt_le_trans; [exact Hhi|].
      apply Z.pow_le_mono_r; [lia|]. pose proof (fexp_ge (Zdigits2 m + e)). lia. }
    assert (Hnorm : (SpecFloat.emin prec emax) < e1 -> 2 ^ (prec - 1) <= m1).
    { intros Habove. pose proof (fexp_above _ Habove) as Ee1. fold e1 in Ee1.
      apply Z.div_le_lower_bound; [exact Hpn|].
      rewrite <- Z.pow_add_r by lia.
      eapply Z.le_trans; [|exact Hlo].
      apply Z.pow_le_mono_r; lia. }
    split; [exact Hnorm|].
    set (m2 := round_nearest_even (shr_m mrs') (loc_of_shr_record mrs')).
    pose proof (round_nearest_even_bounds (shr_m mrs') (loc_of_shr_record mrs')) as Hb.
    fold m2 in Hb. rewrite E1 in Hb.
    exists m2. split; [exact Hb|].
    assert (Hm2 : 0 <= m2) by lia.
    destruct (shr_fexp_exact m2 e1 Hm2) as [Hsame2 Hshift2].
    pose proof (fexp_ge_emin (Zdigits2 m + e)) as Hemin. fold e1 in Hemin.
    destruct (Z.eq_dec m2 0) as [Hz|Hnz].
    + left. rewrite Hz in *. cbn [Zdigits2] in Hsame2.
      rewrite Hsame2; [split; reflexivity|].
      unfold SpecFloat.fexp. cbn [Z.add]. lia.
    + assert (Hm2pos : 0 < m2) by lia.
      destruct (Zdigits2_bounds m2 Hm2pos) as [Hd2 [Hlo2 Hhi2]].
      assert (Hd2le : Zdigits2 m2 <= prec + 1).
      { assert (2 ^ (Zdigits2 m2 - 1) < 2 ^ (prec + 1)).
        { eapply Z.le_lt_trans; [exact Hlo2|].
          eapply Z.le_lt_trans; [apply (proj2 Hb)|].
          rewrite Z.pow_add_r by lia. change (2 ^ 1) with 2. lia. }
        apply pow2_lt_exponent in H; lia. }
      destruct (Z_le_gt_dec ((SpecFloat.fexp prec emax) (Zdigits2 m2 + e1) - e1) 0) as [Hn2|Hn2].
      * left. rewrite (Hsame2 Hn2). split; reflexivity.
      * right.
        assert (En2 : (SpecFloat.fexp prec emax) (Zdigits2 m2 + e1) - e1 = 1).
        { unfold SpecFloat.fexp in *. lia. }
        assert (Ed2 : Zdigits2 m2 = prec + 1).
        { unfold SpecFloat.fexp in *. lia. }
        destruct (Hshift2 ltac:(lia)) as [F1 F2].
        rewrite En2 in F1, F2.
        destruct (shr_fexp prec emax m2 e1 loc_Exact) as [mrs'' e''].
        cbn [fst snd] in *. 
        assert (Em2 : m2 = 2 ^ prec).
        { rewrite Ed2 in Hlo2. replace (prec + 1 - 1) with prec in Hlo2 by lia. lia. }
        split; [exact F2|]. split; [|exact Em2].
        rewrite F1, Em2. change (2 ^ 1) with 2.
        replace prec with (Z.succ (prec - 1)) at 1 by lia.
        rewrite Z.pow_succ_r by lia.
        rewrite Z.mul_comm, Z.div_mul by lia. reflexivity.
Qed.

Lemma Zdigits2_unique (m d : Z) :
  0 < m -> 2 ^ (d - 1) <= m < 2 ^ d -> Zdigits2 m = d.
Proof.
  intros Hm [Hlo Hhi].
  destruct (Zdigits2_bounds m Hm) as [Hd [Hlo2 Hhi2]].
  assert (0 < d).
  { destruct (Z_lt_le_dec 0 d) as [L|L]; [exact L|].
    assert (2 ^ d <= 1).
    { destruct d as [|p|p]; [cbn; lia| lia |rewrite Z.pow_neg_r; lia]. }
    lia. }
  assert (d - 1 < Zdigits2 m) by (apply pow2_lt_exponent; lia).
  assert (Zdigits2 m - 1 < d) by (apply pow2_lt_exponent; lia).
  lia.
Qed.

Lemma bounded_canonical (m : positive) (e : Z) :
  bounded prec emax m e = true ->
  (SpecFloat.fexp prec emax) (Z.pos (digits2_pos m) + e) = e /\ e <= emax - prec.
Proof.
  unfold bounded, canonical_mantissa. intros H.
  apply andb_true_iff in H. destruct H as [H1 H2].
  apply Z.eqb_eq in H1. apply Z.leb_le in H2. split; assumption.
Qed.

Lemma binary_round_packed (sx : bool) (m : positive) (e : Z) :
  binary_round prec emax sx m e
  = (packed prec emax) sx ((rounded prec emax)
      (Z.pos (fst (shl_align m e ((SpecFloat.fexp prec emax) (Z.pos (digits2_pos m) + e)))))
      (snd (shl_align m e ((SpecFloat.fexp prec emax) (Z.pos (digits2_pos m) + e))))).
Proof.
  unfold binary_round.
  destruct (shl_align m e _) as [mz ez]. apply binary_round_aux_packed.
Qed.

Lemma compare_finite_pos (p mx : positive) (e3 ex : Z) :
  ex < e3 \/ (e3 = ex /\ Z.pos mx <= Z.pos p) ->
  SFcompare (S754_finite false p e3) (S754_finite false mx ex) <> Some Lt.
Proof.
  intros H. cbn [SFcompare]. destruct H as [H|[-> H]].
  - rewrite (proj2 (Z.compare_gt_iff e3 ex) H). discriminate.
  - rewrite Z.compare_refl, Pos.compare_cont_spec. cbn [Pos.switch_Eq].
    destruct (Pos.compare_spec p mx) as [E|L|G]; try discriminate. lia.
Qed.

Lemma compare_finite_neg (p mx : positive) (e3 ex : Z) :
  e3 < ex \/ (e3 = ex /\ Z.pos p <= Z.pos mx) ->
  SFcompare (S754_finite true p e3) (S754_finite true mx ex) <> Some Lt.
Proof.
  intros H. cbn [SFcompare]. destruct H as [H|[-> H]].
  - rewrite (proj2 (Z.compare_lt_iff e3 ex) H). discriminate.
  - rewrite Z.compare_refl, Pos.compare_cont_spec. cbn [Pos.switch_Eq].
    destruct (Pos.compare_spec p mx) as [E|L|G]; cbn; try discriminate. lia.
Qed.

(** Rounding a value that is not below a representable one does not go
    below it. *)
Lemma round_ge (mx m : positive) (ex e : Z) :
  bounded prec emax mx ex = true ->
  e <= ex ->
  Z.pos mx * 2 ^ (ex - e) <= Z.pos m ->
  SFcompare (binary_round prec emax false m e) (S754_finite false mx ex) <> Some Lt.
Proof.
  intros Hb He Hle.
  destruct (bounded_canonical mx ex Hb) as [Hcan Hmax].
  destruct (digits2_pos_bounds mx) as [Hxlo Hxhi].
  destruct (digits2_pos_bounds m) as [Hmlo Hmhi].
  set (e1 := (SpecFloat.fexp prec emax) (Z.pos (digits2_pos m) + e)).
  assert (Hk : 0 < 2 ^ (ex - e)) by (apply pow2_pos; lia).
  assert (HD : Z.pos (digits2_pos mx) + ex <= Z.pos (digits2_pos m) + e).
  { assert (2 ^ (Z.pos (digits2_pos mx) - 1 + (ex - e)) < 2 ^ Z.pos (digits2_pos m)).
    { rewrite Z.pow_add_r by lia. nia. }
    apply pow2_lt_exponent in H; lia. }
  assert (He1 : ex <= e1).
  { rewrite <- Hcan. apply fexp_mono. exact HD. }
  rewrite binary_round_packed. fold e1.
  rewrite (shl_align_above m e e1) by lia. cbn [fst snd].
  destruct (rounded_spec (Z.pos m) e ltac:(lia)) as [Hsame Hshift].
  cbn [Zdigits2] in Hsame, Hshift. fold e1 in Hsame, Hshift.
  destruct ((rounded prec emax) (Z.pos m) e) as [m3 e3]. cbn [fst snd] in Hsame, Hshift.
  unfold packed. cbn [fst snd].
  destruct (Z_le_gt_dec e1 e) as [Hc|Hc].
  - destruct (Hsame Hc) as [-> ->].
    assert (e = ex) by lia. subst e.
    rewrite (proj2 (Z.leb_le ex (emax - prec)) Hmax).
    apply compare_finite_pos. right. split; [reflexivity|].
    rewrite Z.sub_diag in Hle. cbn in Hle. lia.
  - destruct (Hshift ltac:(lia)) as [Hnorm [m2 [Hm2 Hcases]]].
    assert (Hm1 : e1 = ex -> Z.pos mx <= Z.pos m / 2 ^ (e1 - e)).
    { intros ->. apply Z.div_le_lower_bound; [exact Hk|]. lia. }
    assert (Hpp : 0 < 2 ^ (prec - 1)) by (apply pow2_pos; lia).
    pose proof (fexp_ge_emin (Z.pos (digits2_pos mx) + ex)) as Hemin.
    rewrite Hcan in Hemin.
    assert (Hm3 : 0 < m3 /\ (ex < e3 \/ (e3 = ex /\ Z.pos mx <= m3))).
    { destruct Hcases as [[-> ->]|[-> [-> _]]].
      - destruct (Z.eq_dec e1 ex) as [E|E].
        + specialize (Hm1 E). split; [lia|]. right. split; [exact E|lia].
        + assert ((SpecFloat.emin prec emax) < e1) by lia. specialize (Hnorm H). split; [lia|left; lia].
      - split; [exact Hpp|left; lia]. }
    destruct Hm3 as [Hpos Hord].
    destruct m3 as [|p|p]; try lia.
    destruct (e3 <=? emax - prec).
    + apply compare_finite_pos. exact Hord.
    + cbn. discriminate.
Qed.

(** Rounding a value that is below a representable one does not go above
    it; here for the magnitudes of negative numbers. *)
Lemma round_le (mx m : positive) (ex e : Z) :
  bounded prec emax mx ex = true ->
  e <= ex ->
  Z.pos m < Z.pos mx * 2 ^ (ex - e) ->
  SFcompare (binary_round prec emax true m e) (S754_finite true mx ex) <> Some Lt.
Proof.
  intros Hb He Hlt.
  destruct (bounded_canonical mx ex Hb) as [Hcan Hmax].
  destruct (digits2_pos_bounds mx) as [Hxlo Hxhi].
  destruct (digits2_pos_bounds m) as [Hmlo Hmhi].
  set (e1 := (SpecFloat.fexp prec emax) (Z.pos (digits2_pos m) + e)).
  assert (Hk : 0 < 2 ^ (ex - e)) by (apply pow2_pos; lia).
  assert (HD : Z.pos (digits2_pos m) + e <= Z.pos (digits2_pos mx) + ex).
  { assert (2 ^ (Z.pos (digits2_pos m) - 1) < 2 ^ (Z.pos (digits2_pos mx) + (ex - e))).
    { rewrite Z.pow_add_r by lia. nia. }
    apply pow2_lt_exponent in H; lia. }
  assert (He1 : e1 <= ex).
  { rewrite <- Hcan. apply fexp_mono. exact HD. }
  pose proof (fexp_ge_emin (Z.pos (digits2_pos m) + e)) as Hemin. fold e1 in Hemin.
  assert (Hxprec : Z.pos (digits2_pos mx) <= prec).
  { unfold SpecFloat.fexp in Hcan. lia. }
  assert (Hxnorm : (SpecFloat.emin prec emax) < ex -> 2 ^ (prec - 1) <= Z.pos mx).
  { intros Habove. replace prec with (Z.pos (digits2_pos mx)); [exact Hxlo|].
    unfold SpecFloat.fexp in Hcan. lia. }
  assert (Hxhi2 : Z.pos mx < 2 ^ prec).
  { eapply Z.lt_le_trans; [exact Hxhi|]. apply Z.pow_le_mono_r; lia. }
  rewrite binary_round_packed. fold e1.
  destruct (Z_le_gt_dec e1 e) as [Hc|Hc].
  - destruct (shl_align_spec m e e1 Hc) as [Es Em].
    destruct (shl_align m e e1) as [mz ez]. cbn [fst snd] in *. subst ez.
    assert (Hkz : 0 < 2 ^ (e - e1)) by (apply pow2_pos; lia).
    assert (Hdz : Zdigits2 (Z.pos mz) = Z.pos (digits2_pos m) + (e - e1)).
    { apply Zdigits2_unique; [lia|]. rewrite Em.
      replace (Z.pos (digits2_pos m) + (e - e1) - 1)
        with (Z.pos (digits2_pos m) - 1 + (e - e1)) by lia.
      rewrite !Z.pow_add_r by lia. nia. }
    destruct (rounded_spec (Z.pos mz) e1 ltac:(lia)) as [Hsame _].
    rewrite Hdz in Hsame.
    replace (Z.pos (digits2_pos m) + (e - e1) + e1)
      with (Z.pos (digits2_pos m) + e) in Hsame by lia.
    fold e1 in Hsame. destruct (Hsame ltac:(lia)) as [E3 E4].
    destruct ((rounded prec emax) (Z.pos mz) e1) as [m3 e3]. cbn [fst snd] in E3, E4.
    subst m3 e3. unfold packed. cbn [fst snd].
    rewrite (proj2 (Z.leb_le e1 (emax - prec))) by lia.
    apply compare_finite_neg.
    destruct (Z.eq_dec e1 ex) as [E|E]; [right|left; lia].
    split; [exact E|]. assert (e = ex) by lia. subst e.
    rewrite E, Z.sub_diag in Em. rewrite Z.sub_diag in Hlt. cbn in Em, Hlt. lia.
  - rewrite (shl_align_above m e e1) by lia. cbn [fst snd].
    destruct (rounded_spec (Z.pos m) e ltac:(lia)) as [_ Hshift].
    cbn [Zdigits2] in Hshift. fold e1 in Hshift.
    destruct (Hshift ltac:(lia)) as [_ [m2 [Hm2 Hcases]]].
    destruct ((rounded prec emax) (Z.pos m) e) as [m3 e3]. cbn [fst snd] in Hcases.
    unfold packed. cbn [fst snd].
    assert (Hm1 : e1 = ex -> Z.pos m / 2 ^ (e1 - e) < Z.pos mx).
    { intros ->. apply Z.div_lt_upper_bound; [exact Hk|]. lia. }
    assert (Hord : e3 <= ex /\ (e3 < ex \/ (e3 = ex /\ m3 <= Z.pos mx))).
    { destruct Hcases as [[-> ->]|[-> [-> Em2]]].
      - split; [exact He1|].
        destruct (Z.eq_dec e1 ex) as [E|E]; [right|left; lia].
        specialize (Hm1 E). split; [exact E|lia].
      - assert (e1 <> ex).
        { intros E. specialize (Hm1 E). lia. }
        split; [lia|].
        destruct (Z.eq_dec (e1 + 1) ex) as [E|E]; [right|left; lia].
        split; [exact E|]. apply Hxnorm. lia. }
    destruct Hord as [Hle3 Hord].
    destruct m3 as [|p|p].
    + cbn. discriminate.
    + rewrite (proj2 (Z.leb_le e3 (emax - prec))) by lia.
      apply compare_finite_neg. exact Hord.
    + cbn. discriminate.
Qed.

(** Whatever is (rounded prec emax) with a positive sign is not below a negative
    number. *)
Lemma round_pos_above_neg (m mx : positive) (e ex : Z) :
  SFcompare (binary_round prec emax false m e) (S754_finite true mx ex) <> Some Lt.
Proof.
  rewrite binary_round_packed. unfold packed.
  destruct (fst ((rounded prec emax) _ _)) as [|p|p]; cbn; try discriminate.
  destruct (_ <=? _); cbn; discriminate.
Qed.

(** Adding a number that is not negative does not give less. *)
Lemma SFadd_nonneg (x y : spec_float) :
  SpecFloat.valid_binary prec emax x = true ->
  SpecFloat.valid_binary prec emax y = true ->
  SFleb (S754_zero false) y = true ->
  SFltb (SFadd prec emax x y) x = false.
Proof.
  intros Hx Hy Hpos.
  assert (H : SFcompare (SFadd prec emax x y) x <> Some Lt).
  2: { unfold SFltb. destruct (SFcompare _ _) as [[| |]|]; congruence. }
  destruct y as [sy|sy| |sy my ey]; cbn in Hpos; try discriminate.
  - destruct x as [sx|sx| |sx mx ex]; cbn.
    + destruct sx, sy; cbn; discriminate.
    + destruct sx; discriminate.
    + discriminate.
    + rewrite Z.compare_refl, Pos.compare_cont_refl. destruct sx; cbn; discriminate.
  - destruct sy; [discriminate|].
    destruct x as [sx|sx| |sx mx ex]; cbn; try discriminate.
    destruct sx; cbn; discriminate.
  - destruct sy; [discriminate|].
    destruct x as [sx|sx| |sx mx ex]; cbn [SFadd].
    + cbn. discriminate.
    + destruct sx; cbn; discriminate.
    + cbn. discriminate.
    + cbn [SpecFloat.valid_binary] in Hx, Hy.
      destruct (shl_align_spec mx ex (Z.min ex ey) ltac:(lia)) as [_ Emx].
      destruct (shl_align_spec my ey (Z.min ex ey) ltac:(lia)) as [_ Emy].
      set (mx' := fst (shl_align mx ex (Z.min ex ey))) in *.
      set (my' := fst (shl_align my ey (Z.min ex ey))) in *.
      cbn [cond_Zopp].
      destruct sx; cbn [cond_Zopp].
      * destruct (- Z.pos mx' + Z.pos my') as [|p|p] eqn:Es; cbn [binary_normalize].
        -- cbn. discriminate.
        -- apply round_pos_above_neg.
        -- apply round_le; [exact Hx|lia|]. rewrite <- Emx. lia.
      * destruct (Z.pos mx' + Z.pos my') as [|p|p] eqn:Es; try lia.
        cbn [binary_normalize].
        apply round_ge; [exact Hx|lia|]. rewrite <- Emx. lia.
Qed.

End Rounding.

Lemma SFleb_rank (x y : spec_float) :
  x <> S754_nan -> y <> S754_nan ->
  (SFleb x y = true <-> lexle (rank x) (rank y)).
Proof.
  intros Hx Hy. unfold SFleb, lexle.
  destruct x as [s1|s1| |s1 m1 e1], y as [s2|s2| |s2 m2 e2];
    try congruence; cbn [SFcompare rank fst snd];
    rewrite ?Pos.compare_cont_spec; cbn [Pos.switch_Eq];
    destruct s1, s2; cbn [rank fst snd];
    try destruct (Z.compare_spec e1 e2) as [E|L|G];
    try destruct (Pos.compare_spec m1 m2) as [E'|L'|G'];
    cbn;
    (split; intros H;
     [first [discriminate H | lia] | first [reflexivity | exfalso; lia]]).
Qed.

Lemma lexle_trans a b c : lexle a b -> lexle b c -> lexle a c.
Proof. unfold lexle. lia. Qed.

Lemma lexle_total a b : lexle a b \/ lexle b a.
Proof. unfold lexle. lia. Qed.

Lemma SFleb_trans (x y z : spec_float) :
  SFleb x y = true -> SFleb y z = true -> SFleb x z = true.
Proof.
  intros H1 H2.
  assert (Hx : x <> S754_nan) by (intros ->; discriminate H1).
  assert (Hy : y <> S754_nan) by (intros ->; destruct x; discriminate H1).
  assert (Hz : z <> S754_nan) by (intros ->; destruct y; discriminate H2).
  apply (SFleb_rank x z Hx Hz).
  eapply lexle_trans; [apply (SFleb_rank x y Hx Hy), H1|apply (SFleb_rank y z Hy Hz), H2].
Qed.

Lemma SFleb_total (x y : spec_float) :
  x <> S754_nan -> y <> S754_nan -> SFleb x y = true \/ SFleb y x = true.
Proof.
  intros Hx Hy. destruct (lexle_total (rank x) (rank y)) as [H|H].
  - left. apply (SFleb_rank x y Hx Hy), H.
  - right. apply (SFleb_rank y x Hy Hx), H.
Qed.

Lemma SFltb_not_SFleb (x y : spec_float) :
  x <> S754_nan -> y <> S754_nan -> SFltb x y = false -> SFleb y x = true.
Proof.
  intros Hx Hy H. unfold SFltb, SFleb in *. rewrite (SFcompare_antisym x y).
  destruct x as [s1|s1| |s1 m1 e1], y as [s2|s2| |s2 m2 e2]; try congruence;
    destruct (SFcompare _ _) as [[| |]|] eqn:E; cbn in *; try congruence;
    discriminate.
Qed.

Lemma SFleb_not_SFltb (x y : spec_float) :
  SFleb x y = true -> SFltb y x = false.
Proof.
  unfold SFleb, SFltb. rewrite (SFcompare_antisym x y).
  destruct (SFcompare x y) as [[| |]|]; cbn; congruence.
Qed.

Section Division.

Variables prec emax : Z.

Lemma shr_nonneg (mrs : shr_record) (e n : Z) :
  0 <= shr_m mrs -> 0 <= shr_m (fst (shr mrs e n)).
Proof.
  intros H. unfold shr. destruct n as [|p|p]; cbn [fst]; try exact H.
  apply (iter_shr_1_m p mrs H).
Qed.

Lemma shr_record_of_loc_m (m : Z) (l : location) : shr_m (shr_record_of_loc m l) = m.
Proof. destruct l as [|[| |]]; reflexivity. Qed.

Lemma shr_fexp_nonneg (m e : Z) (l : location) :
  0 <= m -> 0 <= shr_m (fst (shr_fexp prec emax m e l)).
Proof.
  intros H. unfold shr_fexp. apply shr_nonneg. rewrite shr_record_of_loc_m. exact H.
Qed.

(** A rounded non-negative mantissa keeps the sign it is given. *)
Lemma binary_round_aux_sign (sx : bool) (m e : Z) (l : location) :
  0 <= m ->
  match binary_round_aux prec emax sx m e l with
  | S754_zero s | S754_infinity s | S754_finite s _ _ => s = sx
  | S754_nan => False
  end.
Proof.
  intros H. unfold binary_round_aux.
  pose proof (shr_fexp_nonneg m e l H) as H1.
  destruct (shr_fexp prec emax m e l) as [mrs' e']. cbn [fst] in H1.
  pose proof (round_nearest_even_bounds (shr_m mrs') (loc_of_shr_record mrs')) as Hb.
  pose proof (shr_fexp_nonneg
                (round_nearest_even (shr_m mrs') (loc_of_shr_record mrs')) e'
                loc_Exact ltac:(lia)) as H2.
  destruct (shr_fexp prec emax _ e' loc_Exact) as [mrs'' e'']. cbn [fst] in H2.
  destruct (shr_m mrs'') as [|p|p]; [reflexivity| |lia].
  destruct (e'' <=? emax - prec); reflexivity.
Qed.

Lemma SFdiv_core_nonneg (m1 m2 : positive) (e1 e2 : Z) :
  0 <= fst (fst (SFdiv_core_binary prec emax (Z.pos m1) e1 (Z.pos m2) e2)).
Proof.
  unfold SFdiv_core_binary.
  set (s := e1 - e2 - _).
  set (m' := match s with Z.pos _ => Z.shiftl (Z.pos m1) s | 0 => Z.pos m1 | Z.neg _ => 0 end).
  assert (Hm' : 0 <= m').
  { subst m'. destruct s as [|p|p]; try lia. apply Z.shiftl_nonneg. lia. }
  pose proof (Z.div_pos m' (Z.pos m2) Hm' ltac:(lia)) as Hq.
  unfold Z.div in Hq.
  destruct (Z.div_eucl m' (Z.pos m2)) as [q r]. exact Hq.
Qed.

(** A number that is not negative divided by a positive one is not
    negative, unless both are infinite. *)
Lemma SFdiv_nonneg (x y : spec_float) :
  SFleb (S754_zero false) x = true ->
  SFltb x (S754_infinity false) = true ->
  SFltb (S754_zero false) y = true ->
  SFleb (S754_zero false) (SFdiv prec emax x y) = true.
Proof.
  intros Hx Hfin Hy.
  destruct y as [sy|sy| |sy my ey]; cbn in Hy; try discriminate;
    (destruct sy; [discriminate|]);
    destruct x as [sx|sx| |sx mx ex]; cbn in Hx, Hfin; try discriminate;
    try (destruct sx; discriminate);
    try (destruct sx; reflexivity).
  destruct sx; [discriminate|]. cbn [SFdiv xorb].
  pose proof (SFdiv_core_nonneg mx my ex ey) as Hq.
  destruct (SFdiv_core_binary prec emax (Z.pos mx) ex (Z.pos my) ey) as [[mz ez] lz].
  cbn [fst] in Hq.
  pose proof (binary_round_aux_sign false mz ez lz Hq) as Hs.
  destruct (binary_round_aux prec emax false mz ez lz) as [s|s| |s m e];
    try contradiction; subst s; reflexivity.
Qed.

End Division.

Local Close Scope Z_scope.

Local Open Scope float_scope.


Lemma ltb_irrefl (x : float) : (x <? x) = false.
Proof.
  rewrite ltb_spec. unfold SFltb. rewrite SFcompare_refl.
  destruct (Prim2SF x); reflexivity.
Qed.







Lemma ltb_nan_l (x : float) : (nan <? x) = false.
Proof. rewrite ltb_spec. reflexivity. Qed.

(** [Math.max]. *)

Lemma Math_max_not_below_l (a b : float) : (Doubles.Math_max a b <? a) = false.
Proof.
  unfold Doubles.Math_max.
  destruct (is_nan a || is_nan b); [apply ltb_nan_l|].
  destruct (b <? a) eqn:Hba; [apply ltb_irrefl|].
  destruct (a <? b) eqn:Hab; [exact Hba|].
  destruct (get_sign a); [exact Hba|apply ltb_irrefl].
Qed.





Lemma Math_max_nan (a b : float) :
  is_nan a = true \/ is_nan b = true -> Doubles.Math_max a b = nan.
Proof.
  intros [H|H]; unfold Doubles.Math_max; rewrite H; [reflexivity|].
  rewrite orb_true_r. reflexivity.
Qed.




(** Sums and quotients of doubles. *)

Lemma add_nonneg_not_below (c y : float) :
  (0 <=? y) = true -> (c + y <? c) = false.
Proof.
  intros H. rewrite ltb_spec, add_spec. rewrite leb_spec in H.
  apply SFadd_nonneg; [reflexivity|apply Prim2SF_valid|apply Prim2SF_valid|exact H].
Qed.

Lemma div_nonneg (d s : float) :
  (0 <=? d) = true -> (d <? infinity) = true -> (0 <? s) = true ->
  (0 <=? d / s) = true.
Proof.
  rewrite !leb_spec, !ltb_spec, div_spec. apply SFdiv_nonneg.
Qed.

Lemma leb_trans (x y z : float) :
  (x <=? y) = true -> (y <=? z) = true -> (x <=? z) = true.
Proof. rewrite !leb_spec. apply SFleb_trans. Qed.

Lemma is_nan_spec (x : float) : is_nan x = false <-> Prim2SF x <> S754_nan.
Proof.
  unfold is_nan. rewrite FloatAxioms.eqb_spec. unfold SFeqb.
  destruct (Prim2SF x) as [s|s| |s m e]; cbn;
    rewrite ?Z.compare_refl, ?Pos.compare_cont_refl;
    try (destruct s; cbn); split; intros H; congruence.
Qed.

Lemma not_ltb_leb (x y : float) :
  is_nan x = false -> is_nan y = false -> (x <? y) = false -> (y <=? x) = true.
Proof.
  rewrite !is_nan_spec, ltb_spec, leb_spec. apply SFltb_not_SFleb.
Qed.

Lemma leb_then_not_ltb (x y : float) : (x <=? y) = true -> (y <? x) = false.
Proof. rewrite leb_spec, ltb_spec. apply SFleb_not_SFltb. Qed.

Lemma ltb_of_nan (x y : float) : is_nan x = true -> (x <? y) = false.
Proof.
  intros H. rewrite ltb_spec. unfold SFltb.
  destruct (Prim2SF x) as [s|s| |s m e] eqn:E; [| | reflexivity|];
    exfalso; assert (N : is_nan x = false) by (apply is_nan_spec; rewrite E; discriminate);
    congruence.
Qed.

Lemma add_nan_l (x y : float) : is_nan x = true -> is_nan (x + y) = true.
Proof.
  intros H. destruct (is_nan (x + y)) eqn:E; [reflexivity|].
  apply is_nan_spec in E. rewrite add_spec in E.
  destruct (Prim2SF x) as [s|s| |s m e] eqn:Ex; [| |exfalso; apply E; reflexivity|];
    exfalso; assert (N : is_nan x = false) by (apply is_nan_spec; rewrite Ex; discriminate);
    congruence.
Qed.

(** The cursor over a turn. *)

Lemma Math_max_is_nan (a b : float) :
  is_nan (Doubles.Math_max a b) = false -> is_nan a = false /\ is_nan b = false.
Proof.
  unfold Doubles.Math_max.
  destruct (is_nan a), (is_nan b); cbn [orb]; intros H;
    try (vm_compute in H; discriminate H); split; reflexivity.
Qed.

Lemma add_is_nan (x y : float) : is_nan (x + y) = false -> is_nan x = false.
Proof.
  intros H. destruct (is_nan x) eqn:E; [|reflexivity].
  rewrite (add_nan_l x y E) in H. discriminate H.
Qed.

Lemma leb_refl_not_nan (x : float) : is_nan x = false -> (x <=? x) = true.
Proof. intros H. apply not_ltb_leb; [exact H|exact H|apply ltb_irrefl]. Qed.

Lemma scheduleChunk_not_back (speed c : float) (chunk : float * float) :
  (0 <=? snd chunk / speed) = true ->
  let next := snd (Doubles.scheduleChunk speed c chunk) in
  (next <? c) = false
  /\ (is_nan next = false -> is_nan c = false /\ (c <=? next) = true).
Proof.
  intros Hq next.
  assert (Hgoal : is_nan next = false -> is_nan c = false /\ (c <=? next) = true).
  { subst next. unfold Doubles.scheduleChunk, Doubles.startAndAdvance,
      Doubles.advancedCursor, Doubles.raisedCursor. cbn [fst snd]. intros Hn.
    pose proof (add_is_nan _ _ Hn) as Hr.
    destruct (Math_max_is_nan _ _ Hr) as [Hc _].
    split; [exact Hc|].
    apply (leb_trans _ (Doubles.Math_max c (fst chunk))).
    - apply not_ltb_leb; [exact Hr|exact Hc|apply Math_max_not_below_l].
    - apply not_ltb_leb; [exact Hn|exact Hr|].
      apply add_nonneg_not_below. exact Hq. }
  split; [|exact Hgoal].
  destruct (is_nan next) eqn:E; [apply ltb_of_nan; exact E|].
  apply leb_then_not_ltb, Hgoal. reflexivity.
Qed.

Lemma cursorAfter_nan (speed c : float) (chunks : list (float * float)) :
  is_nan c = true -> is_nan (Doubles.cursorAfter speed c chunks) = true.
Proof.
  revert c. induction chunks as [|chunk rest IH]; intros c H; [exact H|].
  cbn [Doubles.cursorAfter]. apply IH.
  unfold Doubles.scheduleChunk, Doubles.startAndAdvance, Doubles.advancedCursor,
    Doubles.raisedCursor. cbn [fst snd].
  apply add_nan_l. rewrite Math_max_nan by (left; exact H). reflexivity.
Qed.

(** With quotients that are not negative, a turn never leaves the cursor
    behind where it found it. *)
Lemma cursorAfter_not_back (speed c : float) (chunks : list (float * float)) :
  (forall chunk, In chunk chunks -> (0 <=? snd chunk / speed) = true) ->
  (Doubles.cursorAfter speed c chunks <? c) = false
  /\ (is_nan (Doubles.cursorAfter speed c chunks) = false ->
      is_nan c = false /\ (c <=? Doubles.cursorAfter speed c chunks) = true).
Proof.
  revert c. induction chunks as [|chunk rest IH]; intros c Hall.
  - cbn [Doubles.cursorAfter]. split; [apply ltb_irrefl|].
    intros H. split; [exact H|apply leb_refl_not_nan, H].
  - cbn [Doubles.cursorAfter].
    destruct (scheduleChunk_not_back speed c chunk (Hall chunk (or_introl eq_refl)))
      as [_ Hstep].
    destruct (IH (snd (Doubles.scheduleChunk speed c chunk))
                 (fun x Hx => Hall x (or_intror Hx))) as [_ Hrest].
    assert (Hgoal :
      is_nan (Doubles.cursorAfter speed
                (snd (Doubles.scheduleChunk speed c chunk)) rest) = false ->
      is_nan c = false
      /\ (c <=? Doubles.cursorAfter speed
                  (snd (Doubles.scheduleChunk speed c chunk)) rest) = true).
    { intros Hn. destruct (Hrest Hn) as [Hn1 Hle1].
      destruct (Hstep Hn1) as [Hc Hle]. split; [exact Hc|].
      eapply leb_trans; eassumption. }
    split; [|exact Hgoal].
    destruct (is_nan (Doubles.cursorAfter speed
                        (snd (Doubles.scheduleChunk speed c chunk)) rest)) eqn:E.
    + apply ltb_of_nan. exact E.
    + apply leb_then_not_ltb, Hgoal. reflexivity.
Qed.





(** The turn of the witness in full, and the rationals its doubles stand
    for: the second start is just below 16/3. *)
Example thirds_turn_starts :
  Doubles.startArguments 3 0 thirdsTurn = [5; 0x1.5555555555555p+2]
  /\ Doubles.cursorAfter 3 0 thirdsTurn = 0x1.6aaaaaaaaaaaap+2
  /\ Doubles.exactly 0x1.5555555555555p+2
     = Some (6004799503160661 # 1125899906842624)%Q
  /\ (6004799503160661 # 1125899906842624 < 16 # 3)%Q
  /\ Doubles.startArguments 0 0 thirdsTurn = [5; infinity]
  /\ Doubles.startArguments 3 0 [(5, 0 / 0); (6, 1)] = [5; nan].
Proof. repeat split. Qed.

Local Close Scope float_scope.

(** *** Computations that respect a relation on worlds *)

Section Respecting.

Variable R : World -> World -> Prop.
Hypothesis R_refl : forall w, R w w.
Hypothesis R_trans : forall a b c, R a b -> R b c -> R a c.

Lemma respects_ret {A : Type} (a : A) : Respects R (ret a).
Proof. intros w. apply R_refl. Qed.

Lemma respects_throw {A : Type} (e : JsError) : Respects R (@throw A e).
Proof. intros w. apply R_refl. Qed.

Lemma respects_emit (e : Event) : Respects R (emit e).
Proof. intros w. apply R_refl. Qed.

Lemma respects_await {A : Type} (p : Outcome A) : Respects R (await p).
Proof. intros w. apply R_refl. Qed.

Lemma respects_getService : Respects R getService.
Proof. intros w. apply R_refl. Qed.

Lemma respects_getLive : Respects R getLive.
Proof. intros w. apply R_refl. Qed.

Lemma respects_getCurrentTime : Respects R getCurrentTime.
Proof. intros w. apply R_refl. Qed.

Lemma respects_bind {A B : Type} (m : M A) (k : A -> M B) :
  Respects R m -> (forall a, Respects R (k a)) -> Respects R (bind m k).
Proof.
  intros Hm Hk w. specialize (Hm w). unfold bind, worldOf in *.
  destruct (m w) as [[[a|e] w1] l1]; cbn in *; [|exact Hm].
  specialize (Hk a w1). unfold worldOf in Hk.
  destruct (k a w1) as [[r w2] l2]. cbn in *. eapply R_trans; eassumption.
Qed.

Lemma respects_try_catch {A : Type} (m : M A) (h : JsError -> M A) :
  Respects R m -> (forall e, Respects R (h e)) -> Respects R (try_catch m h).
Proof.
  intros Hm Hh w. specialize (Hm w). unfold try_catch, worldOf in *.
  destruct (m w) as [[[a|e] w1] l1]; cbn in *; [exact Hm|].
  specialize (Hh e w1). unfold worldOf in Hh.
  destruct (h e w1) as [[r w2] l2]. cbn in *. eapply R_trans; eassumption.
Qed.

Lemma respects_forEach {A : Type} (f : A -> M unit) (l : list A) :
  (forall x, Respects R (f x)) -> Respects R (forEach f l).
Proof.
  intros Hf. induction l as [|x l IH]; cbn [forEach].
  - apply respects_ret.
  - apply respects_bind; [apply Hf|intros _; exact IH].
Qed.

Lemma respects_when (b : bool) (m : M unit) :
  Respects R m -> Respects R (when b m).
Proof. intros Hm. destruct b; [exact Hm|apply respects_ret]. Qed.

Lemma respects_discard {A : Type} (m : M A) :
  Respects R m -> Respects R (discard m).
Proof. intros Hm. apply respects_bind; [exact Hm|intros a; apply respects_ret]. Qed.

End Respecting.

Lemma respects_weaken {A : Type} (R S : World -> World -> Prop) (m : M A) :
  (forall a b, R a b -> S a b) -> Respects R m -> Respects S m.
Proof. intros HRS Hm w. apply HRS, Hm. Qed.

Lemma keepsPlayback_refl w : keepsPlayback w w.
Proof. unfold keepsPlayback. tauto. Qed.

Lemma keepsPlayback_trans a b c :
  keepsPlayback a b -> keepsPlayback b c -> keepsPlayback a c.
Proof.
  unfold keepsPlayback. intros H1 H2 Ha.
  destruct (H1 Ha) as [Hb [E1 E2]]. destruct (H2 Hb) as [Hc [E3 E4]].
  repeat split; congruence.
Qed.

Lemma extendsPlayback_refl w : extendsPlayback w w.
Proof.
  unfold extendsPlayback. intros H. split; [exact H|].
  split; [apply Qle_refl|apply incl_refl].
Qed.

Lemma extendsPlayback_trans a b c :
  extendsPlayback a b -> extendsPlayback b c -> extendsPlayback a c.
Proof.
  unfold extendsPlayback. intros H1 H2 Ha.
  destruct (H1 Ha) as [Hb [E1 E2]]. destruct (H2 Hb) as [Hc [E3 E4]].
  split; [exact Hc|].
  split; [eapply Qle_trans; eassumption|eapply incl_tran; eassumption].
Qed.

Lemma advancesCursor_refl w : advancesCursor w w.
Proof. unfold advancesCursor. intros H. split; [exact H|apply Qle_refl]. Qed.

Lemma advancesCursor_trans a b c :
  advancesCursor a b -> advancesCursor b c -> advancesCursor a c.
Proof.
  unfold advancesCursor. intros H1 H2 Ha.
  destruct (H1 Ha) as [Hb E1]. destruct (H2 Hb) as [Hc E3].
  split; [exact Hc|eapply Qle_trans; eassumption].
Qed.

Lemma keeps_extends a b : keepsPlayback a b -> extendsPlayback a b.
Proof.
  unfold keepsPlayback, extendsPlayback. intros H Ha.
  destruct (H Ha) as [Hb [E1 E2]]. rewrite E1, E2.
  split; [exact Hb|]. split; [apply Qle_refl|apply incl_refl].
Qed.

Lemma extends_advances a b : extendsPlayback a b -> advancesCursor a b.
Proof. unfold extendsPlayback, advancesCursor. intros H Ha. destruct (H Ha); tauto. Qed.

Lemma keeps_advances a b : keepsPlayback a b -> advancesCursor a b.
Proof. intros H. apply extends_advances, keeps_extends, H. Qed.


(** *** What each part of the service does to the playback state *)

Ltac keeps_step :=
  match goal with
  | |- Respects _ (bind _ _) => apply (respects_bind _ keepsPlayback_trans)
  | |- Respects _ (try_catch _ _) => apply (respects_try_catch _ keepsPlayback_trans)
  | |- Respects _ (forEach _ _) =>
      apply (respects_forEach _ keepsPlayback_refl keepsPlayback_trans)
  | |- Respects _ (when _ _) => apply (respects_when _ keepsPlayback_refl)
  | |- Respects _ (discard _) =>
      apply (respects_discard _ keepsPlayback_refl keepsPlayback_trans)
  | |- Respects _ (ret _) => apply (respects_ret _ keepsPlayback_refl)
  | |- Respects _ (throw _) => apply (respects_throw _ keepsPlayback_refl)
  | |- Respects _ (emit _) => apply (respects_emit _ keepsPlayback_refl)
  | |- Respects _ (await _) => apply (respects_await _ keepsPlayback_refl)
  | |- Respects _ getService => apply (respects_getService _ keepsPlayback_refl)
  | |- Respects _ getLive => apply (respects_getLive _ keepsPlayback_refl)
  | |- Respects _ getCurrentTime =>
      apply (respects_getCurrentTime _ keepsPlayback_refl)
  | |- Respects _ (match ?x with _ => _ end) => destruct x
  | |- forall _, _ => intro
  end.

Lemma keeps_modifyLive f : Respects keepsPlayback (modifyLive f).
Proof. intros w H. cbn. tauto. Qed.

Lemma keeps_createBufferSource : Respects keepsPlayback createBufferSource.
Proof. intros w H. cbn. tauto. Qed.

Lemma keeps_clockAdvance dt : Respects keepsPlayback (clockAdvance dt).
Proof. intros w H. cbn. tauto. Qed.

Lemma keeps_withOutputNode g : Respects keepsPlayback (modifyService (withOutputNode g)).
Proof. intros w H. cbn. tauto. Qed.

Lemma keeps_withAudioContext c g :
  Respects keepsPlayback (modifyService (withAudioContext c g)).
Proof. intros w H. cbn. tauto. Qed.

Lemma keeps_ensureAudioContext : Respects keepsPlayback ensureAudioContext.
Proof.
  unfold ensureAudioContext. repeat keeps_step. apply keeps_withAudioContext.
Qed.

Lemma keeps_setAudioSettings settings :
  0 < speed settings -> Respects keepsPlayback (setAudioSettings settings).
Proof.
  intros Hs. unfold setAudioSettings. repeat keeps_step.
  - intros w H. cbn. tauto.
  - apply keeps_withOutputNode.
Qed.

Lemma keeps_sendChatMessage env backend text model history persona :
  Respects keepsPlayback (sendChatMessage env backend text model history persona).
Proof. unfold sendChatMessage, generateContent. repeat keeps_step. Qed.

Lemma keeps_connectLive env persona history mic :
  Respects keepsPlayback (connectLive env persona history mic).
Proof.
  unfold connectLive. repeat keeps_step;
    first [apply keeps_ensureAudioContext | apply keeps_withOutputNode
          | apply keeps_modifyLive].
Qed.

Lemma keeps_onopen established : Respects keepsPlayback (onopen established).
Proof. unfold onopen. repeat keeps_step; apply keeps_modifyLive. Qed.

Lemma keeps_onaudioprocess : Respects keepsPlayback onaudioprocess.
Proof. unfold onaudioprocess, sendRealtimeInput. repeat keeps_step. Qed.

Lemma keeps_callToolHandler h name args :
  keepsSchedule h -> Respects keepsPlayback (callToolHandler h name args).
Proof.
  intros Hh w Hw. specialize (Hh name args w). unfold callToolHandler, worldOf.
  destruct (h name args w) as [r w1]. cbn in *. tauto.
Qed.

Lemma keeps_handleToolCalls onToolCall message :
  match onToolCall with Some h => keepsSchedule h | None => True end ->
  Respects keepsPlayback (handleToolCalls onToolCall message).
Proof.
  intros Hh. unfold handleToolCalls.
  destruct (toolCall message) as [tc|]; [|repeat keeps_step].
  destruct onToolCall as [h|]; [|repeat keeps_step].
  destruct (functionCalls tc) as [fcs|]; [|repeat keeps_step].
  apply (respects_forEach _ keepsPlayback_refl keepsPlayback_trans). intros fc.
  unfold handleFunctionCall, sendToolResponse.
  apply (respects_bind _ keepsPlayback_trans); [apply keeps_callToolHandler, Hh|].
  repeat keeps_step.
Qed.

Lemma keeps_handleTranscriptions message :
  Respects keepsPlayback (handleTranscriptions message).
Proof. unfold handleTranscriptions. repeat keeps_step; apply keeps_modifyLive. Qed.

Lemma keeps_handleTurnComplete message :
  Respects keepsPlayback (handleTurnComplete message).
Proof. unfold handleTurnComplete. repeat keeps_step; apply keeps_modifyLive. Qed.

Lemma in_setAdd x l s : In s l -> In s (setAdd x l).
Proof.
  intros H. unfold setAdd. destruct (existsb (sameNode x) l); [exact H|].
  apply in_or_app. left. exact H.
Qed.

Lemma extends_raiseCursor : Respects extendsPlayback raiseCursor.
Proof.
  intros w H. cbn. split; [exact H|]. split; [apply Q.le_max_l|apply incl_refl].
Qed.

Lemma quotient_nonneg (d s : Q) : 0 <= d -> 0 < s -> 0 <= d / s.
Proof.
  intros Hd Hs. unfold Qdiv. apply Qmult_le_0_compat; [exact Hd|].
  apply Qlt_le_weak, Qinv_lt_0_compat, Hs.
Qed.

Lemma extends_scheduleBuffer buf :
  0 <= duration buf -> Respects extendsPlayback (scheduleBuffer buf).
Proof.
  intros Hd w H. cbn. split; [exact H|]. split.
  - unfold cursor. cbn.
    rewrite <- (Qplus_0_r (nextStartTime (service w))) at 1.
    apply Qplus_le_r. apply quotient_nonneg; [exact Hd|exact H].
  - unfold tracked. cbn. intros s Hs. apply in_setAdd. exact Hs.
Qed.

Lemma extends_playChunk decode base64Audio :
  (forall b buf, decode b = Resolved buf -> 0 <= duration buf) ->
  Respects extendsPlayback (playChunk decode base64Audio).
Proof.
  intros Hdec. unfold playChunk.
  apply (respects_bind _ extendsPlayback_trans);
    [apply (respects_getService _ extendsPlayback_refl)|].
  intros svc.
  destruct base64Audio as [b|]; [|apply (respects_ret _ extendsPlayback_refl)].
  destruct (audioContext svc); [|apply (respects_ret _ extendsPlayback_refl)].
  destruct (outputNode svc); [|apply (respects_ret _ extendsPlayback_refl)].
  destruct (Js.truthy_string b); [|apply (respects_ret _ extendsPlayback_refl)].
  apply (respects_bind _ extendsPlayback_trans); [apply extends_raiseCursor|].
  intros _ w. destruct (decode b) as [buf|e] eqn:Hb.
  - change (extendsPlayback w (worldOf (scheduleBuffer buf w))).
    apply (extends_scheduleBuffer buf (Hdec b buf Hb) w).
  - apply extendsPlayback_refl.
Qed.

Lemma advances_sourceEnded node : Respects advancesCursor (sourceEnded node).
Proof. intros w H. cbn. split; [exact H|apply Qle_refl]. Qed.

(** *** Computations that end by stopping everything *)

Lemma in_stopEvents l s :
  In s l -> startedAt s <> None -> In (EvSourceStop (nodeId s)) (stopEvents l).
Proof.
  intros Hin Hstarted. unfold stopEvents. apply in_flat_map.
  exists s. split; [exact Hin|].
  destruct (startedAt s); [left; reflexivity|congruence].
Qed.

Lemma stopAudio_ends_with_stop : EndsWithStop stopAudio.
Proof.
  intros w Hw. rewrite stopAudio_run. unfold outcomeOf, worldOf, eventsOf. cbn.
  split; [exact Hw|]. split.
  - intros _. split; [reflexivity|]. intros s Hs Hstarted.
    apply in_stopEvents; assumption.
  - congruence.
Qed.

Lemma bind_ends_with_stop {A : Type} (m : M A) (k : A -> M unit) :
  Respects extendsPlayback m ->
  (forall a, EndsWithStop (k a)) ->
  EndsWithStop (bind m k).
Proof.
  intros Hm Hk w Hw. specialize (Hm w Hw).
  unfold bind, outcomeOf, worldOf, eventsOf in *.
  destruct (m w) as [[[a|e] w1] l1]; cbn in *.
  - destruct Hm as [Hw1 [Hc Hincl]].
    specialize (Hk a w1 Hw1). unfold outcomeOf, worldOf, eventsOf in Hk.
    destruct (k a w1) as [[r w2] l2]. cbn in *.
    destruct Hk as [Hw2 [Hres Hrej]]. split; [exact Hw2|]. split.
    + intros Hr. destruct (Hres Hr) as [H0 Hstop]. split; [exact H0|].
      intros s Hs Hstarted. apply in_or_app. right.
      apply Hstop; [apply Hincl; exact Hs|exact Hstarted].
    + intros Hr. eapply Qle_trans; [exact Hc|apply Hrej; exact Hr].
  - destruct Hm as [Hw1 [Hc _]]. split; [exact Hw1|].
    split; [discriminate|]. intros _. exact Hc.
Qed.

Lemma liveStop_ends_with_stop : EndsWithStop liveStop.
Proof.
  unfold liveStop.
  apply bind_ends_with_stop;
    [apply (respects_weaken _ _ _ keeps_extends), keeps_modifyLive|intros _].
  apply bind_ends_with_stop;
    [apply (respects_getLive _ extendsPlayback_refl)|intros lv].
  apply bind_ends_with_stop;
    [apply (respects_weaken _ _ _ keeps_extends),
       (respects_when _ keepsPlayback_refl), keeps_modifyLive|intros _].
  apply bind_ends_with_stop;
    [apply (respects_weaken _ _ _ keeps_extends), keeps_modifyLive|intros _].
  apply stopAudio_ends_with_stop.
Qed.

Lemma bind_always_resolves {A : Type} (m : M A) (k : A -> M unit) :
  (forall w, exists a, outcomeOf (m w) = Resolved a) ->
  (forall a w, outcomeOf (k a w) = Resolved tt) ->
  forall w, outcomeOf (bind m k w) = Resolved tt.
Proof.
  intros Hm Hk w. destruct (Hm w) as [a Ha]. specialize (Hk a).
  unfold bind, outcomeOf in *. destruct (m w) as [[r w1] l1]. cbn in Ha. subst r.
  specialize (Hk w1). destruct (k a w1) as [[r w2] l2]. exact Hk.
Qed.

Lemma liveStop_resolves (w : World) : outcomeOf (liveStop w) = Resolved tt.
Proof.
  revert w. unfold liveStop.
  apply bind_always_resolves; [intros w; exists tt; reflexivity|intros _].
  apply bind_always_resolves; [intros w; eexists; reflexivity|intros lv].
  apply bind_always_resolves;
    [intros w; exists tt; destruct (scriptProcessor lv); reflexivity|intros _].
  apply bind_always_resolves; [intros w; exists tt; reflexivity|intros _].
  intros w. rewrite stopAudio_run. reflexivity.
Qed.

Lemma speakText_ends_with_stop env backend decode text persona :
  EndsWithStop (speakText env backend decode text persona).
Proof.
  intros w Hw.
  assert (Hstop : forall rest, allStopped (tracked w) (stopEvents (tracked w) ++ rest)).
  { intros rest s Hs Hstarted. apply in_or_app. left.
    apply in_stopEvents; assumption. }
  speak_cases env backend decode w.
  destruct (backend _ _) as [response|[m]]; cbn [fst snd];
    [destruct (responseAudio response) as [b|]; cbn [fst snd];
     [destruct (Js.truthy_string b); cbn [fst snd];
      [cbn;
       destruct (audioContext (service w)) as [ctx|]; cbn;
       [destruct (outputNode (service w)) as [g|]; cbn|];
       try destruct (decode b) as [buf|[m]]; cbn| ]| ]| ];
    (split; [exact Hw|]);
    (split; [intros _; split; [reflexivity|apply Hstop]|congruence]).
Qed.

Lemma speakText_resolves env backend decode text persona w :
  outcomeOf (speakText env backend decode text persona w) = Resolved tt.
Proof.
  speak_cases env backend decode w.
  destruct (backend _ _) as [response|[m]]; cbn [fst snd];
    [destruct (responseAudio response) as [b|]; cbn [fst snd];
     [destruct (Js.truthy_string b); cbn [fst snd];
      [cbn;
       destruct (audioContext (service w)) as [ctx|]; cbn;
       [destruct (outputNode (service w)) as [g|]; cbn|];
       try destruct (decode b) as [buf|[m]]; cbn| ]| ]| ];
    reflexivity.
Qed.

Lemma onmessage_ends_with_stop decode onToolCall message :
  (forall b buf, decode b = Resolved buf -> 0 <= duration buf) ->
  match onToolCall with Some h => keepsSchedule h | None => True end ->
  flag (option_map interrupted (serverContent message)) = true ->
  EndsWithStop (onmessage decode onToolCall message).
Proof.
  intros Hdec Hh Hint. unfold onmessage.
  apply bind_ends_with_stop;
    [apply (respects_weaken _ _ _ keeps_extends), keeps_handleToolCalls, Hh|intros _].
  apply bind_ends_with_stop; [apply extends_playChunk, Hdec|intros _].
  apply bind_ends_with_stop;
    [apply (respects_weaken _ _ _ keeps_extends), keeps_handleTranscriptions|intros _].
  apply bind_ends_with_stop;
    [apply (respects_weaken _ _ _ keeps_extends), keeps_handleTurnComplete|intros _].
  unfold handleInterrupted. rewrite Hint. apply stopAudio_ends_with_stop.
Qed.

Lemma onmessage_advances decode onToolCall message :
  (forall b buf, decode b = Resolved buf -> 0 <= duration buf) ->
  match onToolCall with Some h => keepsSchedule h | None => True end ->
  flag (option_map interrupted (serverContent message)) = false ->
  Respects advancesCursor (onmessage decode onToolCall message).
Proof.
  intros Hdec Hh Hint. unfold onmessage.
  apply (respects_weaken _ _ _ extends_advances).
  apply (respects_bind _ extendsPlayback_trans);
    [apply (respects_weaken _ _ _ keeps_extends), keeps_handleToolCalls, Hh|intros _].
  apply (respects_bind _ extendsPlayback_trans); [apply extends_playChunk, Hdec|intros _].
  apply (respects_bind _ extendsPlayback_trans);
    [apply (respects_weaken _ _ _ keeps_extends), keeps_handleTranscriptions|intros _].
  apply (respects_bind _ extendsPlayback_trans);
    [apply (respects_weaken _ _ _ keeps_extends), keeps_handleTurnComplete|intros _].
  unfold handleInterrupted. rewrite Hint. apply (respects_ret _ extendsPlayback_refl).
Qed.

(** *** The cursor across the operations of the service *)

Section Cursor.

Variable env : ProcessEnv.
Variable backend :
  GoogleGenAI -> GenerateContentParameters -> Outcome GenerateContentResponse.
Variable decode : string -> Outcome AudioBuffer.
Hypothesis decode_nonneg :
  forall b buf, decode b = Resolved buf -> 0 <= duration buf.

Lemma perform_advances (op : Op) :
  admissible op ->
  forciblyStops op = false ->
  Respects advancesCursor (perform env backend decode op).
Proof.
  intros Hadm Hstop.
  destruct op as [settings|text model history persona|text persona
                 |persona history mic|established| |onToolCall message|err| | |
                 |node|dt];
    cbn [perform forciblyStops] in *; try discriminate.
  - apply (respects_weaken _ _ _ keeps_advances), keeps_setAudioSettings, Hadm.
  - apply (respects_weaken _ _ _ keeps_advances).
    apply (respects_discard _ keepsPlayback_refl keepsPlayback_trans).
    apply keeps_sendChatMessage.
  - apply (respects_weaken _ _ _ keeps_advances).
    apply (respects_discard _ keepsPlayback_refl keepsPlayback_trans).
    apply keeps_connectLive.
  - apply (respects_weaken _ _ _ keeps_advances), keeps_onopen.
  - apply (respects_weaken _ _ _ keeps_advances), keeps_onaudioprocess.
  - apply onmessage_advances; [exact decode_nonneg| |exact Hstop].
    destruct onToolCall; [exact Hadm|exact I].
  - apply (respects_weaken _ _ _ keeps_advances).
    unfold onerror. destruct err. apply (respects_emit _ keepsPlayback_refl).
  - apply (respects_weaken _ _ _ keeps_advances), keeps_modifyLive.
  - apply advances_sourceEnded.
  - apply (respects_weaken _ _ _ keeps_advances), keeps_clockAdvance.
Qed.

Lemma perform_ends_with_stop (op : Op) :
  admissible op ->
  forciblyStops op = true ->
  EndsWithStop (perform env backend decode op).
Proof.
  intros Hadm Hstop.
  destruct op as [settings|text model history persona|text persona
                 |persona history mic|established| |onToolCall message|err| | |
                 |node|dt];
    cbn [perform forciblyStops] in *; try discriminate.
  - apply speakText_ends_with_stop.
  - apply onmessage_ends_with_stop; [exact decode_nonneg| |exact Hstop].
    destruct onToolCall; [exact Hadm|exact I].
  - apply liveStop_ends_with_stop.
  - apply stopAudio_ends_with_stop.
Qed.

(** Without a forcible stop among them, any sequence of operations leaves
    the cursor where it was or further on. *)
Lemma run_advances (ops : list Op) (w : World) :
  Forall (fun op => admissible op /\ forciblyStops op = false) ops ->
  advancesCursor w (run env backend decode w ops).
Proof.
  revert w. induction ops as [|op ops IH]; intros w Hall.
  - apply advancesCursor_refl.
  - inversion Hall as [|? ? [Hadm Hstop] Hrest]; subst. cbn [run fold_left].
    eapply advancesCursor_trans; [apply (perform_advances op Hadm Hstop w)|].
    apply IH. exact Hrest.
Qed.

End Cursor.

(** C2. Take a world whose playback speed is positive, a decoder whose
    buffers have non-negative durations, and any operation of the service
    (settings that keep the speed positive; a tool handler that leaves the
    playback schedule alone).  The speed stays positive.  If the operation
    is not one that forcibly stops the sources, the cursor does not
    decrease.  If it is one ([stopAudio], the [stop] of a live handle,
    [speakText], a message flagged interrupted) and it runs to its end,
    the cursor is 0 and every source that was tracked and started has
    been stopped; if it rejects before reaching the stop, the cursor has
    not decreased.  [stopAudio], [stop] and [speakText] always run to
    their end.  The cursor values are compared as exact rationals; in
    the doubles of the code the two lines that compute the cursor keep
    the same order: over any turn of chunks whose quotients [duration /
    speed] are not negative the cursor is never left below where it was,
    and the quotient of a finite non-negative duration by a positive
    speed is not negative. *)
Theorem cursor_monotone_except_forcible_stop
    (env : ProcessEnv)
    (backend : GoogleGenAI -> GenerateContentParameters -> Outcome GenerateContentResponse)
    (decode : string -> Outcome AudioBuffer)
    (w : World) (op : Op) :
  (forall b buf, decode b = Resolved buf -> 0 <= duration buf) ->
  0 < currentSpeed w ->
  admissible op ->
  let r := perform env backend decode op w in
  0 < currentSpeed (worldOf r)
  /\ (forciblyStops op = false -> cursor w <= cursor (worldOf r))
  /\ (forciblyStops op = true ->
      outcomeOf r = Resolved tt ->
      cursor (worldOf r) = 0 /\ allStopped (tracked w) (eventsOf r))
  /\ (forciblyStops op = true ->
      outcomeOf r <> Resolved tt ->
      cursor w <= cursor (worldOf r))
  /\ match op with
     | OpStopAudio | OpLiveStop | OpSpeakText _ _ => outcomeOf r = Resolved tt
     | _ => True
     end
  /\ (forall (speed nextStartTime : float) (chunks : list (float * float)),
        (forall chunk, In chunk chunks ->
           PrimFloat.leb 0%float (PrimFloat.div (snd chunk) speed) = true) ->
        PrimFloat.ltb (Doubles.cursorAfter speed nextStartTime chunks) nextStartTime
        = false)
  /\ (forall d s : float,
        PrimFloat.leb 0%float d = true ->
        PrimFloat.ltb d infinity = true ->
        PrimFloat.ltb 0%float s = true ->
        PrimFloat.leb 0%float (PrimFloat.div d s) = true).
Proof.
  intros Hdec Hw Hadm r. subst r.
  assert (Hdoubles :
    (forall (speed nextStartTime : float) (chunks : list (float * float)),
        (forall chunk, In chunk chunks ->
           PrimFloat.leb 0%float (PrimFloat.div (snd chunk) speed) = true) ->
        PrimFloat.ltb (Doubles.cursorAfter speed nextStartTime chunks) nextStartTime
        = false)
    /\ (forall d s : float,
        PrimFloat.leb 0%float d = true ->
        PrimFloat.ltb d infinity = true ->
        PrimFloat.ltb 0%float s = true ->
        PrimFloat.leb 0%float (PrimFloat.div d s) = true)).
  { split.
    - intros speed c chunks Hall. exact (proj1 (cursorAfter_not_back speed c chunks Hall)).
    - exact div_nonneg. }
  destruct (forciblyStops op) eqn:Hstop.
  - destruct (perform_ends_with_stop env backend decode Hdec op Hadm Hstop w Hw)
      as [Hspeed [Hres Hrej]].
    split; [exact Hspeed|]. split; [discriminate|].
    split; [intros _; exact Hres|]. split; [intros _; exact Hrej|].
    split; [|exact Hdoubles].
    destruct op; try exact I; cbn [perform].
    + apply speakText_resolves.
    + apply liveStop_resolves.
    + rewrite stopAudio_run. reflexivity.
  - destruct (perform_advances env backend decode Hdec op Hadm Hstop w Hw)
      as [Hspeed Hle].
    split; [exact Hspeed|]. split; [intros _; exact Hle|].
    split; [discriminate|]. split; [discriminate|].
    split; [|exact Hdoubles].
    destruct op; try exact I; discriminate.
Qed.

Lemma decodeByLength_nonneg (b : string) (buf : AudioBuffer) :
  decodeByLength b = Resolved buf -> 0 <= duration buf.
Proof.
  intros H. injection H as <-. cbn. unfold Qle. cbn. lia.
Qed.

Lemma cursor_monotone_except_forcible_stop_witness :
  (cursor busyWorld
     <= cursor (worldOf (perform envBoth (backendFails "down") decodeByLength
                           (OpOnMessage None (chunkMessage "abc")) busyWorld)))
  /\ (cursor (worldOf (perform envBoth (backendFails "down") decodeByLength
                         OpStopAudio busyWorld)) = 0
      /\ allStopped (tracked busyWorld)
           (eventsOf (perform envBoth (backendFails "down") decodeByLength
                        OpStopAudio busyWorld))).
Proof.
  split.
  - apply (proj1 (proj2 (cursor_monotone_except_forcible_stop envBoth
             (backendFails "down") decodeByLength busyWorld
             (OpOnMessage None (chunkMessage "abc"))
             decodeByLength_nonneg eq_refl I))).
    reflexivity.
  - apply (proj1 (proj2 (proj2 (cursor_monotone_except_forcible_stop envBoth
             (backendFails "down") decodeByLength busyWorld OpStopAudio
             decodeByLength_nonneg eq_refl I)))).
    + reflexivity.
    + reflexivity.
Defined.

(** Where the claim as stated fails: [setAudioSettings] takes a negative
    speed as it is, and the next chunk then moves the cursor back, from
    9 to 6, though it is no forcible stop and stops nothing. *)
Lemma negative_speed_counterexample :
  let settle := perform envBoth (backendFails "down") decodeByLength
                  (OpSetAudioSettings reversedSettings) busyWorld in
  let op := OpOnMessage None (chunkMessage "abc") in
  let r := perform envBoth (backendFails "down") decodeByLength op (worldOf settle) in
  outcomeOf settle = Resolved tt
  /\ cursor (worldOf settle) = 9
  /\ currentSpeed (worldOf settle) == - (1)
  /\ forciblyStops op = false
  /\ outcomeOf r = Resolved tt
  /\ eventsOf r = [EvSourceStart 2 9]
  /\ cursor (worldOf r) == 6
  /\ cursor (worldOf r) < cursor (worldOf settle)
  /\ ~ cursor (worldOf settle) <= cursor (worldOf r).
Proof.
  cbv zeta.
  split; [reflexivity|]. split; [reflexivity|]. split; [reflexivity|].
  split; [reflexivity|]. split; [reflexivity|]. split; [reflexivity|].
  split; [reflexivity|]. split; [reflexivity|].
  intros H. vm_compute in H. apply H. reflexivity.
Qed.

(** ** Tool calls of a live session *)

Lemma forEach_cons {A : Type} (f : A -> M unit) x l w w1 l1 :
  f x w = (Resolved tt, w1, l1) ->
  forEach f (x :: l) w
  = (outcomeOf (forEach f l w1), worldOf (forEach f l w1),
     l1 ++ eventsOf (forEach f l w1)).
Proof.
  intros H. cbn [forEach].
  exact (bind_resolved (f x) (fun _ => forEach f l) _ _ _ _ H).
Qed.

Lemma toolResponses_app (a b : list Event) :
  toolResponses (a ++ b) = toolResponses a ++ toolResponses b.
Proof. apply flat_map_app. Qed.

(** One call: the handler runs whatever the state of the session; the
    response follows when the session is live once it has settled. *)
Lemma handleFunctionCall_step (h : ToolHandler) (fc : FunctionCall) (w w1 : World) v :
  h (fc_name fc) (fc_args fc) w = (Resolved v, w1) ->
  handleFunctionCall h fc w = (Resolved tt, w1, callEvents fc (v, w1)).
Proof.
  intros Hh.
  unfold handleFunctionCall, callToolHandler, sendToolResponse, callEvents, isLive.
  run_monad. rewrite Hh. cbn.
  destruct (activeSession (live w1)) as [s|]; cbn; [|reflexivity].
  destruct (socketOpen s); reflexivity.
Qed.

Lemma last_cons_default {A : Type} (x d : A) (l : list A) :
  last (x :: l) d = last l x.
Proof.
  revert x d. induction l as [|y l IH]; intros x d; [reflexivity|].
  change (last (x :: y :: l) d) with (last (y :: l) d).
  rewrite (IH y d), (IH y x). reflexivity.
Qed.

Lemma handleFunctionCalls_steps (h : ToolHandler) (fcs : list FunctionCall)
    (w : World) (steps : list (Js.value * World)) :
  Invoked h w fcs steps ->
  forEach (handleFunctionCall h) fcs w
  = (Resolved tt, last (map snd steps) w,
     List.concat (map (fun p => callEvents (fst p) (snd p)) (combine fcs steps))).
Proof.
  intros H. induction H as [w|w fc fcs v w1 steps Hh Hrest IH]; [reflexivity|].
  rewrite (forEach_cons _ _ _ _ _ _ (handleFunctionCall_step h fc w w1 v Hh)).
  rewrite IH. unfold outcomeOf, worldOf, eventsOf. cbn [fst snd map combine List.concat].
  rewrite last_cons_default. reflexivity.
Qed.

Lemma invoked_exists (h : ToolHandler) (fcs : list FunctionCall) (w : World) :
  alwaysResolves h -> exists steps, Invoked h w fcs steps.
Proof.
  intros Hh. revert w. induction fcs as [|fc fcs IH]; intros w.
  - exists []. constructor.
  - destruct (Hh (fc_name fc) (fc_args fc) w) as [v [w1 Hrun]].
    destruct (IH w1) as [steps Hsteps].
    exists ((v, w1) :: steps). econstructor; eassumption.
Qed.

Lemma invoked_length (h : ToolHandler) fcs w steps :
  Invoked h w fcs steps -> List.length steps = List.length fcs.
Proof. intros H. induction H; [reflexivity|]. cbn. congruence. Qed.

Lemma callEvents_live (fcs : list FunctionCall) (steps : list (Js.value * World)) :
  Forall (fun st => isLive (snd st) = true) steps ->
  List.concat (map (fun p => callEvents (fst p) (snd p)) (combine fcs steps))
  = exchanges fcs (map fst steps).
Proof.
  intros H. revert fcs. induction H as [|st steps Hst _ IH]; intros fcs.
  - destruct fcs; reflexivity.
  - destruct fcs as [|fc fcs]; [reflexivity|].
    unfold exchanges in *. cbn [combine map List.concat fst snd].
    rewrite IH. unfold callEvents, toolCallExchange. rewrite Hst. reflexivity.
Qed.

Lemma callEvents_inactive (fcs : list FunctionCall) (steps : list (Js.value * World)) :
  Forall (fun st => isLive (snd st) = false) steps ->
  List.concat (map (fun p => callEvents (fst p) (snd p)) (combine fcs steps))
  = invocations fcs (map fst steps).
Proof.
  intros H. revert fcs. induction H as [|st steps Hst _ IH]; intros fcs.
  - destruct fcs; reflexivity.
  - destruct fcs as [|fc fcs]; [reflexivity|].
    unfold invocations in *. cbn [combine map List.concat fst snd].
    rewrite IH. unfold callEvents. rewrite Hst. reflexivity.
Qed.

Lemma toolResponses_exchanges (fcs : list FunctionCall) (results : list Js.value) :
  toolResponses (exchanges fcs results)
  = map (fun p => responseFor (fst p) (snd p)) (combine fcs results).
Proof.
  unfold exchanges. induction (combine fcs results) as [|p l IH]; [reflexivity|].
  cbn [map List.concat]. rewrite toolResponses_app, IH. reflexivity.
Qed.

Lemma toolResponses_invocations (fcs : list FunctionCall) (results : list Js.value) :
  toolResponses (invocations fcs results) = [].
Proof.
  unfold invocations. induction (combine fcs results) as [|p l IH]; [reflexivity|].
  exact IH.
Qed.

Lemma falsy_values (v : Js.value) :
  Js.truthy v = false <->
  v = Js.Undefined \/ v = Js.Null \/ v = Js.Boolean false \/ v = Js.Number 0
  \/ v = Js.NaN \/ v = Js.Str "".
Proof.
  split.
  - destruct v as [| |b|n| |t|j]; cbn; intros H.
    + auto.
    + auto.
    + destruct b; [discriminate|auto].
    + destruct n; [auto 6|discriminate|discriminate].
    + auto 6.
    + destruct t; [auto 7|discriminate].
    + discriminate.
  - intros [->|[->|[->|[->|[->| ->]]]]]; reflexivity.
Qed.

(** C6, as the code has it.  When the caller supplied a handler whose
    promise resolves, a tool-call message is handled call by call in
    order, whether or not a session is active: the handler is invoked
    with the call's name and arguments in the world the previous
    invocation left, and once it has settled, and before the next call
    is taken up, one response with the call's id and name is sent if the
    session is then active with an open connection, and nothing is sent
    otherwise.  The result of a response is the handler's value when
    that value is truthy and the string OK when it is falsy, that is
    undefined, null, false, 0, NaN or the empty string.  So while the
    session stays live the message is a sequence of exchanges, one per
    call, and while it stays inactive it is the invocations alone.
    Without a handler nothing is done. *)
Theorem handleToolCalls_exchanges
    (h : ToolHandler) (fcs : list FunctionCall) (w : World) :
  alwaysResolves h ->
  (exists steps,
     Invoked h w fcs steps
     /\ List.length steps = List.length fcs
     /\ handleToolCalls (Some h) (toolCallsOf fcs) w
        = (Resolved tt, last (map snd steps) w,
           List.concat (map (fun p => callEvents (fst p) (snd p)) (combine fcs steps)))
     /\ (Forall (fun st => isLive (snd st) = true) steps ->
         eventsOf (handleToolCalls (Some h) (toolCallsOf fcs) w)
           = exchanges fcs (map fst steps)
         /\ toolResponses (eventsOf (handleToolCalls (Some h) (toolCallsOf fcs) w))
            = map (fun p => responseFor (fst p) (snd p)) (combine fcs (map fst steps)))
     /\ (Forall (fun st => isLive (snd st) = false) steps ->
         eventsOf (handleToolCalls (Some h) (toolCallsOf fcs) w)
           = invocations fcs (map fst steps)
         /\ toolResponses (eventsOf (handleToolCalls (Some h) (toolCallsOf fcs) w))
            = []))
  /\ handleToolCalls None (toolCallsOf fcs) w = (Resolved tt, w, [])
  /\ (forall fc v,
        fr_id (responseFor fc v) = fc_id fc
        /\ fr_name (responseFor fc v) = fc_name fc
        /\ (Js.truthy v = true -> fr_result (responseFor fc v) = v)
        /\ (Js.truthy v = false -> fr_result (responseFor fc v) = Js.Str "OK"))
  /\ (forall v,
        Js.truthy v = false <->
        v = Js.Undefined \/ v = Js.Null \/ v = Js.Boolean false \/ v = Js.Number 0
        \/ v = Js.NaN \/ v = Js.Str "").
Proof.
  intros Hh. split; [|split; [reflexivity|split; [|exact falsy_values]]].
  - destruct (invoked_exists h fcs w Hh) as [steps Hsteps].
    exists steps.
    assert (Hrun : handleToolCalls (Some h) (toolCallsOf fcs) w
                   = (Resolved tt, last (map snd steps) w,
                      List.concat (map (fun p => callEvents (fst p) (snd p))
                                       (combine fcs steps)))).
    { cbn [handleToolCalls toolCallsOf toolCall functionCalls].
      apply handleFunctionCalls_steps, Hsteps. }
    split; [exact Hsteps|]. split; [exact (invoked_length _ _ _ _ Hsteps)|].
    split; [exact Hrun|]. rewrite Hrun. unfold eventsOf. cbn [snd]. split.
    + intros Hlive. rewrite (callEvents_live _ _ Hlive).
      split; [reflexivity|apply toolResponses_exchanges].
    + intros Hoff. rewrite (callEvents_inactive _ _ Hoff).
      split; [reflexivity|apply toolResponses_invocations].
  - intros fc v. unfold responseFor. cbn.
    split; [reflexivity|]. split; [reflexivity|].
    split; intros ->; reflexivity.
Qed.

Lemma handlerReturns_resolves (v : Js.value) : alwaysResolves (handlerReturns v).
Proof. intros name args w. exists v, w. reflexivity. Qed.

Lemma readyWorld_live : sessionLive readyWorld.
Proof. exists {| socketOpen := true |}. split; reflexivity. Qed.

Lemma handleToolCalls_exchanges_witness :
  (exists steps,
     Invoked (handlerReturns Js.Undefined) readyWorld
             [setVolumeCall; clearChatCall] steps
     /\ handleToolCalls (Some (handlerReturns Js.Undefined))
          (toolCallsOf [setVolumeCall; clearChatCall]) readyWorld
        = (Resolved tt, last (map snd steps) readyWorld,
           List.concat (map (fun p => callEvents (fst p) (snd p))
                            (combine [setVolumeCall; clearChatCall] steps))))
  /\ (exists steps,
        Invoked (handlerReturns (Js.Str "Volume set to 50%")) stoppedWorld
                [setVolumeCall; clearChatCall] steps
        /\ handleToolCalls (Some (handlerReturns (Js.Str "Volume set to 50%")))
             (toolCallsOf [setVolumeCall; clearChatCall]) stoppedWorld
           = (Resolved tt, last (map snd steps) stoppedWorld,
              List.concat (map (fun p => callEvents (fst p) (snd p))
                               (combine [setVolumeCall; clearChatCall] steps))))
  /\ handleToolCalls None (toolCallsOf [setVolumeCall; clearChatCall]) readyWorld
     = (Resolved tt, readyWorld, []).
Proof.
  split; [|split].
  - destruct (proj1 (handleToolCalls_exchanges (handlerReturns Js.Undefined)
                       [setVolumeCall; clearChatCall] readyWorld
                       (handlerReturns_resolves Js.Undefined)))
      as [steps [H1 [_ [H2 _]]]].
    exists steps. split; [exact H1|exact H2].
  - destruct (proj1 (handleToolCalls_exchanges
                       (handlerReturns (Js.Str "Volume set to 50%"))
                       [setVolumeCall; clearChatCall] stoppedWorld
                       (handlerReturns_resolves (Js.Str "Volume set to 50%"))))
      as [steps [H1 [_ [H2 _]]]].
    exists steps. split; [exact H1|exact H2].
  - exact (proj1 (proj2 (handleToolCalls_exchanges (handlerReturns Js.Undefined)
                           [setVolumeCall; clearChatCall] readyWorld
                           (handlerReturns_resolves Js.Undefined)))).
Defined.

(** A message of two calls in full, with the session live and with the
    session torn down. *)
Example two_calls_live_and_inactive :
  eventsOf (handleToolCalls (Some (handlerReturns Js.Undefined))
              (toolCallsOf [setVolumeCall; clearChatCall]) readyWorld)
  = [EvOnToolCall "set_volume" (Js.Object "{level: 50}") (Resolved Js.Undefined);
     EvSendToolResponse
       {| fr_id := "call-1"; fr_name := "set_volume"; fr_result := Js.Str "OK" |};
     EvOnToolCall "clear_chat" (Js.Object "{}") (Resolved Js.Undefined);
     EvSendToolResponse
       {| fr_id := "call-2"; fr_name := "clear_chat"; fr_result := Js.Str "OK" |}]
  /\ eventsOf (handleToolCalls (Some (handlerReturns (Js.Str "done")))
                 (toolCallsOf [setVolumeCall; clearChatCall]) stoppedWorld)
     = [EvOnToolCall "set_volume" (Js.Object "{level: 50}") (Resolved (Js.Str "done"));
        EvOnToolCall "clear_chat" (Js.Object "{}") (Resolved (Js.Str "done"))].
Proof. split; reflexivity. Qed.

(** Where the claim as stated fails: with the session torn down the
    handler still runs but no response is sent; and a handler that
    returns the explicit value [false] is answered with OK. *)
Lemma tool_response_counterexample :
  eventsOf (onmessage decodeByLength (Some (handlerReturns (Js.Str "Volume set to 50%")))
              (toolCallsOf [setVolumeCall]) stoppedWorld)
    = [EvOnToolCall "set_volume" (Js.Object "{level: 50}")
         (Resolved (Js.Str "Volume set to 50%"))]
  /\ toolResponses
       (eventsOf (onmessage decodeByLength
                    (Some (handlerReturns (Js.Str "Volume set to 50%")))
                    (toolCallsOf [setVolumeCall]) stoppedWorld))
     <> [{| fr_id := "call-1"; fr_name := "set_volume";
            fr_result := Js.Str "Volume set to 50%" |}]
  /\ toolResponses
       (eventsOf (onmessage decodeByLength (Some (handlerReturns (Js.Boolean false)))
                    (toolCallsOf [setVolumeCall]) readyWorld))
     = [{| fr_id := "call-1"; fr_name := "set_volume"; fr_result := Js.Str "OK" |}]
  /\ toolResponses
       (eventsOf (onmessage decodeByLength (Some (handlerReturns (Js.Boolean false)))
                    (toolCallsOf [setVolumeCall]) readyWorld))
     <> [{| fr_id := "call-1"; fr_name := "set_volume";
            fr_result := Js.Boolean false |}].
Proof.
  split; [reflexivity|]. split; [discriminate|]. split; [reflexivity|discriminate].
Qed.

(** ** Credentials *)

(** [connectLive] looks at [API_KEY] alone. *)
Lemma connectLive_without_API_KEY env persona history mic w :
  Js.truthy_string (API_KEY env) = false ->
  connectLive env persona history mic w
  = (Resolved None, w,
     [EvConsoleError "GEMINI_API_KEY is not configured"; EvOnError "API_KEY_MISSING"]).
Proof. intros H. unfold connectLive. rewrite H. reflexivity. Qed.

Lemma connectLive_connects
    (env : ProcessEnv) (persona : VoicePersona) (history : list ChatMessage)
    (w : World) :
  contextPaired w ->
  Js.truthy_string (API_KEY env) = true ->
  networkCalls (eventsOf (connectLive env persona history (Resolved tt) w))
  = [EvLiveConnect {| apiKey := API_KEY env |} (liveRequest persona history)].
Proof.
  intros Hp Hkey. unfold contextPaired in Hp.
  unfold connectLive, ensureAudioContext. rewrite Hkey. run_monad.
  unfold eventsOf.
  destruct (audioContext (service w)) as [c|] eqn:Ec; cbn; rewrite ?Ec; cbn.
  - destruct (outputNode (service w)) as [g|] eqn:Eg; cbn;
      [|destruct Hp as [_ Hp]; specialize (Hp eq_refl); discriminate].
    rewrite ?Eg. cbn. rewrite ?Eg. reflexivity.
  - reflexivity.
Qed.

Lemma speakText_request env backend decode text persona w :
  In (EvGenerateContent {| apiKey := API_KEY env |} (speakRequest text persona))
     (eventsOf (speakText env backend decode text persona w)).
Proof.
  speak_cases env backend decode w.
  destruct (backend _ _) as [response|[m]]; cbn [fst snd];
    [destruct (responseAudio response) as [b|]; cbn [fst snd];
     [destruct (Js.truthy_string b); cbn [fst snd];
      [cbn;
       destruct (audioContext (service w)) as [ctx|]; cbn;
       [destruct (outputNode (service w)) as [g|]; cbn|];
       try destruct (decode b) as [buf|[m]]; cbn| ]| ]| ];
    apply in_or_app; right; left; reflexivity.
Qed.

Lemma truthy_string_eqb (s : string) :
  Js.truthy_string s = negb (String.eqb s "").
Proof. destruct s; reflexivity. Qed.

(** C5, as the code has it.  [sendChatMessage] takes the key from
    API_KEY or else from GEMINI_API_KEY, the first that is not empty,
    and when both are empty it throws GEMINI_API_KEY is not configured
    before anything is handed to the SDK; with a key it makes its one
    request with it.  [connectLive] looks at API_KEY alone: when that is
    empty it logs, reports API_KEY_MISSING through [onError] and returns
    null, without throwing and before the microphone is asked for or a
    connection opened; otherwise it connects with that key.  [speakText]
    looks at API_KEY alone and checks nothing: its request goes to the
    SDK with that key, empty or not, and it returns normally, a refusal
    being logged as TTS failed.  When the two names hold the same
    string, as in a bundle built with vite.config.ts, the three use the
    same key. *)
Theorem credential_resolution_per_method
    (env : ProcessEnv)
    (backend : GoogleGenAI -> GenerateContentParameters -> Outcome GenerateContentResponse)
    (decode : string -> Outcome AudioBuffer)
    (text : string) (model : ModelType) (history : list ChatMessage)
    (persona : VoicePersona) (mic : Outcome unit) (w : World) :
  let key :=
    if String.eqb (API_KEY env) "" then GEMINI_API_KEY env else API_KEY env in
  (if String.eqb key ""
   then sendChatMessage env backend text model history persona w
        = (Rejected (Error "GEMINI_API_KEY is not configured"), w, [])
   else eventsOf (sendChatMessage env backend text model history persona w)
        = [EvGenerateContent {| apiKey := key |}
             (chatRequest text model history persona)])
  /\ (if String.eqb (API_KEY env) ""
      then connectLive env persona history mic w
           = (Resolved None, w,
              [EvConsoleError "GEMINI_API_KEY is not configured";
               EvOnError "API_KEY_MISSING"])
      else contextPaired w ->
           networkCalls (eventsOf (connectLive env persona history (Resolved tt) w))
           = [EvLiveConnect {| apiKey := API_KEY env |} (liveRequest persona history)])
  /\ outcomeOf (speakText env backend decode text persona w) = Resolved tt
  /\ In (EvGenerateContent {| apiKey := API_KEY env |} (speakRequest text persona))
        (eventsOf (speakText env backend decode text persona w))
  /\ (forall m,
        backend {| apiKey := API_KEY env |} (speakRequest text persona)
          = Rejected (Error m) ->
        consoleErrors (eventsOf (speakText env backend decode text persona w))
          = ["TTS failed: " ++ m]%string)
  /\ (API_KEY env = GEMINI_API_KEY env -> key = API_KEY env).
Proof.
  intros key.
  assert (Hkey : resolvedKey env = key).
  { unfold resolvedKey, Js.or_string, key. rewrite truthy_string_eqb.
    destruct (String.eqb (API_KEY env) ""); reflexivity. }
  split; [|split; [|split; [|split; [|split]]]].
  - destruct (String.eqb key "") eqn:E.
    + apply sendChatMessage_without_key. rewrite Hkey, truthy_string_eqb, E.
      reflexivity.
    + rewrite sendChatMessage_with_key
        by (rewrite Hkey, truthy_string_eqb, E; reflexivity).
      rewrite Hkey. reflexivity.
  - destruct (String.eqb (API_KEY env) "") eqn:E.
    + apply connectLive_without_API_KEY. rewrite truthy_string_eqb, E. reflexivity.
    + intros Hp. apply connectLive_connects; [exact Hp|].
      rewrite truthy_string_eqb, E. reflexivity.
  - apply speakText_resolves.
  - apply speakText_request.
  - intros m Hm.
    exact (proj2 (proj2 (proj1 (proj2 (proj2 (proj2 (proj2 (proj2
             (speakText_run env backend decode text persona w)))))) m Hm))).
  - intros Hsame. unfold key. rewrite <- Hsame.
    destruct (String.eqb (API_KEY env) ""); reflexivity.
Qed.

Lemma credential_resolution_per_method_witness :
  (let key := "k2" in
   eventsOf (sendChatMessage envSecondOnly (backendFails "down") "hello"
               gemini_3_flash_preview [] Zephyr initialWorld)
   = [EvGenerateContent {| apiKey := key |}
        (chatRequest "hello" gemini_3_flash_preview [] Zephyr)])
  /\ networkCalls (eventsOf (connectLive envBoth Zephyr [] (Resolved tt) initialWorld))
     = [EvLiveConnect {| apiKey := "k1" |} (liveRequest Zephyr [])]
  /\ consoleErrors (eventsOf (speakText envUnset (backendFails "API key must be set")
                                decodeByLength "hi" Zephyr initialWorld))
     = ["TTS failed: API key must be set"]
  /\ (if String.eqb (API_KEY envUnset) "" then GEMINI_API_KEY envUnset
      else API_KEY envUnset) = API_KEY envUnset.
Proof.
  pose proof (credential_resolution_per_method envSecondOnly (backendFails "down")
                decodeByLength "hello" gemini_3_flash_preview [] Zephyr
                (Resolved tt) initialWorld) as Hsecond.
  pose proof (credential_resolution_per_method envBoth (backendFails "down")
                decodeByLength "hello" gemini_3_flash_preview [] Zephyr
                (Resolved tt) initialWorld) as Hboth.
  pose proof (credential_resolution_per_method envUnset
                (backendFails "API key must be set")
                decodeByLength "hi" gemini_3_flash_preview [] Zephyr
                (Resolved tt) initialWorld) as Hunset.
  cbv zeta in Hsecond, Hboth, Hunset.
  split; [exact (proj1 Hsecond)|]. split; [|split].
  - apply (proj1 (proj2 Hboth)). unfold contextPaired. cbn. split; reflexivity.
  - apply (proj1 (proj2 (proj2 (proj2 (proj2 Hunset)))) "API key must be set").
    reflexivity.
  - apply (proj2 (proj2 (proj2 (proj2 (proj2 Hunset))))). reflexivity.
Defined.

(** Where the claim as stated fails.  With no key configured (both names
    are then the empty string, as vite.config.ts defines them) and an
    SDK that refuses a request without a key, [speakText] hands its
    request to the SDK all the same and returns normally: the caller
    sees no error, the refusal is only logged.  And [connectLive] does
    not fail either: it reports through [onError] and returns null. *)
Lemma missing_credential_counterexample :
  Vite.define {| Vite.envLocal := None; Vite.loadedKey := None |} = envUnset
  /\ speakText envUnset (backendNeedsKey (audioResponse "abc")) decodeByLength
       "hi" Zephyr initialWorld
     = (Resolved tt, initialWorld,
        [EvGenerateContent {| apiKey := "" |} (speakRequest "hi" Zephyr);
         EvConsoleError "TTS failed: API key must be set"])
  /\ outcomeOf (speakText envUnset (backendNeedsKey (audioResponse "abc"))
                  decodeByLength "hi" Zephyr initialWorld)
     <> Rejected (Error "GEMINI_API_KEY is not configured")
  /\ outcomeOf (connectLive envUnset Zephyr [] (Resolved tt) initialWorld)
     = Resolved None.
Proof.
  split; [reflexivity|]. split; [reflexivity|]. split; [discriminate|reflexivity].
Qed.

(** * Further properties of the code *)

(** ** The request/response client, continued *)

(** X1. [sendChatMessage] never changes the service or the session and
    issues at most one request; when the backend rejects that request,
    the promise rejects with the backend's error, unchanged, and nothing
    is retried. *)
Theorem sendChatMessage_propagates_failure
    (env : ProcessEnv)
    (backend : GoogleGenAI -> GenerateContentParameters -> Outcome GenerateContentResponse)
    (text : string) (model : ModelType) (history : list ChatMessage)
    (persona : VoicePersona) (w : World) :
  worldOf (sendChatMessage env backend text model history persona w) = w
  /\ (List.length
        (networkCalls
           (eventsOf (sendChatMessage env backend text model history persona w)))
      <= 1)%nat
  /\ (forall e,
        Js.truthy_string (resolvedKey env) = true ->
        backend {| apiKey := resolvedKey env |}
                (chatRequest text model history persona) = Rejected e ->
        sendChatMessage env backend text model history persona w
        = (Rejected e, w,
           [EvGenerateContent {| apiKey := resolvedKey env |}
              (chatRequest text model history persona)])).
Proof.
  destruct (Js.truthy_string (resolvedKey env)) eqn:Hkey.
  - rewrite sendChatMessage_with_key by exact Hkey.
    unfold worldOf, eventsOf. cbn.
    split; [reflexivity|]. split; [lia|].
    intros e _ He. rewrite He. reflexivity.
  - rewrite sendChatMessage_without_key by exact Hkey.
    unfold worldOf, eventsOf. cbn.
    split; [reflexivity|]. split; [lia|]. intros e H. discriminate H.
Qed.

Lemma sendChatMessage_propagates_failure_witness :
  sendChatMessage envBoth (backendFails "503") "hello" gemini_3_pro_preview
    [userMessage "a"] Kore busyWorld
  = (Rejected (Error "503"), busyWorld,
     [EvGenerateContent {| apiKey := "k1" |}
        (chatRequest "hello" gemini_3_pro_preview [userMessage "a"] Kore)]).
Proof.
  exact (proj2 (proj2 (sendChatMessage_propagates_failure envBoth (backendFails "503")
                         "hello" gemini_3_pro_preview [userMessage "a"] Kore busyWorld))
           (Error "503") eq_refl eq_refl).
Defined.

Lemma firstSeen_In (seen : list string) (l : list GroundingSource) x :
  In x (firstSeen seen l) -> In x l.
Proof.
  revert seen. induction l as [|y r IH]; intros seen; simpl; [tauto|].
  destruct (existsb (String.eqb (uri y)) seen).
  - intros H. right. exact (IH _ H).
  - intros [H|H]; [left; exact H|right; exact (IH _ H)].
Qed.

Lemma or_default_nonempty (o : option string) (d : string) :
  d <> "" -> Js.or_default o d <> "".
Proof.
  intros Hd. unfold Js.or_default, Js.or_string.
  destruct o as [[|a s]|]; cbn; try exact Hd. discriminate.
Qed.

(** X2. Every source that [sendChatMessage] hands back has a non-empty
    uri and a non-empty title: chunks without a web uri are left out and
    a missing or empty title becomes DATA_NODE. *)
Theorem chatResult_sources_are_usable
    (response : GenerateContentResponse) (l : list GroundingSource)
    (x : GroundingSource) :
  result_sources (chatResult response) = Some l ->
  In x l ->
  uri x <> "" /\ title x <> "".
Proof.
  rewrite chatResult_sources. intros Hl Hx.
  assert (Hin : In x (firstSeen [] (collectSources (responseChunks response)))).
  { destruct (firstSeen [] (collectSources (responseChunks response)));
      [discriminate|]. injection Hl as <-. exact Hx. }
  apply firstSeen_In in Hin.
  destruct (responseChunks response) as [chunks|]; [|destruct Hin].
  apply collectSources_spec in Hin.
  destruct Hin as [chunk [w [u [_ [_ [_ [Hu ->]]]]]]]. cbn. split.
  - intros E. subst u. discriminate Hu.
  - apply or_default_nonempty. discriminate.
Qed.

Lemma chatResult_sources_are_usable_witness :
  uri {| title := "DATA_NODE"; uri := "u1" |} <> ""
  /\ title {| title := "DATA_NODE"; uri := "u1" |} <> "".
Proof.
  apply (chatResult_sources_are_usable
           (groundedResponse None
              [{| web := None |};
               {| web := Some {| web_uri := Some ""; web_title := Some "skipped" |} |};
               {| web := Some {| web_uri := Some "u1"; web_title := Some "" |} |}])
           [{| title := "DATA_NODE"; uri := "u1" |}]).
  - reflexivity.
  - left. reflexivity.
Defined.

Lemma firstSeen_uris (seen : list string) (l : list GroundingSource) (u : string) :
  In u (map uri (firstSeen seen l)) <-> In u (map uri l) /\ ~ In u seen.
Proof.
  revert seen. induction l as [|y r IH]; intros seen; simpl; [tauto|].
  destruct (existsb (String.eqb (uri y)) seen) eqn:E.
  - rewrite IH. apply existsb_exists in E. destruct E as [v [Hv E]].
    apply String.eqb_eq in E. subst v. split; [tauto|].
    intros [[H|H] Hn]; [subst u; contradiction|tauto].
  - simpl. rewrite IH. simpl.
    assert (Hy : ~ In (uri y) seen).
    { intros Hin. assert (existsb (String.eqb (uri y)) seen = true); [|congruence].
      apply existsb_exists. exists (uri y). split; [exact Hin|apply String.eqb_refl]. }
    destruct (string_dec (uri y) u) as [Heq|Hne].
    + rewrite <- Heq. tauto.
    + tauto.
Qed.

Lemma firstSeen_fixed (seen : list string) (l : list GroundingSource) :
  NoDup (map uri l) ->
  (forall u, In u (map uri l) -> ~ In u seen) ->
  firstSeen seen l = l.
Proof.
  revert seen. induction l as [|y r IH]; intros seen Hnd Hseen; [reflexivity|].
  simpl in *. inversion Hnd as [|? ? Hy Hr]; subst.
  destruct (existsb (String.eqb (uri y)) seen) eqn:E.
  - exfalso. apply existsb_exists in E. destruct E as [v [Hv E]].
    apply String.eqb_eq in E. subst v. exact (Hseen _ (or_introl eq_refl) Hv).
  - f_equal. apply IH; [exact Hr|].
    intros u Hu [Hin|Hin]; [subst u; contradiction|].
    exact (Hseen u (or_intror Hu) Hin).
Qed.

Lemma subsequence_length {A : Type} (s l : list A) :
  Subsequence s l -> (List.length s <= List.length l)%nat.
Proof. induction 1; simpl; lia. Qed.

(** X3. The deduplication of the sources loses no uri and adds none, never
    lengthens the list, leaves a list without repeated uris as it is,
    and so changes nothing when applied a second time. *)
Theorem uniqueSources_idempotent (l : list GroundingSource) :
  (forall u, In u (map uri (uniqueSources l)) <-> In u (map uri l))
  /\ (List.length (uniqueSources l) <= List.length l)%nat
  /\ (NoDup (map uri l) -> uniqueSources l = l)
  /\ uniqueSources (uniqueSources l) = uniqueSources l.
Proof.
  rewrite !uniqueSources_firstSeen. split; [|split; [|split]].
  - intros u. rewrite firstSeen_uris. simpl. tauto.
  - apply subsequence_length, firstSeen_subsequence.
  - intros Hnd. apply firstSeen_fixed; [exact Hnd|]. intros u _ [].
  - apply firstSeen_fixed; [apply firstSeen_nodup|]. intros u _ [].
Qed.

Lemma uniqueSources_idempotent_witness :
  uniqueSources [{| title := "A"; uri := "u1" |}; {| title := "C"; uri := "u2" |}]
  = [{| title := "A"; uri := "u1" |}; {| title := "C"; uri := "u2" |}].
Proof.
  apply (proj1 (proj2 (proj2 (uniqueSources_idempotent
           [{| title := "A"; uri := "u1" |}; {| title := "C"; uri := "u2" |}])))).
  repeat constructor; simpl; intuition discriminate.
Defined.

(** ** The prompt builder, continued *)

Lemma slice_last_short {A : Type} (k : nat) (l : list A) :
  (List.length l <= k)%nat -> Js.slice_last k l = l.
Proof.
  intros H. unfold Js.slice_last.
  replace (List.length l - k)%nat with 0%nat by lia. reflexivity.
Qed.

Lemma slice_last_app {A : Type} (k : nat) (older recent : list A) :
  List.length recent = k -> Js.slice_last k (older ++ recent) = recent.
Proof.
  intros H. unfold Js.slice_last. rewrite length_app.
  replace (List.length older + List.length recent - k)%nat
    with (List.length older) by lia.
  rewrite skipn_app, skipn_all, Nat.sub_diag. reflexivity.
Qed.

(** X4. Only the last ten messages reach the voice instruction: the
    instruction for a history equals the instruction for its last ten
    messages, so anything older than the ten most recent messages has no
    influence on it. *)
Theorem buildVoiceSystemInstruction_ignores_older (persona : VoicePersona) :
  (forall history,
     buildVoiceSystemInstruction persona history
     = buildVoiceSystemInstruction persona (Js.slice_last 10 history))
  /\ (forall older recent,
        List.length recent = 10%nat ->
        buildVoiceSystemInstruction persona (older ++ recent)
        = buildVoiceSystemInstruction persona recent).
Proof.
  assert (H : forall history,
     buildVoiceSystemInstruction persona history
     = buildVoiceSystemInstruction persona (Js.slice_last 10 history)).
  { intros history. unfold buildVoiceSystemInstruction.
    rewrite (slice_last_short 10 (Js.slice_last 10 history))
      by (rewrite slice_last_length; lia).
    rewrite slice_last_length.
    destruct history as [|m rest]; [reflexivity|]. cbn [List.length].
    destruct (List.length rest); reflexivity. }
  split; [exact H|].
  intros older recent Hlen. rewrite H, slice_last_app by exact Hlen.
  reflexivity.
Qed.

Lemma buildVoiceSystemInstruction_ignores_older_witness :
  buildVoiceSystemInstruction Puck fifteenMessages
  = buildVoiceSystemInstruction Puck
      (map userMessage
         ["m6"; "m7"; "m8"; "m9"; "m10"; "m11"; "m12"; "m13"; "m14"; "m15"]).
Proof.
  exact (proj2 (buildVoiceSystemInstruction_ignores_older Puck)
           (map userMessage ["m1"; "m2"; "m3"; "m4"; "m5"])
           (map userMessage
              ["m6"; "m7"; "m8"; "m9"; "m10"; "m11"; "m12"; "m13"; "m14"; "m15"])
           eq_refl).
Defined.

(** ** The state the service keeps *)

Lemma keepsWellFormed_refl w : keepsWellFormed w w.
Proof. intros H. exact H. Qed.

Lemma keepsWellFormed_trans a b c :
  keepsWellFormed a b -> keepsWellFormed b c -> keepsWellFormed a c.
Proof. unfold keepsWellFormed. tauto. Qed.

Ltac wf_step :=
  match goal with
  | |- Respects _ (bind _ _) => apply (respects_bind _ keepsWellFormed_trans)
  | |- Respects _ (try_catch _ _) => apply (respects_try_catch _ keepsWellFormed_trans)
  | |- Respects _ (forEach _ _) =>
      apply (respects_forEach _ keepsWellFormed_refl keepsWellFormed_trans)
  | |- Respects _ (when _ _) => apply (respects_when _ keepsWellFormed_refl)
  | |- Respects _ (discard _) =>
      apply (respects_discard _ keepsWellFormed_refl keepsWellFormed_trans)
  | |- Respects _ (ret _) => apply (respects_ret _ keepsWellFormed_refl)
  | |- Respects _ (throw _) => apply (respects_throw _ keepsWellFormed_refl)
  | |- Respects _ (emit _) => apply (respects_emit _ keepsWellFormed_refl)
  | |- Respects _ (await _) => apply (respects_await _ keepsWellFormed_refl)
  | |- Respects _ getService => apply (respects_getService _ keepsWellFormed_refl)
  | |- Respects _ getLive => apply (respects_getLive _ keepsWellFormed_refl)
  | |- Respects _ getCurrentTime =>
      apply (respects_getCurrentTime _ keepsWellFormed_refl)
  | |- Respects _ (match ?x with _ => _ end) => destruct x
  | |- forall _, _ => intro
  end.

(** Proves that an explicit world is well formed from [H : wellFormed w]. *)
Ltac wf_explicit H :=
  let Hp := fresh "Hp" in
  let Hs := fresh "Hs" in
  let Hc := fresh "Hc" in
  let Hn := fresh "Hn" in
  let Hf := fresh "Hf" in
  destruct H as [Hp [Hs [Hc [Hn Hf]]]];
  unfold wellFormed, contextPaired, currentSpeed, cursor, sourcesFresh, tracked in *;
  cbn in *;
  repeat match goal with
         | |- _ /\ _ => split
         end;
  try assumption; try (constructor; fail);
  try (split; intros; congruence).

Lemma wf_initialWorld : wellFormed initialWorld.
Proof.
  unfold wellFormed, contextPaired, currentSpeed, cursor, sourcesFresh, tracked. cbn.
  repeat split; try tauto; try reflexivity; try constructor. discriminate.
Qed.

Lemma wf_modifyLive f : Respects keepsWellFormed (modifyLive f).
Proof. intros w H. exact H. Qed.

Lemma wf_clockAdvance dt : Respects keepsWellFormed (clockAdvance dt).
Proof. intros w H. exact H. Qed.

Lemma fresh_weaken (n : nat) (l : list AudioBufferSourceNode) :
  Forall (fun s => (nodeId s < n)%nat /\ startedAt s <> None) l ->
  Forall (fun s => (nodeId s < S n)%nat /\ startedAt s <> None) l.
Proof.
  apply Forall_impl. intros s [H1 H2]. split; [lia|exact H2].
Qed.

Lemma wf_raiseCursor : Respects keepsWellFormed raiseCursor.
Proof.
  intros w H. wf_explicit H.
  eapply Qle_trans; [exact Hc|apply Q.le_max_l].
Qed.

Lemma setAdd_fresh (x : AudioBufferSourceNode) (l : list AudioBufferSourceNode) :
  Forall (fun s => (nodeId s < nodeId x)%nat /\ startedAt s <> None) l ->
  setAdd x l = l ++ [x].
Proof.
  intros H. unfold setAdd.
  replace (existsb (sameNode x) l) with false; [reflexivity|].
  symmetry. apply not_true_is_false. intros E.
  apply existsb_exists in E. destruct E as [s [Hs E]].
  rewrite Forall_forall in H. destruct (H s Hs) as [Hlt _].
  unfold sameNode in E. apply Nat.eqb_eq in E. lia.
Qed.

Lemma nodup_ids_snoc (n : nat) (x : AudioBufferSourceNode)
    (l : list AudioBufferSourceNode) :
  nodeId x = n ->
  NoDup (map nodeId l) ->
  Forall (fun s => (nodeId s < n)%nat /\ startedAt s <> None) l ->
  NoDup (map nodeId (l ++ [x])).
Proof.
  intros Hx Hnd Hf. rewrite map_app. cbn.
  apply NoDup_app; [exact Hnd|repeat constructor; intros []|].
  intros a Ha [Hb|[]]. apply in_map_iff in Ha. destruct Ha as [s [Es Hs]].
  rewrite Forall_forall in Hf. destruct (Hf s Hs) as [Hlt _]. lia.
Qed.

Lemma wf_scheduleBuffer buf :
  0 <= duration buf -> Respects keepsWellFormed (scheduleBuffer buf).
Proof.
  intros Hd w H.
  assert (Hfresh := proj2 (proj2 (proj2 (proj2 H)))).
  unfold tracked in Hfresh.
  unfold scheduleBuffer. run_monad. unfold worldOf. cbn.
  rewrite setAdd_fresh by exact Hfresh.
  wf_explicit H.
  - rewrite <- (Qplus_0_r 0). apply Qplus_le_compat; [exact Hc|].
    apply quotient_nonneg; assumption.
  - apply (nodup_ids_snoc (nextNodeId w)); [reflexivity|exact Hn|exact Hf].
  - apply Forall_app. split; [apply fresh_weaken; exact Hf|].
    constructor; [|constructor]. cbn. split; [lia|discriminate].
Qed.

Lemma wf_stopAudio : Respects keepsWellFormed stopAudio.
Proof.
  intros w H. rewrite stopAudio_run. unfold worldOf. cbn.
  wf_explicit H. apply Qle_refl.
Qed.

Lemma wf_sourceEnded node : Respects keepsWellFormed (sourceEnded node).
Proof.
  intros w H. unfold sourceEnded, modifyService, worldOf. cbn.
  wf_explicit H; unfold setDelete.
  - clear Hf. induction (activeSources (service w)) as [|s l IH]; [constructor|].
    cbn in *. inversion Hn as [|? ? Hnew Hl]; subst.
    destruct (negb (nodeId s =? node)%nat); [|apply IH; exact Hl].
    cbn. constructor; [|apply IH; exact Hl].
    intros Hin. apply Hnew. apply in_map_iff in Hin. destruct Hin as [y [Ey Hy]].
    apply filter_In in Hy. apply in_map_iff. exists y. tauto.
  - rewrite Forall_forall in *. intros s Hin. apply filter_In in Hin.
    apply Hf. tauto.
Qed.

Lemma wf_setAudioSettings settings :
  0 < speed settings -> Respects keepsWellFormed (setAudioSettings settings).
Proof.
  intros Hspeed w H. unfold setAudioSettings. run_monad. unfold worldOf. cbn.
  destruct (outputNode (service w)) as [g|] eqn:Eg; cbn;
    wf_explicit H; rewrite ?Eg in *; try tauto; try congruence.
  split; intros E; [apply Hp in E|]; discriminate E.
Qed.

Lemma wf_ensureAudioContext : Respects keepsWellFormed ensureAudioContext.
Proof.
  intros w H. unfold ensureAudioContext. run_monad. unfold worldOf. cbn.
  destruct (audioContext (service w)) as [c|] eqn:Ec; cbn; [exact H|].
  wf_explicit H.
Qed.

Lemma wf_connectLive env persona history mic :
  Respects keepsWellFormed (connectLive env persona history mic).
Proof.
  intros w H. unfold connectLive, ensureAudioContext. run_monad. unfold worldOf.
  destruct (Js.truthy_string (API_KEY env)); cbn; [|exact H].
  destruct (audioContext (service w)) as [c|] eqn:Ec; cbn.
  - destruct (outputNode (service w)) as [g|] eqn:Eg; cbn; [|exact H].
    destruct mic as [[]|e]; cbn; wf_explicit H; rewrite ?Ec, ?Eg in *;
      try (split; intros E; discriminate E).
  - destruct mic as [[]|e]; cbn; wf_explicit H.
Qed.

Lemma wf_callToolHandler h name args :
  preservesWellFormed h -> Respects keepsWellFormed (callToolHandler h name args).
Proof.
  intros Hh w Hw. specialize (Hh name args w Hw). unfold callToolHandler, worldOf.
  destruct (h name args w) as [r w1]. exact Hh.
Qed.

Lemma wf_handleToolCalls onToolCall message :
  match onToolCall with Some h => preservesWellFormed h | None => True end ->
  Respects keepsWellFormed (handleToolCalls onToolCall message).
Proof.
  intros Hh. unfold handleToolCalls.
  destruct (toolCall message) as [tc|]; [|repeat wf_step].
  destruct onToolCall as [h|]; [|repeat wf_step].
  destruct (functionCalls tc) as [fcs|]; [|repeat wf_step].
  apply (respects_forEach _ keepsWellFormed_refl keepsWellFormed_trans). intros fc.
  unfold handleFunctionCall, sendToolResponse.
  apply (respects_bind _ keepsWellFormed_trans); [apply wf_callToolHandler, Hh|].
  repeat wf_step.
Qed.

Lemma wf_playChunk decode base64Audio :
  (forall b buf, decode b = Resolved buf -> 0 <= duration buf) ->
  Respects keepsWellFormed (playChunk decode base64Audio).
Proof.
  intros Hdec. unfold playChunk.
  apply (respects_bind _ keepsWellFormed_trans);
    [apply (respects_getService _ keepsWellFormed_refl)|].
  intros svc.
  destruct base64Audio as [b|]; [|apply (respects_ret _ keepsWellFormed_refl)].
  destruct (audioContext svc); [|apply (respects_ret _ keepsWellFormed_refl)].
  destruct (outputNode svc); [|apply (respects_ret _ keepsWellFormed_refl)].
  destruct (Js.truthy_string b); [|apply (respects_ret _ keepsWellFormed_refl)].
  apply (respects_bind _ keepsWellFormed_trans); [apply wf_raiseCursor|].
  intros _ w. destruct (decode b) as [buf|e] eqn:Hb.
  - change (keepsWellFormed w (worldOf (scheduleBuffer buf w))).
    apply (wf_scheduleBuffer buf (Hdec b buf Hb) w).
  - apply keepsWellFormed_refl.
Qed.

Lemma wf_onmessage decode onToolCall message :
  (forall b buf, decode b = Resolved buf -> 0 <= duration buf) ->
  match onToolCall with Some h => preservesWellFormed h | None => True end ->
  Respects keepsWellFormed (onmessage decode onToolCall message).
Proof.
  intros Hdec Hh. unfold onmessage.
  apply (respects_bind _ keepsWellFormed_trans); [apply wf_handleToolCalls, Hh|intros _].
  apply (respects_bind _ keepsWellFormed_trans); [apply wf_playChunk, Hdec|intros _].
  apply (respects_bind _ keepsWellFormed_trans);
    [unfold handleTranscriptions; repeat wf_step; apply wf_modifyLive|intros _].
  apply (respects_bind _ keepsWellFormed_trans);
    [unfold handleTurnComplete; repeat wf_step; apply wf_modifyLive|intros _].
  unfold handleInterrupted. apply (respects_when _ keepsWellFormed_refl), wf_stopAudio.
Qed.

Lemma wf_speakText env backend decode text persona :
  Respects keepsWellFormed (speakText env backend decode text persona).
Proof.
  intros w H. unfold worldOf.
  speak_cases env backend decode w.
  destruct (backend _ _) as [response|[m]]; cbn [fst snd];
    [destruct (responseAudio response) as [b|]; cbn [fst snd];
     [destruct (Js.truthy_string b); cbn [fst snd];
      [cbn;
       destruct (audioContext (service w)) as [ctx|] eqn:Ec; cbn;
       [destruct (outputNode (service w)) as [g|] eqn:Eg; cbn|];
       try destruct (decode b) as [buf|[m]]; cbn| ]| ]| ];
    wf_explicit H; rewrite ?Ec, ?Eg in *;
    try apply Qle_refl;
    try (split; intros E; first [discriminate E | apply Hp in E; discriminate E]);
    try (repeat constructor; cbn; intuition (try lia; try discriminate)).
Qed.

Lemma wf_liveStop : Respects keepsWellFormed liveStop.
Proof.
  unfold liveStop. repeat wf_step; first [apply wf_modifyLive | apply wf_stopAudio].
Qed.

Lemma wf_perform env backend decode (op : Op) :
  (forall b buf, decode b = Resolved buf -> 0 <= duration buf) ->
  wellBehaved op ->
  Respects keepsWellFormed (perform env backend decode op).
Proof.
  intros Hdec Hop.
  destruct op as [settings|text model history persona|text persona
                 |persona history mic|established| |onToolCall message|err| | |
                 |node|dt];
    cbn [perform wellBehaved] in *.
  - apply wf_setAudioSettings, Hop.
  - unfold sendChatMessage, generateContent. repeat wf_step.
  - apply wf_speakText.
  - apply (respects_discard _ keepsWellFormed_refl keepsWellFormed_trans), wf_connectLive.
  - unfold onopen. repeat wf_step; apply wf_modifyLive.
  - unfold onaudioprocess, sendRealtimeInput. repeat wf_step.
  - apply wf_onmessage; [exact Hdec|]. destruct onToolCall; [exact Hop|exact I].
  - unfold onerror. destruct err. apply (respects_emit _ keepsWellFormed_refl).
  - apply wf_modifyLive.
  - apply wf_liveStop.
  - apply wf_stopAudio.
  - apply wf_sourceEnded.
  - apply wf_clockAdvance.
Qed.

Lemma wf_run env backend decode (ops : list Op) (w : World) :
  (forall b buf, decode b = Resolved buf -> 0 <= duration buf) ->
  Forall wellBehaved ops ->
  wellFormed w ->
  wellFormed (run env backend decode w ops).
Proof.
  intros Hdec. revert w. induction ops as [|op ops IH]; intros w Hops Hw.
  - exact Hw.
  - inversion Hops as [|? ? Hop Hrest]; subst. cbn [run fold_left].
    apply IH; [exact Hrest|]. apply (wf_perform env backend decode op Hdec Hop w Hw).
Qed.

(** X5. Starting from a new service, whatever sequence of operations is
    performed (with settings of positive speed, a decoder that yields
    non-negative durations and tool handlers that themselves keep the
    state well formed), the state stays well formed: the audio context
    and the gain node exist together or not at all, the speed is
    positive, the cursor is never negative, and the tracked sources are
    distinct objects that the service created and started. *)
Theorem reachable_worlds_are_wellFormed
    (env : ProcessEnv)
    (backend : GoogleGenAI -> GenerateContentParameters -> Outcome GenerateContentResponse)
    (decode : string -> Outcome AudioBuffer)
    (ops : list Op) :
  (forall b buf, decode b = Resolved buf -> 0 <= duration buf) ->
  Forall wellBehaved ops ->
  wellFormed (run env backend decode initialWorld ops).
Proof.
  intros Hdec Hops. apply wf_run; [exact Hdec|exact Hops|apply wf_initialWorld].
Qed.

Lemma reachable_worlds_are_wellFormed_witness :
  wellFormed
    (run envBoth (backendReplies (audioResponse "ab")) decodeByLength initialWorld
       [OpConnectLive Zephyr [] (Resolved tt);
        OpOnMessage None (chunkMessage "abc");
        OpSetAudioSettings {| volume := 1 # 2; speed := 3 # 2 |};
        OpSpeakText "hi" Zephyr;
        OpSourceEnded 1]).
Proof.
  apply (reachable_worlds_are_wellFormed envBoth (backendReplies (audioResponse "ab"))
           decodeByLength).
  - exact decodeByLength_nonneg.
  - repeat constructor.
Defined.



Lemma stopEvents_started (l : list AudioBufferSourceNode) :
  Forall (fun s => startedAt s <> None) l ->
  stopEvents l = map (fun s => EvSourceStop (nodeId s)) l.
Proof.
  induction 1 as [|s l Hs Hl IH]; [reflexivity|].
  unfold stopEvents in *. cbn. rewrite IH.
  destruct (startedAt s); [reflexivity|congruence].
Qed.

(** X7. In a well-formed state (every reachable one), [stopAudio] calls
    [stop()] on each tracked source exactly once, in the order in which
    the sources were added, and none of these calls throws. *)
Theorem stopAudio_stops_each_source_once (w : World) :
  wellFormed w ->
  eventsOf (stopAudio w) = map (fun s => EvSourceStop (nodeId s)) (tracked w)
  /\ NoDup (eventsOf (stopAudio w)).
Proof.
  intros [_ [_ [_ [Hnd Hf]]]]. rewrite stopAudio_run. unfold eventsOf. cbn [snd].
  assert (E : stopEvents (tracked w)
              = map (fun s => EvSourceStop (nodeId s)) (tracked w)).
  { apply stopEvents_started. revert Hf. apply Forall_impl. tauto. }
  rewrite E. split; [reflexivity|].
  unfold tracked in *. clear E Hf.
  induction (activeSources (service w)) as [|s l IH]; [constructor|].
  cbn in *. inversion Hnd as [|? ? Hs Hl]; subst.
  constructor; [|apply IH; exact Hl].
  intros Hin. apply Hs. apply in_map_iff in Hin. destruct Hin as [y [Ey Hy]].
  injection Ey as Ey. rewrite <- Ey. apply in_map. exact Hy.
Qed.

Lemma wf_busyWorld : wellFormed busyWorld.
Proof.
  unfold wellFormed, contextPaired, currentSpeed, cursor, sourcesFresh, tracked. cbn.
  split; [split; intros H; discriminate H|].
  split; [reflexivity|]. split; [discriminate|].
  split; [repeat constructor; cbn; intuition discriminate|].
  repeat constructor; cbn; try lia; discriminate.
Qed.

Lemma stopAudio_stops_each_source_once_witness :
  eventsOf (stopAudio busyWorld) = [EvSourceStop 0; EvSourceStop 1]
  /\ NoDup (eventsOf (stopAudio busyWorld)).
Proof. exact (stopAudio_stops_each_source_once busyWorld wf_busyWorld). Defined.

Lemma setDelete_fresh (n : nat) (x : AudioBufferSourceNode)
    (l : list AudioBufferSourceNode) :
  nodeId x = n ->
  Forall (fun s => (nodeId s < n)%nat /\ startedAt s <> None) l ->
  setDelete n (l ++ [x]) = l /\ setDelete n l = l.
Proof.
  intros Hx Hf. unfold setDelete. rewrite filter_app. cbn.
  rewrite Hx, Nat.eqb_refl. cbn. rewrite app_nil_r.
  assert (E : List.filter (fun y => negb (nodeId y =? n)%nat) l = l).
  { induction Hf as [|s l [Hs _] Hl IH]; [reflexivity|]. cbn.
    replace (nodeId s =? n)%nat with false by (symmetry; apply Nat.eqb_neq; lia).
    cbn. f_equal. exact IH. }
  split; exact E.
Qed.

(** X8. Scheduling a buffer and then receiving its [ended] event brings
    the set of tracked sources back to what it was, while the cursor
    stays where the scheduling moved it; a second [ended] event for the
    same source changes nothing. *)
Theorem chunk_ended_round_trip (buf : AudioBuffer) (w : World) :
  wellFormed w ->
  let w1 := worldOf (scheduleBuffer buf w) in
  let w2 := worldOf (sourceEnded (nextNodeId w) w1) in
  tracked w1 = tracked w ++ [liveSource w buf]
  /\ tracked w2 = tracked w
  /\ cursor w2 = cursor w + duration buf / currentSpeed w
  /\ tracked (worldOf (sourceEnded (nextNodeId w) w2)) = tracked w2.
Proof.
  intros [_ [_ [_ [_ Hf]]]] w1 w2. subst w1 w2.
  unfold scheduleBuffer, sourceEnded. run_monad.
  unfold worldOf, tracked, cursor, currentSpeed, liveSource in *.
  cbn -[setAdd setDelete].
  rewrite setAdd_fresh by exact Hf.
  destruct (setDelete_fresh (nextNodeId w)
              {| nodeId := nextNodeId w; buffer := buf;
                 playbackRate := speed (currentAudioSettings (service w));
                 startedAt := Some (nextStartTime (service w)) |}
              (activeSources (service w)) eq_refl Hf) as [E1 E2].
  split; [reflexivity|]. rewrite E1. split; [reflexivity|].
  split; [reflexivity|exact E2].
Qed.

Lemma chunk_ended_round_trip_witness :
  tracked (worldOf (scheduleBuffer {| duration := 3 |} busyWorld))
  = tracked busyWorld ++ [liveSource busyWorld {| duration := 3 |}]
  /\ tracked (worldOf (sourceEnded 2 (worldOf (scheduleBuffer {| duration := 3 |} busyWorld))))
     = tracked busyWorld
  /\ cursor (worldOf (sourceEnded 2 (worldOf (scheduleBuffer {| duration := 3 |} busyWorld))))
     = cursor busyWorld + 3 / currentSpeed busyWorld
  /\ tracked (worldOf (sourceEnded 2
                (worldOf (sourceEnded 2
                   (worldOf (scheduleBuffer {| duration := 3 |} busyWorld))))))
     = tracked (worldOf (sourceEnded 2 (worldOf (scheduleBuffer {| duration := 3 |} busyWorld)))).
Proof.
  exact (chunk_ended_round_trip {| duration := 3 |} busyWorld wf_busyWorld).
Defined.

(** ** The live handler, continued *)

Lemma playChunk_run (decode : string -> Outcome AudioBuffer)
    (b : string) (buf : AudioBuffer) (w : World) :
  ready w ->
  Js.truthy_string b = true ->
  decode b = Resolved buf ->
  playChunk decode (Some b) w
  = (Resolved tt, scheduled w buf,
     [EvSourceStart (nextNodeId w) (Qmax (cursor w) (currentTime w))]).
Proof.
  intros [Hctx Hout] Hb Hdec.
  unfold playChunk, raiseCursor, scheduleBuffer. run_monad.
  destruct (audioContext (service w)) as [ctx|] eqn:Ectx; [|congruence].
  destruct (outputNode (service w)) as [g|] eqn:Eout; [|congruence].
  rewrite Hb. cbn -[setAdd]. rewrite Hdec. cbn -[setAdd]. reflexivity.
Qed.

(** X9. [setAudioSettings] leaves the cursor, the tracked sources (and
    so the rate of everything already scheduled) and the current gain
    value as they are; it only sets a gain target.  The next chunk is
    then started where it would have been started without the change,
    at the later of the cursor and the clock, and its source is given
    the new speed as its playback rate. *)
Theorem setAudioSettings_applies_to_next_chunk
    (decode : string -> Outcome AudioBuffer)
    (settings : AudioSettings) (b : string) (buf : AudioBuffer) (w : World) :
  ready w ->
  Js.truthy_string b = true ->
  decode b = Resolved buf ->
  let w1 := worldOf (setAudioSettings settings w) in
  let w2 := worldOf (playChunk decode (Some b) w1) in
  let start := Qmax (cursor w) (currentTime w) in
  tracked w1 = tracked w
  /\ cursor w1 = cursor w
  /\ option_map gainValue (outputNode (service w1))
     = option_map gainValue (outputNode (service w))
  /\ option_map gainTarget (outputNode (service w1))
     = Some (Some {| target := volume settings;
                     targetStart := currentTime w; timeConstant := 1 # 10 |})
  /\ eventsOf (playChunk decode (Some b) w1) = [EvSourceStart (nextNodeId w) start]
  /\ currentSpeed w2 = speed settings
  /\ tracked w2
     = setAdd {| nodeId := nextNodeId w; buffer := buf;
                 playbackRate := speed settings; startedAt := Some start |}
              (tracked w).
Proof.
  intros [Hctx Hout] Hb Hdec w1 w2 start.
  assert (Hready1 : ready w1).
  { subst w1. unfold setAudioSettings, ready. run_monad. unfold worldOf.
    destruct (outputNode (service w)) as [g|] eqn:Eg; [|congruence].
    cbn. rewrite Eg. cbn. split; [exact Hctx|discriminate]. }
  subst w2. rewrite (playChunk_run decode b buf w1 Hready1 Hb Hdec).
  subst w1 start. unfold setAudioSettings. run_monad.
  unfold worldOf, eventsOf, tracked, cursor, currentSpeed.
  destruct (outputNode (service w)) as [g|] eqn:Eg; [|congruence].
  destruct (audioContext (service w)) as [c|] eqn:Ec; [|congruence].
  cbn -[setAdd]. rewrite Eg. cbn -[setAdd]. rewrite Ec.
  repeat split; reflexivity.
Qed.

Lemma setAudioSettings_applies_to_next_chunk_witness :
  let w1 := worldOf (setAudioSettings {| volume := 1 # 2; speed := 3 # 2 |} busyWorld) in
  eventsOf (playChunk decodeByLength (Some "abc") w1)
  = [EvSourceStart (nextNodeId busyWorld)
       (Qmax (cursor busyWorld) (currentTime busyWorld))]
  /\ tracked (worldOf (playChunk decodeByLength (Some "abc") w1))
     = setAdd {| nodeId := nextNodeId busyWorld; buffer := {| duration := inject_Z 3 |};
                 playbackRate := 3 # 2;
                 startedAt := Some (Qmax (cursor busyWorld) (currentTime busyWorld)) |}
              (tracked busyWorld).
Proof.
  assert (Hready : ready busyWorld) by (split; discriminate).
  pose proof (setAudioSettings_applies_to_next_chunk decodeByLength
                {| volume := 1 # 2; speed := 3 # 2 |} "abc"
                {| duration := inject_Z 3 |} busyWorld Hready eq_refl eq_refl) as H.
  cbv zeta in H. destruct H as [_ [_ [_ [_ [H1 [_ H2]]]]]].
  split; [exact H1|exact H2].
Defined.

Lemma append_empty_r (s : string) : (s ++ "")%string = s.
Proof. induction s as [|c s IH]; [reflexivity|]. cbn. rewrite IH. reflexivity. Qed.

Lemma append_assoc (a b c : string) :
  ((a ++ b) ++ c)%string = (a ++ (b ++ c))%string.
Proof. induction a as [|x a IH]; [reflexivity|]. cbn. rewrite IH. reflexivity. Qed.

Lemma withBuffers_same (w : World) :
  withBuffers (currentInputText (live w)) (currentOutputText (live w)) w = w.
Proof. destruct w as [svc [i o a sp sl ic] t n]. reflexivity. Qed.

Lemma handleTranscriptions_run (m : LiveServerMessage) (w : World) :
  handleTranscriptions m w
  = (Resolved tt,
     withBuffers (currentInputText (live w) ++ inputFragment m)
                 (currentOutputText (live w) ++ outputFragment m) w,
     transcriptionEvents (currentInputText (live w)) (currentOutputText (live w)) m).
Proof.
  unfold handleTranscriptions, transcriptionEvents, inputFragment, outputFragment.
  run_monad.
  destruct w as [svc [i o a sp sl ic] t n].
  destruct (Js.chain (serverContent m) inputTranscription) as [ti|];
    destruct (Js.chain (serverContent m) outputTranscription) as [to|];
    cbn; rewrite ?append_empty_r; reflexivity.
Qed.

Lemma handleTurnComplete_run (m : LiveServerMessage) (w : World) :
  handleTurnComplete m w
  = if endsTurn m
    then (Resolved tt, withBuffers "" "" w,
          [EvOnTurnComplete (currentInputText (live w)) (currentOutputText (live w))])
    else (Resolved tt, w, []).
Proof.
  unfold handleTurnComplete, endsTurn.
  destruct (flag (option_map turnComplete (serverContent m))); reflexivity.
Qed.

Lemma bind_noop {A : Type} (m : M unit) (k : unit -> M A) (w : World) :
  m w = (Resolved tt, w, []) -> bind m k w = k tt w.
Proof.
  intros H. unfold bind. rewrite H. destruct (k tt w) as [[r w2] l2]. reflexivity.
Qed.

Lemma bind_ret_tt (m : M unit) (w : World) :
  bind m (fun _ => ret tt) w = m w.
Proof.
  unfold bind, ret. destruct (m w) as [[[[]|e] w1] l1]; cbn;
    rewrite ?app_nil_r; reflexivity.
Qed.

Lemma handleToolCalls_none onToolCall (m : LiveServerMessage) (w : World) :
  toolCall m = None -> handleToolCalls onToolCall m w = (Resolved tt, w, []).
Proof. intros H. unfold handleToolCalls. rewrite H. reflexivity. Qed.

Lemma playChunk_none decode (w : World) :
  playChunk decode None w = (Resolved tt, w, []).
Proof. reflexivity. Qed.

Lemma onmessage_textOnly decode onToolCall (m : LiveServerMessage) (w : World) :
  textOnly m ->
  onmessage decode onToolCall m w
  = (Resolved tt,
     (if endsTurn m then withBuffers "" "" w
      else withBuffers (currentInputText (live w) ++ inputFragment m)
                       (currentOutputText (live w) ++ outputFragment m) w),
     transcriptionEvents (currentInputText (live w)) (currentOutputText (live w)) m
       ++ (if endsTurn m
           then [EvOnTurnComplete (currentInputText (live w) ++ inputFragment m)
                                  (currentOutputText (live w) ++ outputFragment m)]
           else [])).
Proof.
  intros [Htool [Haudio Hint]]. unfold onmessage.
  rewrite (bind_noop _ _ _ (handleToolCalls_none onToolCall m w Htool)).
  rewrite Haudio, (bind_noop _ _ _ (playChunk_none decode w)).
  rewrite (bind_resolved _ _ _ _ _ _ (handleTranscriptions_run m w)).
  unfold handleInterrupted. rewrite Hint. unfold when.
  rewrite bind_ret_tt, handleTurnComplete_run.
  unfold outcomeOf, worldOf, eventsOf.
  destruct (endsTurn m); cbn; rewrite ?app_nil_r; reflexivity.
Qed.

Lemma turn_prefix decode onToolCall (ms : list LiveServerMessage)
    (mf : LiveServerMessage) (w : World) :
  Forall (fun m => textOnly m /\ endsTurn m = false) ms ->
  textOnly mf ->
  endsTurn mf = true ->
  forEach (onmessage decode onToolCall) (ms ++ [mf]) w
  = (Resolved tt, withBuffers "" "" w,
     turnEvents (currentInputText (live w)) (currentOutputText (live w)) (ms ++ [mf])
       ++ [EvOnTurnComplete
             (currentInputText (live w) ++ joined (map inputFragment (ms ++ [mf])))
             (currentOutputText (live w) ++ joined (map outputFragment (ms ++ [mf])))]).
Proof.
  intros Hms Hmf Hend. revert w.
  induction Hms as [|m ms [Hm Hnot] _ IH]; intros w.
  - cbn [app forEach map joined fold_right turnEvents].
    rewrite (bind_resolved _ _ _ _ _ _ (onmessage_textOnly decode onToolCall mf w Hmf)).
    rewrite Hend. unfold outcomeOf, worldOf, eventsOf. cbn.
    rewrite !append_empty_r, !app_nil_r. reflexivity.
  - cbn [app forEach].
    rewrite (bind_resolved (onmessage decode onToolCall m)
               (fun _ => forEach (onmessage decode onToolCall) (ms ++ [mf]))
               _ _ _ _ (onmessage_textOnly decode onToolCall m w Hm)).
    rewrite Hnot, IH. unfold outcomeOf, worldOf, eventsOf.
    cbn [fst snd map joined fold_right turnEvents].
    destruct w as [svc [i o a sp sl ic] t n]. cbn.
    rewrite !append_assoc, app_nil_r, <- !app_assoc. reflexivity.
Qed.

(** X10. Over one turn of a live session (messages that carry only
    transcriptions, the last of which completes the turn), every
    [onTranscription] callback receives the text accumulated so far in
    its direction, [onTurnComplete] receives what was buffered before the
    turn followed by all its input fragments and all its output
    fragments, in order, and both buffers are empty afterwards. *)
Theorem turn_transcripts_accumulate
    (decode : string -> Outcome AudioBuffer) (onToolCall : option ToolHandler)
    (ms : list LiveServerMessage) (mf : LiveServerMessage) (w : World) :
  Forall (fun m => textOnly m /\ endsTurn m = false) ms ->
  textOnly mf ->
  endsTurn mf = true ->
  let i := currentInputText (live w) in
  let o := currentOutputText (live w) in
  let r := forEach (onmessage decode onToolCall) (ms ++ [mf]) w in
  outcomeOf r = Resolved tt
  /\ eventsOf r
     = turnEvents i o (ms ++ [mf])
         ++ [EvOnTurnComplete (i ++ joined (map inputFragment (ms ++ [mf])))
                              (o ++ joined (map outputFragment (ms ++ [mf])))]
  /\ currentInputText (live (worldOf r)) = ""
  /\ currentOutputText (live (worldOf r)) = ""
  /\ service (worldOf r) = service w.
Proof.
  intros Hms Hmf Hend i o r. subst r i o.
  rewrite (turn_prefix decode onToolCall ms mf w Hms Hmf Hend).
  unfold outcomeOf, worldOf, eventsOf. cbn. repeat split; reflexivity.
Qed.

Lemma turn_transcripts_accumulate_witness :
  eventsOf (forEach (onmessage decodeByLength None)
              ([transcriptMessage (Some "turn ") None false;
                transcriptMessage (Some "it up") (Some "Done") false]
               ++ [transcriptMessage None (Some ".") true]) readyWorld)
  = [EvOnTranscription "turn " true;
     EvOnTranscription "turn it up" true;
     EvOnTranscription "Done" false;
     EvOnTranscription "Done." false;
     EvOnTurnComplete "turn it up" "Done."].
Proof.
  assert (H1 : Forall (fun m => textOnly m /\ endsTurn m = false)
                 [transcriptMessage (Some "turn ") None false;
                  transcriptMessage (Some "it up") (Some "Done") false])
    by (repeat constructor).
  assert (H2 : textOnly (transcriptMessage None (Some ".") true))
    by (repeat constructor).
  exact (proj1 (proj2 (turn_transcripts_accumulate decodeByLength None
           [transcriptMessage (Some "turn ") None false;
            transcriptMessage (Some "it up") (Some "Done") false]
           (transcriptMessage None (Some ".") true) readyWorld H1 H2 eq_refl))).
Defined.

Lemma liveStop_run (w : World) :
  liveStop w = (Resolved tt, torndown w, stopEvents (tracked w)).
Proof.
  unfold liveStop. run_monad. cbn -[stopAudio].
  destruct (scriptProcessor (live w)) eqn:E; cbn -[stopAudio];
    rewrite stopAudio_run; unfold silenced, torndown, tracked; cbn;
    rewrite ?E; reflexivity.
Qed.

(** X11. The [stop] of a live handle never throws; it stops every
    tracked source, clears the session reference and keeps the text
    buffers.  Called again it does nothing and leaves the state exactly
    as the first call left it, and from then on a microphone frame is not
    sent anywhere. *)
Theorem liveStop_is_idempotent (w : World) :
  liveStop w = (Resolved tt, torndown w, stopEvents (tracked w))
  /\ liveStop (torndown w) = (Resolved tt, torndown w, [])
  /\ onaudioprocess (torndown w) = (Resolved tt, torndown w, [])
  /\ activeSession (live (torndown w)) = None
  /\ tracked (torndown w) = []
  /\ cursor (torndown w) = 0.
Proof.
  split; [apply liveStop_run|]. split; [rewrite liveStop_run; reflexivity|].
  repeat split.
Qed.

(** X12. The microphone callback never throws and never changes the
    state: it sends one frame when a session is active and its
    connection is open, and nothing otherwise (no session yet, session
    stopped or closed, or a connection that refuses the frame). *)
Theorem onaudioprocess_sends_only_while_live (w : World) :
  outcomeOf (onaudioprocess w) = Resolved tt
  /\ worldOf (onaudioprocess w) = w
  /\ (sessionLive w -> eventsOf (onaudioprocess w) = [EvSendRealtimeInput])
  /\ (~ sessionLive w -> eventsOf (onaudioprocess w) = []).
Proof.
  unfold onaudioprocess, sendRealtimeInput, sessionLive. run_monad.
  unfold outcomeOf, worldOf, eventsOf.
  destruct (activeSession (live w)) as [s|] eqn:Es; cbn;
    [destruct (socketOpen s) eqn:Eo; cbn|].
  - repeat split. intros H. exfalso. apply H. exists s. tauto.
  - repeat split. intros [s0 [E1 E2]]. injection E1 as <-. congruence.
  - repeat split. intros [s0 [E1 E2]]. discriminate.
Qed.

Lemma onaudioprocess_sends_only_while_live_witness :
  eventsOf (onaudioprocess readyWorld) = [EvSendRealtimeInput]
  /\ eventsOf (onaudioprocess stoppedWorld) = [].
Proof.
  split.
  - apply (proj1 (proj2 (proj2 (onaudioprocess_sends_only_while_live readyWorld)))).
    exact readyWorld_live.
  - apply (proj2 (proj2 (proj2 (onaudioprocess_sends_only_while_live stoppedWorld)))).
    intros [s [E _]]. discriminate E.
Defined.

(** X13. A chunk is dropped without any effect when its payload is
    missing or empty or when the output context or the gain node does
    not exist.  When the decoder rejects the payload, the handler rejects
    with the decoder's error: no source is created or started, the
    tracked set is unchanged and the cursor stands at the later of its
    old value and the clock, so it has not moved back. *)
Theorem playChunk_edge_cases
    (decode : string -> Outcome AudioBuffer) (w : World) :
  (forall base64Audio,
     base64Audio = None \/ base64Audio = Some ""
     \/ audioContext (service w) = None \/ outputNode (service w) = None ->
     playChunk decode base64Audio w = (Resolved tt, w, []))
  /\ (forall b e,
        ready w ->
        Js.truthy_string b = true ->
        decode b = Rejected e ->
        outcomeOf (playChunk decode (Some b) w) = Rejected e
        /\ eventsOf (playChunk decode (Some b) w) = []
        /\ tracked (worldOf (playChunk decode (Some b) w)) = tracked w
        /\ nextNodeId (worldOf (playChunk decode (Some b) w)) = nextNodeId w
        /\ cursor (worldOf (playChunk decode (Some b) w))
           = Qmax (cursor w) (currentTime w)).
Proof.
  split.
  - intros base64Audio H. unfold playChunk. run_monad.
    destruct base64Audio as [[|c b]|]; try reflexivity;
      destruct (audioContext (service w)) as [ctx|]; try reflexivity;
      destruct (outputNode (service w)) as [g|]; try reflexivity.
    destruct H as [H|[H|[H|H]]]; discriminate H.
  - intros b e [Hctx Hout] Hb Hdec.
    unfold playChunk, raiseCursor. run_monad.
    destruct (audioContext (service w)) as [ctx|] eqn:Ectx; [|congruence].
    destruct (outputNode (service w)) as [g|] eqn:Eout; [|congruence].
    rewrite Hb. cbn. rewrite Hdec. cbn. repeat split; reflexivity.
Qed.

Lemma playChunk_edge_cases_witness :
  playChunk decodeByLength (Some "abc") initialWorld
  = (Resolved tt, initialWorld, [])
  /\ outcomeOf (playChunk (fun _ => Rejected (Error "bad audio")) (Some "abc") busyWorld)
     = Rejected (Error "bad audio")
  /\ cursor (worldOf (playChunk (fun _ => Rejected (Error "bad audio"))
                        (Some "abc") busyWorld))
     = Qmax (cursor busyWorld) (currentTime busyWorld).
Proof.
  split.
  - apply (proj1 (playChunk_edge_cases decodeByLength initialWorld)).
    right. right. left. reflexivity.
  - assert (Hready : ready busyWorld) by (split; discriminate).
    pose proof (proj2 (playChunk_edge_cases (fun _ => Rejected (Error "bad audio"))
                         busyWorld)
                  "abc" (Error "bad audio") Hready eq_refl eq_refl) as H.
    split; [exact (proj1 H)|exact (proj2 (proj2 (proj2 (proj2 H))))].
Defined.

(** X14. When the caller's handler rejects for a function call, the
    message handler rejects with that error at once: no response is sent
    for the call, the remaining calls of the event are not invoked, and
    whatever else the message carried (audio, transcriptions, the end of
    the turn, the interruption signal) is not processed. *)
Theorem handler_rejection_aborts_message
    (decode : string -> Outcome AudioBuffer) (h : ToolHandler)
    (m : LiveServerMessage) (fc : FunctionCall) (rest : list FunctionCall)
    (e : JsError) (w w1 : World) :
  toolCall m = Some {| functionCalls := Some (fc :: rest) |} ->
  h (fc_name fc) (fc_args fc) w = (Rejected e, w1) ->
  onmessage decode (Some h) m w
  = (Rejected e, w1, [EvOnToolCall (fc_name fc) (fc_args fc) (Rejected e)]).
Proof.
  intros Htool Hh. unfold onmessage.
  apply bind_rejected. unfold handleToolCalls. rewrite Htool.
  cbn [functionCalls forEach]. apply bind_rejected.
  unfold handleFunctionCall. apply bind_rejected.
  unfold callToolHandler. rewrite Hh. reflexivity.
Qed.

Lemma handler_rejection_aborts_message_witness :
  onmessage decodeByLength (Some (handlerRejects "boom"))
    {| toolCall := Some {| functionCalls := Some [setVolumeCall; clearChatCall] |};
       serverContent := serverContent (interruptedChunk "abc") |}
    busyWorld
  = (Rejected (Error "boom"), busyWorld,
     [EvOnToolCall "set_volume" (Js.Object "{level: 50}") (Rejected (Error "boom"))]).
Proof.
  exact (handler_rejection_aborts_message decodeByLength (handlerRejects "boom")
           {| toolCall := Some {| functionCalls := Some [setVolumeCall; clearChatCall] |};
              serverContent := serverContent (interruptedChunk "abc") |}
           setVolumeCall [clearChatCall] (Error "boom") busyWorld busyWorld
           eq_refl eq_refl).
Defined.

(** X15. A chunk that arrives in the same message as the interruption
    signal is started and then stopped within that message: when the
    handler is done nothing is tracked, the cursor is 0, and the stop of
    the new source follows its start. *)
Theorem interrupted_chunk_is_cancelled
    (decode : string -> Outcome AudioBuffer) (onToolCall : option ToolHandler)
    (m : LiveServerMessage) (b : string) (buf : AudioBuffer) (w : World) :
  wellFormed w ->
  ready w ->
  toolCall m = None ->
  messageAudio m = Some b ->
  Js.truthy_string b = true ->
  decode b = Resolved buf ->
  endsTurn m = false ->
  flag (option_map interrupted (serverContent m)) = true ->
  let r := onmessage decode onToolCall m w in
  let start := Qmax (cursor w) (currentTime w) in
  outcomeOf r = Resolved tt
  /\ eventsOf r
     = EvSourceStart (nextNodeId w) start
         :: transcriptionEvents (currentInputText (live w))
                                (currentOutputText (live w)) m
         ++ stopEvents (tracked w) ++ [EvSourceStop (nextNodeId w)]
  /\ tracked (worldOf r) = []
  /\ cursor (worldOf r) = 0.
Proof.
  intros Hwf Hready Htool Haudio Hb Hdec Hend Hint r start. subst r start.
  assert (Hfresh := proj2 (proj2 (proj2 (proj2 Hwf)))).
  unfold onmessage.
  rewrite (bind_noop _ _ _ (handleToolCalls_none onToolCall m w Htool)).
  rewrite Haudio.
  rewrite (bind_resolved _ _ _ _ _ _ (playChunk_run decode b buf w Hready Hb Hdec)).
  rewrite (bind_resolved _ _ _ _ _ _ (handleTranscriptions_run m (scheduled w buf))).
  pose proof (handleTurnComplete_run m
    (withBuffers (currentInputText (live (scheduled w buf)) ++ inputFragment m)
                 (currentOutputText (live (scheduled w buf)) ++ outputFragment m)
                 (scheduled w buf))) as Hturn.
  rewrite Hend in Hturn. rewrite (bind_noop _ _ _ Hturn).
  unfold handleInterrupted. rewrite Hint. unfold when. rewrite stopAudio_run.
  unfold outcomeOf, worldOf, eventsOf, tracked, cursor. cbn -[setAdd stopEvents].
  unfold tracked in Hfresh. rewrite setAdd_fresh by exact Hfresh.
  split; [reflexivity|]. split; [|split; reflexivity].
  f_equal. f_equal. unfold stopEvents. rewrite flat_map_app. reflexivity.
Qed.

Lemma interrupted_chunk_is_cancelled_witness :
  eventsOf (onmessage decodeByLength None (interruptedChunk "abc") busyWorld)
  = [EvSourceStart 2 (Qmax 9 6); EvSourceStop 0; EvSourceStop 1; EvSourceStop 2]
  /\ tracked (worldOf (onmessage decodeByLength None (interruptedChunk "abc") busyWorld))
     = []
  /\ cursor (worldOf (onmessage decodeByLength None (interruptedChunk "abc") busyWorld))
     = 0.
Proof.
  assert (Hready : ready busyWorld) by (split; discriminate).
  exact (proj2 (interrupted_chunk_is_cancelled decodeByLength None
           (interruptedChunk "abc") "abc" {| duration := inject_Z 3 |} busyWorld
           wf_busyWorld Hready eq_refl eq_refl eq_refl eq_refl eq_refl eq_refl)).
Defined.

(** ** vite.config.ts *)

Lemma stripPrefix_startsWith (p s r : string) :
  Vite.stripPrefix p s = Some r -> startsWith p s = true.
Proof.
  revert s. induction p as [|a p IH]; intros s H; [reflexivity|].
  destruct s as [|b s]; [discriminate|]. cbn in *.
  destruct (Ascii.eqb a b); [|discriminate]. cbn. exact (IH _ H).
Qed.

Lemma matchKey_absent (s : string) :
  occursIn "GEMINI_API_KEY=" s = false -> Vite.matchKey s = None.
Proof.
  induction s as [|c s IH]; intros H.
  - reflexivity.
  - cbn [occursIn] in H. apply orb_false_iff in H. destruct H as [H1 H2].
    cbn [Vite.matchKey]. unfold Vite.matchHere.
    destruct (Vite.stripPrefix "GEMINI_API_KEY=" (String c s)) as [r|] eqn:E.
    + apply stripPrefix_startsWith in E. congruence.
    + apply IH. exact H2.
Qed.

Lemma matchKey_skip (before s : string) :
  Vite.lacks "G" before = true ->
  Vite.matchKey (before ++ s) = Vite.matchKey s.
Proof.
  induction before as [|c before IH]; intros H; [reflexivity|].
  cbn [Vite.lacks] in H. apply andb_true_iff in H. destruct H as [Hc Hrest].
  cbn [append Vite.matchKey]. unfold Vite.matchHere at 1.
  cbn [Vite.stripPrefix]. apply negb_true_iff in Hc. rewrite Hc.
  apply IH. exact Hrest.
Qed.

Lemma stripPrefix_append (p s : string) :
  Vite.stripPrefix p (p ++ s) = Some s.
Proof.
  induction p as [|a p IH]; [reflexivity|].
  cbn. rewrite Ascii.eqb_refl. exact IH.
Qed.

Lemma takeLine_line (k after : string) :
  Vite.noLineBreak k = true ->
  Vite.endsLine after = true ->
  Vite.takeLine (k ++ after) = k.
Proof.
  intros Hk Hafter. induction k as [|c k IH].
  - destruct after as [|d r]; [reflexivity|]. cbn in *. rewrite Hafter. reflexivity.
  - cbn in *. apply andb_true_iff in Hk. destruct Hk as [Hc Hk].
    apply negb_true_iff in Hc. rewrite Hc, (IH Hk). reflexivity.
Qed.

Lemma trimStart_nonempty (s : string) :
  Vite.trim s <> "" -> s <> "".
Proof. intros H E. subst s. apply H. reflexivity. Qed.

Lemma matchKey_line (before k after : string) :
  Vite.lacks "G" before = true ->
  k <> "" ->
  Vite.noLineBreak k = true ->
  Vite.endsLine after = true ->
  Vite.matchKey (before ++ "GEMINI_API_KEY=" ++ k ++ after) = Some k.
Proof.
  intros Hbefore Hk Hline Hafter. rewrite matchKey_skip by exact Hbefore.
  destruct k as [|c k]; [congruence|].
  assert (E : Vite.matchHere ("GEMINI_API_KEY=" ++ String c k ++ after)
              = Some (String c k)).
  { unfold Vite.matchHere. rewrite stripPrefix_append.
    rewrite (takeLine_line (String c k) after Hline Hafter). reflexivity. }
  remember ("GEMINI_API_KEY=" ++ String c k ++ after)%string as s eqn:Es.
  destruct s as [|x s]; cbn [Vite.matchKey]; rewrite E; reflexivity.
Qed.

Lemma truthy_nonempty (s : string) : s <> "" -> Js.truthy_string s = true.
Proof. destruct s; [congruence|reflexivity]. Qed.

(** X16. The key in [.env.local] wins over the environment: when the
    file has a line [GEMINI_API_KEY=k] (nothing before it contains a
    capital G, [k] runs to the end of its line and is not blank), the
    configured key is [k] trimmed, whatever [loadEnv] found.  When the
    file does not exist, or does not contain the text GEMINI_API_KEY= at
    all, the key is the one [loadEnv] found, or the empty string. *)
Theorem env_local_takes_precedence :
  (forall (before k after : string) loaded,
     Vite.lacks "G" before = true ->
     Vite.noLineBreak k = true ->
     Vite.endsLine after = true ->
     Vite.trim k <> "" ->
     Vite.apiKey {| Vite.envLocal :=
                      Some (before ++ "GEMINI_API_KEY=" ++ k ++ after)%string;
                    Vite.loadedKey := loaded |}
     = Vite.trim k)
  /\ (forall content loaded,
        occursIn "GEMINI_API_KEY=" content = false ->
        Vite.apiKey {| Vite.envLocal := Some content; Vite.loadedKey := loaded |}
        = Js.or_default loaded "")
  /\ (forall loaded,
        Vite.apiKey {| Vite.envLocal := None; Vite.loadedKey := loaded |}
        = Js.or_default loaded "").
Proof.
  split; [|split].
  - intros before k after loaded Hbefore Hline Hafter Htrim.
    unfold Vite.apiKey, Vite.fromEnvLocal. cbn [Vite.envLocal].
    rewrite (matchKey_line before k after Hbefore
               (trimStart_nonempty k Htrim) Hline Hafter).
    rewrite (truthy_nonempty _ Htrim). reflexivity.
  - intros content loaded Habsent.
    unfold Vite.apiKey, Vite.fromEnvLocal. cbn [Vite.envLocal].
    rewrite (matchKey_absent content Habsent). reflexivity.
  - intros loaded. reflexivity.
Qed.

Lemma env_local_takes_precedence_witness :
  Vite.apiKey
    {| Vite.envLocal :=
         Some ("# local settings" ++ nl ++ "GEMINI_API_KEY=" ++ " abc123 " ++ nl
               ++ "OTHER=1")%string;
       Vite.loadedKey := Some "expired" |}
  = "abc123"
  /\ Vite.apiKey {| Vite.envLocal := Some "PORT=3000";
                    Vite.loadedKey := Some "from-system" |}
     = "from-system".
Proof.
  split.
  - exact (proj1 env_local_takes_precedence
             ("# local settings" ++ nl)%string " abc123 " (nl ++ "OTHER=1")%string
             (Some "expired") eq_refl eq_refl eq_refl
             (fun H => match H in (_ = y) return
                          match y with EmptyString => False | String _ _ => True end
                       with eq_refl => I end)).
  - exact (proj1 (proj2 env_local_takes_precedence)
             "PORT=3000" (Some "from-system") eq_refl).
Defined.

Lemma takeLine_noLineBreak (s : string) :
  Vite.noLineBreak (Vite.takeLine s) = true.
Proof.
  induction s as [|c s IH]; [reflexivity|]. cbn.
  destruct (Vite.isLineTerminator c) eqn:E; [reflexivity|].
  cbn. rewrite E, IH. reflexivity.
Qed.

Lemma matchKey_noLineBreak (s c : string) :
  Vite.matchKey s = Some c -> Vite.noLineBreak c = true.
Proof.
  induction s as [|x s IH]; cbn [Vite.matchKey]; unfold Vite.matchHere.
  - cbn. discriminate.
  - destruct (Vite.stripPrefix "GEMINI_API_KEY=" (String x s)) as [r|] eqn:E.
    + pose proof (takeLine_noLineBreak r) as Hr.
      destruct (Vite.takeLine r) as [|y t] eqn:Et.
      * exact IH.
      * intros H. injection H as <-. exact Hr.
    + exact IH.
Qed.

Lemma trimStart_noLineBreak (s : string) :
  Vite.noLineBreak s = true -> Vite.noLineBreak (Vite.trimStart s) = true.
Proof.
  induction s as [|c s IH]; [reflexivity|]. intros H. cbn [Vite.trimStart].
  destruct (Vite.isWhiteSpace c); [|exact H].
  apply IH. cbn in H. apply andb_true_iff in H. tauto.
Qed.

Lemma trimEnd_noLineBreak (s : string) :
  Vite.noLineBreak s = true -> Vite.noLineBreak (Vite.trimEnd s) = true.
Proof.
  induction s as [|c s IH]; [reflexivity|]. intros H.
  cbn in H. apply andb_true_iff in H. destruct H as [Hc Hs].
  specialize (IH Hs). cbn [Vite.trimEnd].
  destruct (Vite.trimEnd s) as [|d t].
  - destruct (Vite.isWhiteSpace c); [reflexivity|]. cbn. rewrite Hc. reflexivity.
  - cbn [Vite.noLineBreak]. rewrite Hc. exact IH.
Qed.

Lemma trimEnd_cons (c : ascii) (r : string) :
  Vite.trimEnd (String c r)
  = match Vite.trimEnd r with
    | EmptyString =>
        if Vite.isWhiteSpace c then EmptyString else String c EmptyString
    | String d t => String c (String d t)
    end.
Proof. reflexivity. Qed.

Lemma trimEnd_idempotent (s : string) :
  Vite.trimEnd (Vite.trimEnd s) = Vite.trimEnd s.
Proof.
  induction s as [|c s IH]; [reflexivity|]. cbn [Vite.trimEnd].
  destruct (Vite.trimEnd s) as [|d t] eqn:E.
  - destruct (Vite.isWhiteSpace c) eqn:Ec; [reflexivity|]. cbn. rewrite Ec. reflexivity.
  - rewrite (trimEnd_cons c (String d t)), IH. reflexivity.
Qed.

Lemma trimStart_head (s : string) :
  match Vite.trimStart s with
  | EmptyString => True
  | String c _ => Vite.isWhiteSpace c = false
  end.
Proof.
  induction s as [|c s IH]; [exact I|]. cbn [Vite.trimStart].
  destruct (Vite.isWhiteSpace c) eqn:E; [exact IH|exact E].
Qed.

Lemma trimEnd_head (s : string) :
  match s with
  | EmptyString => True
  | String c _ => Vite.isWhiteSpace c = false
  end ->
  match Vite.trimEnd s with
  | EmptyString => True
  | String c _ => Vite.isWhiteSpace c = false
  end.
Proof.
  destruct s as [|c s]; [intros _; exact I|]. intros Hc. cbn [Vite.trimEnd].
  destruct (Vite.trimEnd s); [rewrite Hc|]; exact Hc.
Qed.

(** X17. A key that the configuration takes from [.env.local] has no
    white space at either end and no line break in it. *)
Theorem env_local_key_is_trimmed (i : Vite.Inputs) :
  Js.truthy_string (Vite.fromEnvLocal i) = true ->
  Vite.apiKey i = Vite.fromEnvLocal i
  /\ Vite.noWhiteSpaceAtEnds (Vite.apiKey i)
  /\ Vite.noLineBreak (Vite.apiKey i) = true.
Proof.
  intros Hkey. unfold Vite.apiKey. rewrite Hkey. cbn [negb].
  split; [reflexivity|].
  unfold Vite.fromEnvLocal in *.
  destruct (Vite.envLocal i) as [content|]; [|discriminate].
  destruct (Vite.matchKey content) as [captured|] eqn:Em; [|discriminate].
  unfold Vite.trim, Vite.noWhiteSpaceAtEnds. split; [split|].
  - apply trimEnd_head, trimStart_head.
  - apply trimEnd_idempotent.
  - apply trimEnd_noLineBreak, trimStart_noLineBreak.
    exact (matchKey_noLineBreak _ _ Em).
Qed.

Lemma env_local_key_is_trimmed_witness :
  Vite.apiKey {| Vite.envLocal := Some "GEMINI_API_KEY=  k  ";
                 Vite.loadedKey := None |} = "k"
  /\ Vite.noWhiteSpaceAtEnds "k"
  /\ Vite.noLineBreak "k" = true.
Proof.
  exact (env_local_key_is_trimmed
           {| Vite.envLocal := Some "GEMINI_API_KEY=  k  "; Vite.loadedKey := None |}
           eq_refl).
Defined.

(** X18. The configuration defines [process.env.API_KEY] and
    [process.env.GEMINI_API_KEY] as one and the same string.  In a
    bundle built with it the three backend calls therefore use the same
    key: without a key [sendChatMessage] throws and [connectLive] returns
    null, neither reaching the network; with a key both send it; and
    [speakText] sends its request with that key in either case. *)
Theorem vite_defines_one_key (i : Vite.Inputs) :
  API_KEY (Vite.define i) = GEMINI_API_KEY (Vite.define i)
  /\ resolvedKey (Vite.define i) = Vite.apiKey i
  /\ (forall backend text model history persona mic w,
        Js.truthy_string (Vite.apiKey i) = false ->
        sendChatMessage (Vite.define i) backend text model history persona w
        = (Rejected (Error "GEMINI_API_KEY is not configured"), w, [])
        /\ outcomeOf (connectLive (Vite.define i) persona history mic w)
           = Resolved None
        /\ networkCalls (eventsOf (connectLive (Vite.define i) persona history mic w))
           = [])
  /\ (forall backend text model history persona w,
        Js.truthy_string (Vite.apiKey i) = true ->
        contextPaired w ->
        networkCalls
          (eventsOf (sendChatMessage (Vite.define i) backend text model history
                       persona w))
        = [EvGenerateContent {| apiKey := Vite.apiKey i |}
             (chatRequest text model history persona)]
        /\ networkCalls
             (eventsOf (connectLive (Vite.define i) persona history (Resolved tt) w))
           = [EvLiveConnect {| apiKey := Vite.apiKey i |}
                (liveRequest persona history)])
  /\ (forall backend decode text persona w,
        In (EvGenerateContent {| apiKey := Vite.apiKey i |} (speakRequest text persona))
           (eventsOf (speakText (Vite.define i) backend decode text persona w))).
Proof.
  assert (Hres : resolvedKey (Vite.define i) = Vite.apiKey i).
  { unfold resolvedKey, Vite.define, Js.or_string. cbn.
    destruct (Js.truthy_string (Vite.apiKey i)); reflexivity. }
  split; [reflexivity|]. split; [exact Hres|]. split; [|split].
  - intros backend text model history persona mic w Hkey. split.
    + apply sendChatMessage_without_key. rewrite Hres. exact Hkey.
    + rewrite (connectLive_without_API_KEY (Vite.define i) persona history mic w Hkey).
      split; reflexivity.
  - intros backend text model history persona w Hkey Hp. split.
    + rewrite sendChatMessage_with_key by (rewrite Hres; exact Hkey).
      rewrite Hres. reflexivity.
    + exact (connectLive_connects (Vite.define i) persona history w Hp Hkey).
  - intros backend decode text persona w.
    exact (speakText_request (Vite.define i) backend decode text persona w).
Qed.

Lemma vite_defines_one_key_witness :
  sendChatMessage
    (Vite.define {| Vite.envLocal := None; Vite.loadedKey := None |})
    (backendFails "unused") "hello" gemini_3_flash_preview [] Zephyr initialWorld
  = (Rejected (Error "GEMINI_API_KEY is not configured"), initialWorld, [])
  /\ outcomeOf (connectLive
                  (Vite.define {| Vite.envLocal := None; Vite.loadedKey := None |})
                  Zephyr [] (Resolved tt) initialWorld)
     = Resolved None
  /\ networkCalls
       (eventsOf (connectLive
                    (Vite.define {| Vite.envLocal := None; Vite.loadedKey := None |})
                    Zephyr [] (Resolved tt) initialWorld))
     = [].
Proof.
  exact (proj1 (proj2 (proj2
           (vite_defines_one_key {| Vite.envLocal := None; Vite.loadedKey := None |})))
           (backendFails "unused") "hello" gemini_3_flash_preview [] Zephyr
           (Resolved tt) initialWorld eq_refl).
Defined.

(** ** components/Visualizer.tsx *)

(** X19. Every bar of a frame lies inside the canvas of 100 by 32: for
    the bar indices 0 to 19, any sine between -1 and 1 and any random
    number in [0, 1), the bar is between 2 and 28 high, starts at or
    right of the left edge, ends at or left of the right edge, and is
    centred vertically without crossing the top or the bottom; an
    inactive visualizer draws bars of height 2. *)
Theorem bars_stay_inside_canvas
    (isActive : bool) (i : Z) (sine random : Q) :
  (0 <= i < Visualizer.bars)%Z ->
  -1 <= sine -> sine <= 1 ->
  0 <= random -> random < 1 ->
  0 <= Visualizer.barX i
  /\ Visualizer.barX i + Visualizer.barWidth <= Visualizer.canvasWidth
  /\ 2 <= Visualizer.barHeight isActive sine random
  /\ Visualizer.barHeight isActive sine random <= 28
  /\ 0 <= Visualizer.barY (Visualizer.barHeight isActive sine random)
  /\ Visualizer.barY (Visualizer.barHeight isActive sine random)
     + Visualizer.barHeight isActive sine random <= Visualizer.canvasHeight
  /\ (isActive = false -> Visualizer.barHeight isActive sine random == 2).
Proof.
  intros [Hi0 Hi1] Hs0 Hs1 Hr0 Hr1.
  assert (Hx0 : 0 <= inject_Z i).
  { change 0 with (inject_Z 0). rewrite <- Zle_Qle. exact Hi0. }
  assert (Hx1 : inject_Z i <= 19).
  { change 19 with (inject_Z 19). rewrite <- Zle_Qle. unfold Visualizer.bars in Hi1. lia. }
  unfold Visualizer.barX, Visualizer.barY, Visualizer.barWidth, Visualizer.gap,
    Visualizer.canvasWidth, Visualizer.canvasHeight, Visualizer.barHeight.
  set (x := inject_Z i) in *. clearbody x. clear Hi0 Hi1.
  set (h := Qmax 2 ((if isActive then 8 else 2)
                    + (if isActive then sine * 14 + random * 6 else 0))).
  assert (Hh : 2 <= h /\ h <= 28 /\ (isActive = false -> h == 2)).
  { subst h. destruct isActive.
    - split; [|split; [|intros E; discriminate E]];
        destruct (Q.max_spec 2 (8 + (sine * 14 + random * 6))) as [[H1 H2]|[H1 H2]];
        rewrite H2; lra.
    - split; [|split; [|intros _]];
        destruct (Q.max_spec 2 (2 + 0)) as [[H1 H2]|[H1 H2]];
        rewrite H2; lra. }
  destruct Hh as [Hh0 [Hh1 Hh2]]. clearbody h.
  assert (Hy : (32 - h) / 2 == (32 - h) * (1 # 2)) by reflexivity.
  repeat split; try assumption; rewrite ?Hy; lra.
Qed.

Lemma bars_stay_inside_canvas_witness :
  0 <= Visualizer.barX 19
  /\ Visualizer.barX 19 + Visualizer.barWidth <= Visualizer.canvasWidth
  /\ 2 <= Visualizer.barHeight true 1 (9 # 10)
  /\ Visualizer.barHeight true 1 (9 # 10) <= 28
  /\ 0 <= Visualizer.barY (Visualizer.barHeight true 1 (9 # 10))
  /\ Visualizer.barY (Visualizer.barHeight true 1 (9 # 10))
     + Visualizer.barHeight true 1 (9 # 10) <= Visualizer.canvasHeight
  /\ (true = false -> Visualizer.barHeight true 1 (9 # 10) == 2).
Proof.
  apply (bars_stay_inside_canvas true 19 1 (9 # 10)).
  - unfold Visualizer.bars. lia.
  - discriminate.
  - discriminate.
  - discriminate.
  - reflexivity.
Defined.

(** ** The life of a session *)

(** X20. Microphone frames follow the session: once [onopen] has seen
    the session established (with an open connection) the microphone
    pipeline is attached and a frame is sent; when establishing the
    session fails, [onopen] reports the error through [onError], does
    not throw and changes nothing; and after [onclose] no frame is sent
    any more.  None of this touches the playback state. *)
Theorem microphone_frames_follow_session (w : World) (s : Session) (m : string) :
  socketOpen s = true ->
  eventsOf (onaudioprocess (worldOf (onopen (Resolved s) w))) = [EvSendRealtimeInput]
  /\ scriptProcessor (live (worldOf (onopen (Resolved s) w))) = true
  /\ service (worldOf (onopen (Resolved s) w)) = service w
  /\ onopen (Rejected (Error m)) w
     = (Resolved tt, w,
        [EvConsoleError "Failed to establish session:"; EvOnError m])
  /\ eventsOf (onaudioprocess (worldOf (onclose (worldOf (onopen (Resolved s) w)))))
     = [].
Proof.
  intros Hopen. unfold onopen, onclose, onaudioprocess, sendRealtimeInput.
  run_monad. unfold worldOf, eventsOf. cbn. rewrite Hopen. cbn.
  repeat split; reflexivity.
Qed.

Lemma microphone_frames_follow_session_witness :
  eventsOf (onaudioprocess
              (worldOf (onopen (Resolved {| socketOpen := true |}) stoppedWorld)))
  = [EvSendRealtimeInput]
  /\ eventsOf (onaudioprocess
                 (worldOf (onclose
                    (worldOf (onopen (Resolved {| socketOpen := true |}) stoppedWorld)))))
     = [].
Proof.
  pose proof (microphone_frames_follow_session stoppedWorld
                {| socketOpen := true |} "unused" eq_refl) as H.
  split; [exact (proj1 H)|exact (proj2 (proj2 (proj2 (proj2 H))))].
Defined.
